(** * MoA chatbot (src/bot.py): the generation turn, its timer and its session state

    A shallow embedding of the parts of [bot.py] that drive one
    Mixture-of-Agents turn, and the properties the specification states
    about them.

    - [SharedValue]    the lock-protected cell (bot.py 17-28)
    - [WorkingSet]     the model selection logic (bot.py 249-252)
    - [Turn]           fan-out, aggregation, streaming, error handling
                       (bot.py 121-140 and 240-313)
    - [Timer]          [run_timer] and the controller as two threads
                       (bot.py 142-146, 242-245, 311-313)
    - [Session]        the session state as a store of shared objects
                       (bot.py 192-208 and 229-238, 302)

    The completion client ([utils.generate_with_references],
    [utils.generate_together_stream]) is not part of the file: the turn is
    parameterised by it. *)

From Stdlib Require Import ZArith QArith_base Permutation Ascii String.
From stdpp Require Import base gmap sets list strings.

Local Open Scope string_scope.
Local Open Scope list_scope.

(** ** Python sets of strings

    [list(s)] enumerates a [set] in hash-table order.  CPython salts the hash
    of a [str] per process and places colliding elements by insertion
    history, so the order is not a function of the program text: it is a
    datum of the run.  A [set_order] is one such enumeration; all the code
    may rely on is that it lists every element exactly once. *)

Record set_order := SetOrder {
  list_of_set :> gset string → list string;
  list_of_set_perm : ∀ X, list_of_set X ≡ₚ elements X
}.

Definition forward_order : set_order :=
  {| list_of_set := elements; list_of_set_perm := λ X, reflexivity _ |}.

Definition reversed_order : set_order :=
  {| list_of_set := λ X, reverse (elements X);
     list_of_set_perm := λ X, reverse_Permutation (elements X) |}.

(** ** bot.py 17-28: [SharedValue]

<<
    class SharedValue:
        def __init__(self, initial_value=0.0):
            self.value = initial_value
            self.lock = threading.Lock()
        def set(self, new_value):
            with self.lock:
                self.value = new_value
        def get(self):
            with self.lock:
                return self.value
>>
    The stored number is a clock difference; it is modelled as an integer
    number of clock ticks.  The lock is modelled by its owner.  A method body
    is the instruction sequence [with self.lock] expands to: acquire, one
    access to [self.value], release. *)

Module SharedValue.

Abbreviation tid := nat.

Record t := mk { value : Z; lock : option tid }.

Definition __init__ (initial_value : Z) : t :=
  {| value := initial_value; lock := None |}.

Inductive instr :=
  | Acquire
  | Store (new_value : Z)
  | Load
  | Release.

Definition set_body (new_value : Z) : list instr :=
  [Acquire; Store new_value; Release].

Definition get_body : list instr :=
  [Acquire; Load; Release].

(** One instruction of thread [i].  [Acquire] blocks ([None]) while the
    lock is taken; [Store] and [Load] are plain attribute accesses and do
    not look at the lock. *)
Definition exec_instr (i : tid) (ins : instr) (self : t) : option (t * option Z) :=
  match ins with
  | Acquire =>
      match lock self with
      | None => Some ({| value := value self; lock := Some i |}, None)
      | Some _ => None
      end
  | Store new_value => Some ({| value := new_value; lock := lock self |}, None)
  | Load => Some (self, Some (value self))
  | Release => Some ({| value := value self; lock := None |}, None)
  end.

(** A body run to its end by one thread, nothing interleaved; the result is
    the last value loaded, if any. *)
Fixpoint exec_body (i : tid) (body : list instr) (self : t) (ret : option Z)
    : option (t * option Z) :=
  match body with
  | [] => Some (self, ret)
  | ins :: body' =>
      match exec_instr i ins self with
      | None => None
      | Some (self', None) => exec_body i body' self' ret
      | Some (self', Some v) => exec_body i body' self' (Some v)
      end
  end.

Definition set (self : t) (new_value : Z) : option t :=
  fst <$> exec_body 0 (set_body new_value) self None.

Definition get (self : t) : option Z :=
  exec_body 0 get_body self None ≫= snd.

(** Successive [set] calls. *)
Fixpoint set_all (self : t) (new_values : list Z) : option t :=
  match new_values with
  | [] => Some self
  | v :: vs => set self v ≫= λ self', set_all self' vs
  end.

(** *** Threads sharing one cell *)

Inductive op := CallSet (new_value : Z) | CallGet.

Definition body (o : op) : list instr :=
  match o with
  | CallSet new_value => set_body new_value
  | CallGet => get_body
  end.

Record thread := Thread { code : list instr; returned : list Z }.

Definition spawn (calls : list op) : thread :=
  {| code := concat (body <$> calls); returned := [] |}.

(** An access to [self.value], with the lock owner at that moment. *)
Inductive access :=
  | Wrote (i : tid) (v : Z) (owner : option tid)
  | Read (i : tid) (v : Z) (owner : option tid).

Definition actor (a : access) : tid :=
  match a with Wrote i _ _ | Read i _ _ => i end.

Definition owner_at (a : access) : option tid :=
  match a with Wrote _ _ o | Read _ _ o => o end.

Definition access_of (i : tid) (ins : instr) (self : t) : list access :=
  match ins with
  | Store v => [Wrote i v (lock self)]
  | Load => [Read i (value self) (lock self)]
  | Acquire | Release => []
  end.

Record machine := Machine {
  cell : t;
  threads : list thread;
  trace : list access   (* oldest first *)
}.

Definition boot (initial_value : Z) (programs : list (list op)) : machine :=
  {| cell := __init__ initial_value;
     threads := spawn <$> programs;
     trace := [] |}.

(** Thread [i] runs its next instruction. *)
Definition step (i : tid) (m : machine) : option machine :=
  match threads m !! i with
  | None => None
  | Some th =>
      match code th with
      | [] => None
      | ins :: rest =>
          match exec_instr i ins (cell m) with
          | None => None
          | Some (self', r) =>
              Some {| cell := self';
                      threads := <[i := {| code := rest;
                                           returned := returned th ++ option_list r |}]>
                                   (threads m);
                      trace := trace m ++ access_of i ins (cell m) |}
          end
      end
  end.

Fixpoint run (schedule : list tid) (m : machine) : option machine :=
  match schedule with
  | [] => Some m
  | i :: schedule' => step i m ≫= run schedule'
  end.

(** A thread is inside [with self.lock] when its next instruction is the
    access or the release. *)
Definition in_critical (th : thread) : bool :=
  match code th with
  | Store _ :: _ | Load :: _ | Release :: _ => true
  | _ => false
  end.

(** Replaying a trace as a register: every read sees the latest write. *)
Fixpoint last_written (v : Z) (tr : list access) : Z :=
  match tr with
  | [] => v
  | Wrote _ v' _ :: tr' => last_written v' tr'
  | Read _ _ _ :: tr' => last_written v tr'
  end.

Fixpoint reads_latest (v : Z) (tr : list access) : Prop :=
  match tr with
  | [] => True
  | Wrote _ v' _ :: tr' => reads_latest v' tr'
  | Read _ r _ :: tr' => r = v ∧ reads_latest v tr'
  end.

(** *** Where a thread stands in its code

    [shape true code]: the thread is inside [with self.lock];
    [shape false code]: it is between two calls. *)
Inductive shape : bool → list instr → Prop :=
  | shape_nil : shape false []
  | shape_set v code :
      shape false code → shape false (Acquire :: Store v :: Release :: code)
  | shape_get code :
      shape false code → shape false (Acquire :: Load :: Release :: code)
  | shape_store v code :
      shape false code → shape true (Store v :: Release :: code)
  | shape_load code :
      shape false code → shape true (Load :: Release :: code)
  | shape_release code :
      shape false code → shape true (Release :: code).

(** The invariant of the machine, for the initial value [v0]. *)
Record inv (v0 : Z) (m : machine) : Prop := {
  inv_shape : ∀ i th, threads m !! i = Some th →
                shape (bool_decide (lock (cell m) = Some i)) (code th);
  inv_owner : Forall (λ a, owner_at a = Some (actor a)) (trace m);
  inv_reads : reads_latest v0 (trace m);
  inv_value : last_written v0 (trace m) = value (cell m)
}.

End SharedValue.

(** ** bot.py 249-252: the model selection logic *)

Module WorkingSet.

(** [set(xs)] *)
Definition py_set (xs : list string) : gset string := list_to_set xs.

(**
<<
  selected_models = list(set(st.session_state.selected_models) - set([model]))
  if not selected_models:
      selected_models = [model]
>> *)
Definition working_models (o : set_order) (session_selected : list string)
    (model : string) : list string :=
  let selected_models := o (py_set session_selected ∖ py_set [model]) in
  match selected_models with
  | [] => [model]
  | _ :: _ => selected_models
  end.

(** The working set as a set. *)
Definition working_set (o : set_order) (session_selected : list string)
    (model : string) : gset string :=
  py_set (working_models o session_selected model).

End WorkingSet.

(** ** bot.py 121-140 and 240-313: one generation turn *)

Module Turn.

Import WorkingSet.

(** A message is a dict with the keys ["role"] and ["content"]. *)
Record message := Message { role : string; content : string }.

(** Exceptions, with the text [str(e)] gives. *)
Inductive exn :=
  | TypeError (msg : string)
  | IndexError (msg : string)
  | NameError (msg : string)
  | Exception (msg : string).   (* whatever the completion client raises *)

Definition str (e : exn) : string :=
  match e with
  | TypeError msg | IndexError msg | NameError msg | Exception msg => msg
  end.

(** The value passed as [references]: the first round passes a list; the
    column rebuilt at the end of a round holds one string per row. *)
Inductive refs :=
  | RefsList (outputs : list string)
  | RefsStr (output : string).

(** A streamed chunk, read as [chunk.choices[0].delta.content]. *)
Record delta := Delta { delta_content : option string }.
Record choice := Choice { choice_delta : delta }.
Record chunk := Chunk { choices : list choice }.

(** The iterator returned by the streaming call: finite; it may raise
    instead of ending. *)
Inductive stream :=
  | StreamEnd
  | StreamChunk (c : chunk) (rest : stream)
  | StreamRaise (e : exn).

(** The completion client of [utils], which is not part of this file.
    [generate_with_references] is the call with the default [generate_fn];
    [generate_with_references_stream] is the call with
    [generate_fn=generate_together_stream].  Within one turn no call is
    repeated with the same arguments, so a function of the arguments loses
    nothing. *)
Record client := Client {
  generate_with_references :
    string → list message → refs → Q → Z → exn + string;
  generate_with_references_stream :
    string → list message → refs → Q → Z → exn + stream
}.

(** What the controller thread does that others can see, in order. *)
Inductive event :=
  | ThreadStart                                   (* timer_thread.start() *)
  | RefCall (model : string) (messages : list message) (references : refs)
            (temperature : Q) (max_tokens : Z)    (* process_fn's request *)
  | AggCall (model : string) (messages : list message) (references : refs)
            (temperature : Q) (max_tokens : Z)    (* the streaming request *)
  | StWrite (text : string)                       (* st.write *)
  | Progress (finished total : nat)                     (* progress_bar.progress *)
  | ElapsedGet                                    (* elapsed_time.get() *)
  | Partial (text : string)      (* message_placeholder.markdown(... + cursor) *)
  | Final (text : string)        (* message_placeholder.markdown(full_response) *)
  | TotalElapsed                                  (* the total duration line *)
  | StError (text : string)                       (* st.error *)
  | LogError (text : string)                      (* logger.error *)
  | StopSet                                       (* stop_event.set() *)
  | Join.                                         (* timer_thread.join() *)

(** *** Effects: a log of events and a result or an exception *)

Definition M (A : Type) : Type := list event * (exn + A).

Definition ret {A} (a : A) : M A := ([], inr a).

Definition bind {A B} (m : M A) (f : A → M B) : M B :=
  match m with
  | (l, inl e) => (l, inl e)
  | (l, inr a) => let '(l', r) := f a in (l ++ l', r)
  end.

Definition emit (e : event) : M unit := ([e], inr tt).
Definition raise {A} (e : exn) : M A := ([], inl e).
Definition lift {A} (r : exn + A) : M A := ([], r).

Notation "x <- m ;; k" := (bind m (λ x, k))
  (at level 100, m at next level, right associativity).
Notation "m ;;; k" := (bind m (λ _, k))
  (at level 100, right associativity).

(** *** The dataset *)

Record data := Data {
  instruction : list (list message);
  references : list refs;
  model : list string
}.

Record row := Row {
  row_instruction : list message;
  row_references : refs;
  row_model : string
}.

(** A row after [map]: it has gained the column ["output"]. *)
Record mapped_row := MappedRow { row_of : row; output : string }.

(** [datasets.Dataset.from_dict(data)]: the columns side by side.  The
    three columns built in this file always have the same length. *)
Fixpoint from_dict_rows (ins : list (list message)) (rs : list refs)
    (ms : list string) : list row :=
  match ins, rs, ms with
  | i :: ins', r :: rs', m :: ms' =>
      {| row_instruction := i; row_references := r; row_model := m |}
        :: from_dict_rows ins' rs' ms'
  | _, _, _ => []
  end.

Definition from_dict (d : data) : list row :=
  from_dict_rows (instruction d) (references d) (model d).

(** [eval_set.map(f, batched=False, num_proc=len(selected_models))]: one
    worker per row.  Every row is handed to its worker and every worker
    runs to its end before [map] returns or raises; the exception raised is
    that of the first failing row.  The events of the workers are listed in
    row order. *)
Fixpoint dataset_map (f : row → M string) (eval_set : list row)
    : M (list mapped_row) :=
  match eval_set with
  | [] => ret []
  | item :: eval_set' =>
      let '(l1, r1) := f item in
      let '(l2, r2) := dataset_map f eval_set' in
      (l1 ++ l2,
       match r1, r2 with
       | inl e, _ => inl e
       | inr _, inl e => inl e
       | inr o, inr rest => inr ({| row_of := item; output := o |} :: rest)
       end)
  end.

(** *** bot.py 121-140: [process_fn]

    The [DEBUG] branch only logs and is left out. *)
Definition process_fn (c : client) (item : row) (temperature : Q)
    (max_tokens : Z) : M string :=
  let references := row_references item in
  let model := row_model item in
  let messages := row_instruction item in
  emit (RefCall model messages references temperature max_tokens) ;;;
  output <- lift (generate_with_references c model messages references
                    temperature max_tokens) ;;
  emit (StWrite ("Finished querying " +:+ model +:+ ".")) ;;;
  ret output.

(** *** bot.py 265-280: the round loop *)

Record loop_state := LoopState {
  ls_data : data;
  ls_eval_set : list row;
  ls_references : option (list string)   (* [None]: not yet bound *)
}.

Definition round_body (c : client) (temperature : Q) (max_tokens : Z)
    (st : loop_state) (i_round : nat) : M loop_state :=
  eval_set <- dataset_map (λ item, process_fn c item temperature max_tokens)
                (ls_eval_set st) ;;
  let references := output <$> eval_set in
  let data := {| instruction := instruction (ls_data st);
                 references := RefsStr <$> references;
                 model := model (ls_data st) |} in
  let eval_set := from_dict data in
  emit (Progress (i_round + 1) 1) ;;;
  emit ElapsedGet ;;;
  ret {| ls_data := data; ls_eval_set := eval_set;
         ls_references := Some references |}.

Fixpoint for_in {S} (xs : list nat) (body : S → nat → M S) (st : S) : M S :=
  match xs with
  | [] => ret st
  | x :: xs' => st' <- body st x ;; for_in xs' body st'
  end.

(** [range(1)] *)
Definition rounds : list nat := seq 0 1.

(** *** bot.py 292-300: the accumulation loop *)

Definition cursor : string := "▌".

(** [chunk.choices[0].delta.content] *)
Definition chunk_content (ch : chunk) : exn + option string :=
  match choices ch with
  | [] => inl (IndexError "list index out of range")
  | c0 :: _ => inr (delta_content (choice_delta c0))
  end.

Definition dquote : string := String "034"%char EmptyString.

(** [full_response += piece] *)
Definition str_iadd (full_response : string) (piece : option string)
    : exn + string :=
  match piece with
  | Some s => inr (full_response +:+ s)
  | None =>
      inl (TypeError ("can only concatenate str (not " +:+ dquote
                        +:+ "NoneType" +:+ dquote +:+ ") to str"))
  end.

Fixpoint consume (output : stream) (full_response : string) : M string :=
  match output with
  | StreamEnd => ret full_response
  | StreamRaise e => raise e
  | StreamChunk ch rest =>
      piece <- lift (chunk_content ch) ;;
      full_response' <- lift (str_iadd full_response piece) ;;
      emit (Partial (full_response' +:+ cursor)) ;;;
      emit ElapsedGet ;;;
      consume rest full_response'
  end.

(** *** bot.py 262-306: the body of [try] *)

Definition try_body (c : client) (model : string) (temperature : Q)
    (max_tokens : Z) (messages : list message) (data0 : data)
    (eval_set0 : list row) : M (list message) :=
  emit (Progress 0 1) ;;;
  st <- for_in rounds (round_body c temperature max_tokens)
          {| ls_data := data0; ls_eval_set := eval_set0;
             ls_references := None |} ;;
  emit (StWrite "Aggregating results & querying the aggregate model...") ;;;
  references <- match ls_references st with
                | Some r => ret r
                | None => raise (NameError "name 'references' is not defined")
                end ;;
  emit (AggCall model messages (RefsList references) temperature max_tokens) ;;;
  output <- lift (generate_with_references_stream c model messages
                    (RefsList references) temperature max_tokens) ;;
  full_response <- consume output EmptyString ;;
  emit (Final full_response) ;;;
  let messages' :=
    messages ++ [{| role := "assistant"; content := full_response |}] in
  emit TotalElapsed ;;;
  ret messages'.

(** *** bot.py 240-313: the turn

    [messages] is the conversation with the user's prompt already appended
    (bot.py 231). *)

Inductive outcome :=
  | Completed
  | Failed (e : exn).

Record turn := TurnOf {
  result : outcome;
  messages_after : list message;   (* st.session_state.messages at the end *)
  events : list event
}.

Definition error_notice (e : exn) : string :=
  "An error occurred during the generation process: " +:+ str e.

(** bot.py 262 and 308-313: [try: ... except Exception as e: ... finally: ...]
    around the body, in the thread that started the timer. *)
Definition try_except_finally (messages : list message)
    (body : M (list message)) : turn :=
  match body with
  | (log, inr messages') =>
      {| result := Completed;
         messages_after := messages';
         events := ThreadStart :: log ++ [StopSet; Join] |}
  | (log, inl e) =>
      {| result := Failed e;
         messages_after := messages;
         events := ThreadStart :: log
                     ++ [StError (error_notice e);
                         LogError ("Generation error: " +:+ str e)]
                     ++ [StopSet; Join] |}
  end.

Definition run_turn (o : set_order) (c : client)
    (session_selected : list string) (model : string) (temperature : Q)
    (max_tokens : Z) (messages : list message) : turn :=
  let selected_models := working_models o session_selected model in
  let data0 :=
    {| instruction := (λ _, messages) <$> seq 0 (length selected_models);
       references := (λ _, RefsList []) <$> seq 0 (length selected_models);
       model := selected_models |} in
  let eval_set := from_dict data0 in
  try_except_finally messages
    (try_body c model temperature max_tokens messages data0 eval_set).

(** *** Reading a turn

    Vocabulary for the statements below: the requests in a log, the chunks
    and text fragments of a stream, what the reference models answer. *)

Definition is_ref_call (e : event) : bool :=
  match e with RefCall _ _ _ _ _ => true | _ => false end.

Definition is_agg_call (e : event) : bool :=
  match e with AggCall _ _ _ _ _ => true | _ => false end.

Definition is_request (e : event) : bool := is_ref_call e || is_agg_call e.

(** A reference request addressed to model [m]. *)
Definition calls_model (m : string) (e : event) : bool :=
  match e with
  | RefCall m' _ _ _ _ => bool_decide (m' = m)
  | _ => false
  end.

(** The events of a worker, and those of the accumulation loop. *)
Definition worker_event (e : event) : bool :=
  match e with RefCall _ _ _ _ _ | StWrite _ => true | _ => false end.

Definition render_event (e : event) : bool :=
  match e with Partial _ | ElapsedGet => true | _ => false end.

(** The answer of reference model [m] to the conversation, asked as the
    first round asks: with no references. *)
Definition reference_result (c : client) (messages : list message)
    (temperature : Q) (max_tokens : Z) (m : string) : exn + string :=
  generate_with_references c m messages (RefsList []) temperature max_tokens.

(** All the answers, or the first exception. *)
Fixpoint collect (rs : list (exn + string)) : exn + list string :=
  match rs with
  | [] => inr []
  | inl e :: _ => inl e
  | inr o :: rs' =>
      match collect rs' with
      | inl e => inl e
      | inr os => inr (o :: os)
      end
  end.

(** The chunks a stream yields, and how it ends. *)
Fixpoint chunks (s : stream) : list chunk :=
  match s with
  | StreamChunk ch rest => ch :: chunks rest
  | StreamEnd | StreamRaise _ => []
  end.

Fixpoint raises (s : stream) : option exn :=
  match s with
  | StreamChunk _ rest => raises rest
  | StreamEnd => None
  | StreamRaise e => Some e
  end.

Definition stream_of (cs : list chunk) (tail : stream) : stream :=
  foldr StreamChunk tail cs.

(** The text fragment a chunk carries, if it carries one. *)
Definition chunk_text (ch : chunk) : option string :=
  match chunk_content ch with
  | inr (Some s) => Some s
  | _ => None
  end.

Definition fragments (s : stream) : list string := omap chunk_text (chunks s).

(** Concatenation in list order. *)
Definition join (fs : list string) : string := foldr String.append EmptyString fs.

Definition text_chunk (s : string) : chunk :=
  {| choices := [{| choice_delta := {| delta_content := Some s |} |}] |}.

Definition none_chunk : chunk :=
  {| choices := [{| choice_delta := {| delta_content := None |} |}] |}.

(** A turn that went through the error handler: an error notice is shown,
    the conversation is the one the turn started with, and no text was
    rendered as the final answer. *)
Definition reported_failure (messages : list message) (t : turn) : Prop :=
  ∃ e, result t = Failed e ∧
       StError (error_notice e) ∈ events t ∧
       messages_after t = messages ∧
       ∀ text, Final text ∉ events t.

(** *** The four ways a turn can go

    The shapes the log and the result of a turn can take; [TurnFacts.run_turn_view]
    shows that [run_turn] always produces one of them. *)

Section View.

Variables (o : set_order) (c : client) (R : list string) (a : string)
  (temperature : Q) (max_tokens : Z) (messages : list message).

Definition aggregating : event :=
  StWrite "Aggregating results & querying the aggregate model...".

Definition answers : list (exn + string) :=
  reference_result c messages temperature max_tokens <$> working_models o R a.

Definition reference_requests : list event :=
  (λ m, RefCall m messages (RefsList []) temperature max_tokens)
    <$> working_models o R a.

Definition workers_log (l1 : list event) : Prop :=
  List.filter is_ref_call l1 = reference_requests ∧
  Forall (λ e, worker_event e = true) l1.

Definition before_stream (l1 : list event) (outs : list string) : list event :=
  Progress 0 1 :: l1
    ++ [Progress 1 1; ElapsedGet; aggregating;
        AggCall a messages (RefsList outs) temperature max_tokens].

Inductive run_view : turn → Prop :=
  | view_fan_out_failed l1 e :
      workers_log l1 →
      collect answers = inl e →
      run_view (try_except_finally messages (Progress 0 1 :: l1, inl e))
  | view_call_failed l1 outs e :
      workers_log l1 →
      collect answers = inr outs →
      generate_with_references_stream c a messages (RefsList outs)
        temperature max_tokens = inl e →
      run_view (try_except_finally messages (before_stream l1 outs, inl e))
  | view_stream_failed l1 outs s e :
      workers_log l1 →
      collect answers = inr outs →
      generate_with_references_stream c a messages (RefsList outs)
        temperature max_tokens = inr s →
      (consume s EmptyString).2 = inl e →
      run_view (try_except_finally messages
                  (before_stream l1 outs ++ (consume s EmptyString).1, inl e))
  | view_completed l1 outs s full :
      workers_log l1 →
      collect answers = inr outs →
      generate_with_references_stream c a messages (RefsList outs)
        temperature max_tokens = inr s →
      (consume s EmptyString).2 = inr full →
      run_view (try_except_finally messages
                  (before_stream l1 outs ++ (consume s EmptyString).1
                     ++ [Final full; TotalElapsed],
                   inr (messages ++ [{| role := "assistant"; content := full |}]))).

End View.

(** The output in a result, for results known to be outputs. *)
Definition out_of (r : exn + string) : string :=
  match r with inr o => o | inl _ => EmptyString end.

End Turn.

(** ** bot.py 142-146 and 242-245, 311-313: the timer thread and the controller

<<
    def run_timer(stop_event, elapsed_time):
        start_time = time.time()
        while not stop_event.is_set():
            elapsed_time.set(time.time() - start_time)
            time.sleep(0.1)
>>
    Two threads are interleaved: the timer, stepping through [run_timer], and
    the controller, replaying the events of its turn.  [time.time()] is the
    wall clock: [clock k] is what the timer's [k]-th call returns, in ticks.
    A call of [set] or [get] is one step (see [SharedValue] for what happens
    inside).  [time.sleep(0.1)] is one step: one polling interval. *)

Module Timer.

Import Turn.

Inductive pc :=
  | NotStarted     (* before timer_thread.start() *)
  | AtStart        (* about to run: start_time = time.time() *)
  | AtCheck        (* about to test: not stop_event.is_set() *)
  | AtSet          (* about to run: elapsed_time.set(time.time() - start_time) *)
  | AtSleep        (* inside: time.sleep(0.1) *)
  | Done.          (* run_timer has returned *)

#[global] Instance pc_eq_dec : EqDecision pc.
Proof. solve_decision. Defined.

Inductive thread := Controller | TimerTask.

(** What a step did. *)
Inductive action :=
  | CtlDid (e : event)
  | TmrStart
  | TmrCheck (is_set : bool)
  | TmrSet (v : Z)
  | TmrSleep.

Record state := State {
  controller : list event;          (* what the controller still has to do *)
  timer : pc;
  start_time : Z;                   (* run_timer's local *)
  reads : nat;                      (* calls of time.time() made by the timer *)
  stop_event : bool;
  elapsed_time : SharedValue.t;
  written : list Z;                 (* the arguments of set, oldest first *)
  shown : list Z;                   (* the results of get, oldest first *)
  history : list action             (* oldest first *)
}.

(** bot.py 242-243: [stop_event = threading.Event()],
    [elapsed_time = SharedValue()]. *)
Definition init (program : list event) : state :=
  {| controller := program; timer := NotStarted; start_time := 0; reads := 0;
     stop_event := false; elapsed_time := SharedValue.__init__ 0;
     written := []; shown := []; history := [] |}.

Section Clock.

Variable clock : nat → Z.

Definition timer_step (s : state) : option state :=
  match timer s with
  | NotStarted | Done => None
  | AtStart =>
      Some {| controller := controller s; timer := AtCheck;
              start_time := clock (reads s); reads := S (reads s);
              stop_event := stop_event s; elapsed_time := elapsed_time s;
              written := written s; shown := shown s;
              history := history s ++ [TmrStart] |}
  | AtCheck =>
      Some {| controller := controller s;
              timer := if stop_event s then Done else AtSet;
              start_time := start_time s; reads := reads s;
              stop_event := stop_event s; elapsed_time := elapsed_time s;
              written := written s; shown := shown s;
              history := history s ++ [TmrCheck (stop_event s)] |}
  | AtSet =>
      let v := (clock (reads s) - start_time s)%Z in
      match SharedValue.set (elapsed_time s) v with
      | None => None
      | Some cell =>
          Some {| controller := controller s; timer := AtSleep;
                  start_time := start_time s; reads := S (reads s);
                  stop_event := stop_event s; elapsed_time := cell;
                  written := written s ++ [v]; shown := shown s;
                  history := history s ++ [TmrSet v] |}
      end
  | AtSleep =>
      Some {| controller := controller s; timer := AtCheck;
              start_time := start_time s; reads := reads s;
              stop_event := stop_event s; elapsed_time := elapsed_time s;
              written := written s; shown := shown s;
              history := history s ++ [TmrSleep] |}
  end.

Definition controller_step (s : state) : option state :=
  match controller s with
  | [] => None
  | e :: rest =>
      let s' (tm : pc) (stop : bool) (sh : list Z) :=
        {| controller := rest; timer := tm;
           start_time := start_time s; reads := reads s;
           stop_event := stop; elapsed_time := elapsed_time s;
           written := written s; shown := sh;
           history := history s ++ [CtlDid e] |} in
      match e with
      | ThreadStart =>
          match timer s with
          | NotStarted => Some (s' AtStart (stop_event s) (shown s))
          | _ => None     (* a thread is started once *)
          end
      | ElapsedGet =>
          match SharedValue.get (elapsed_time s) with
          | None => None
          | Some v => Some (s' (timer s) (stop_event s) (shown s ++ [v]))
          end
      | StopSet => Some (s' (timer s) true (shown s))
      | Join =>
          match timer s with
          | Done => Some (s' Done (stop_event s) (shown s))
          | _ => None     (* join waits for run_timer to return *)
          end
      | _ => Some (s' (timer s) (stop_event s) (shown s))
      end
  end.

Definition step (t : thread) (s : state) : option state :=
  match t with
  | Controller => controller_step s
  | TimerTask => timer_step s
  end.

Fixpoint run (schedule : list thread) (s : state) : option state :=
  match schedule with
  | [] => Some s
  | t :: schedule' => step t s ≫= run schedule'
  end.

End Clock.

(** The part of a history that follows the first occurrence of a
    controller event, if it has occurred. *)
Definition is_ctl (e : event) (a : action) : bool :=
  match a, e with
  | CtlDid StopSet, StopSet => true
  | CtlDid Join, Join => true
  | CtlDid ThreadStart, ThreadStart => true
  | _, _ => false
  end.

Fixpoint after (e : event) (h : list action) : option (list action) :=
  match h with
  | [] => None
  | a :: h' => if is_ctl e a then Some h' else after e h'
  end.

Definition is_timer_action (a : action) : bool :=
  match a with CtlDid _ => false | _ => true end.

Definition is_sleep (a : action) : bool :=
  match a with TmrSleep => true | _ => false end.

Definition is_set_action (a : action) : bool :=
  match a with TmrSet _ => true | _ => false end.

(** The events that act on the timer thread. *)
Definition timer_control (e : event) : bool :=
  match e with ThreadStart | StopSet | Join => true | _ => false end.

(** *** Vocabulary for the statements about the two threads *)

(** The value a timer action wrote, if it wrote. *)
Definition set_value (a : action) : option Z :=
  match a with TmrSet v => Some v | _ => None end.

(** With [stop_event] set, what the timer can still do before it returns. *)
Definition remaining_steps (p : pc) : nat :=
  match p with
  | AtSet => 3 | AtSleep => 2 | AtStart => 2 | AtCheck => 1
  | NotStarted | Done => 0
  end.

Definition remaining_sleeps (p : pc) : nat :=
  match p with AtSet | AtSleep => 1 | _ => 0 end.

Definition remaining_sets (p : pc) : nat :=
  match p with AtSet => 1 | _ => 0 end.

Definition count (f : action → bool) (h : list action) : nat :=
  length (List.filter f h).

(** What the timer has published, given how many times it read the clock. *)
Definition published (clock : nat → Z) (reads : nat) : list Z :=
  (λ k, (clock k - clock 0%nat)%Z) <$> seq 1 (reads - 1).

(** The program of a turn: start the timer, do things that leave it alone,
    then signal and join. *)
Definition turn_program (program log : list event) : Prop :=
  program = ThreadStart :: log ++ [StopSet; Join] ∧
  Forall (λ e, timer_control e = false) log.

(** Invariant of the cell and of the timer's bookkeeping, whatever the
    controller does. *)
Record cell_inv (clock : nat → Z) (s : state) : Prop := {
  ci_lock : SharedValue.lock (elapsed_time s) = None;
  ci_value : SharedValue.value (elapsed_time s) = default 0%Z (last (written s));
  ci_history : written s = omap set_value (history s);
  ci_written :
    match timer s with
    | NotStarted | AtStart => written s = [] ∧ reads s = 0%nat
    | _ => (1 ≤ reads s)%nat ∧ start_time s = clock 0%nat
           ∧ written s = published clock (reads s)
    end
}.

(** Where the controller of a turn stands. *)
Inductive phase : state → Prop :=
  | phase_idle s log :
      controller s = ThreadStart :: log ++ [StopSet; Join] →
      Forall (λ e, timer_control e = false) log →
      timer s = NotStarted → stop_event s = false →
      after StopSet (history s) = None → after Join (history s) = None →
      phase s
  | phase_running s log :
      controller s = log ++ [StopSet; Join] →
      Forall (λ e, timer_control e = false) log →
      timer s ≠ NotStarted → timer s ≠ Done → stop_event s = false →
      after StopSet (history s) = None → after Join (history s) = None →
      phase s
  | phase_stopping s h :
      controller s = [Join] →
      timer s ≠ NotStarted → stop_event s = true →
      after StopSet (history s) = Some h → after Join (history s) = None →
      (count is_timer_action h + remaining_steps (timer s) ≤ 3)%nat →
      (count is_sleep h + remaining_sleeps (timer s) ≤ 1)%nat →
      (count is_set_action h + remaining_sets (timer s) ≤ 1)%nat →
      phase s
  | phase_returned s h :
      controller s = [] →
      timer s = Done → stop_event s = true →
      after StopSet (history s) = Some h → after Join (history s) = Some [] →
      (count is_timer_action h ≤ 3)%nat →
      (count is_sleep h ≤ 1)%nat →
      (count is_set_action h ≤ 1)%nat →
      phase s.

End Timer.

(** ** bot.py 31-45, 83-93, 192-208, 229-238, 302: the session state

    [st.session_state.messages] is a Python list of dicts, and both lists and
    dicts are objects: [.copy()] makes a new list of the same dicts, an
    assignment shares the list itself.  The store maps object identities to
    the objects. *)

Module Session.

Import Turn.

Abbreviation loc := nat.

Definition nl : string := String "010"%char EmptyString.

Definition default_reference_models : list string :=
  [ "Qwen/Qwen2-72B-Instruct";
    "Qwen/Qwen1.5-110B-Chat";
    "Qwen/Qwen1.5-72B";
    "meta-llama/Llama-3-70b-chat-hf";
    "meta-llama/Meta-Llama-3-70B";
    "microsoft/WizardLM-2-8x22B";
    "mistralai/Mixtral-8x22B" ].

Definition default_system_prompt : string :=
  "You are an AI assistant named MoA, powered by a Mixture of Agents architecture. " +:+ nl +:+
  "Your role is to provide helpful, accurate, and ethical responses to user queries. " +:+ nl +:+
  "You have access to multiple language models and can leverage their combined knowledge to generate comprehensive answers. " +:+ nl +:+
  "Always strive to be respectful, avoid harmful content, and admit when you're unsure about something.".

(** An entry of [st.session_state.conversations]. *)
Record conversation := Conversation {
  first_question : string;
  conv_messages : loc          (* the list object under the key "messages" *)
}.

Record session := SessionOf {
  dicts : gmap loc message;      (* the message dicts *)
  lists : gmap loc (list loc);   (* the list objects *)
  next : loc;                    (* the next fresh identity *)
  messages : loc;                (* st.session_state.messages *)
  user_system_prompt : string;
  selected_models : list string;
  conversations : list conversation
}.

(** bot.py 83-93 *)
Definition initial : session :=
  {| dicts := {[ 0 := {| role := "system"; content := default_system_prompt |} ]};
     lists := {[ 1 := [0] ]};
     next := 2;
     messages := 1;
     user_system_prompt := EmptyString;
     selected_models := default_reference_models;
     conversations := [] |}.

(** The messages a list object holds, read through the store. *)
Definition read_list (s : session) (l : loc) : option (list message) :=
  lists s !! l ≫= λ ds, mapM (λ d, dicts s !! d) ds.

(** [xs[0]["content"]] for the list object [l]. *)
Definition system_content (s : session) (l : loc) : option string :=
  lists s !! l ≫= λ ds, head ds ≫= λ d, content <$> dicts s !! d.

(** [f"{default_system_prompt}\n\nAdditional instructions: {user_prompt}"] *)
Definition combined_prompt (user_prompt : string) : string :=
  default_system_prompt +:+ nl +:+ nl +:+ "Additional instructions: "
    +:+ user_prompt.

(** bot.py 192-196: the button "Update System Instructions".  [None] is an
    exception ([messages[0]] on an empty or missing list). *)
Definition update_system_instructions (user_prompt : string) (s : session)
    : option session :=
  ds ← lists s !! messages s;
  d0 ← head ds;
  m0 ← dicts s !! d0;
  Some {| dicts := <[ d0 := {| role := role m0;
                               content := combined_prompt user_prompt |} ]>
                     (dicts s);
          lists := lists s; next := next s; messages := messages s;
          user_system_prompt := user_prompt;
          selected_models := selected_models s;
          conversations := conversations s |}.

(** bot.py 199-201: the button "Start New Conversation". *)
Definition start_new_conversation (s : session) : option session :=
  c ← system_content s (messages s);
  let d := next s in
  let l := S (next s) in
  Some {| dicts := <[ d := {| role := "system"; content := c |} ]> (dicts s);
          lists := <[ l := [d] ]> (lists s);
          next := S (S (next s));
          messages := l;
          user_system_prompt := user_system_prompt s;
          selected_models := selected_models s;
          conversations := conversations s |}.

(** bot.py 205-208: a button of "Previous Conversations". *)
Definition select_conversation (idx : nat) (s : session) : option session :=
  conv ← conversations s !! idx;
  Some {| dicts := dicts s; lists := lists s; next := next s;
          messages := conv_messages conv;
          user_system_prompt := user_system_prompt s;
          selected_models := selected_models s;
          conversations := conversations s |}.

(** [st.session_state.messages.append({"role": r, "content": c})] *)
Definition append_message (r c : string) (s : session) : option session :=
  ds ← lists s !! messages s;
  let d := next s in
  Some {| dicts := <[ d := {| role := r; content := c |} ]> (dicts s);
          lists := <[ messages s := ds ++ [d] ]> (lists s);
          next := S (next s);
          messages := messages s;
          user_system_prompt := user_system_prompt s;
          selected_models := selected_models s;
          conversations := conversations s |}.

(** bot.py 229-238: the user's prompt arrives. *)
Definition chat_input (prompt : string) (s : session) : option session :=
  s1 ← append_message "user" prompt s;
  ds ← lists s1 !! messages s1;
  if decide (length ds = 2) then
    let l := next s1 in                      (* messages.copy() *)
    Some {| dicts := dicts s1;
            lists := <[ l := ds ]> (lists s1);
            next := S (next s1);
            messages := messages s1;
            user_system_prompt := user_system_prompt s1;
            selected_models := selected_models s1;
            conversations := conversations s1
              ++ [{| first_question := prompt; conv_messages := l |}] |}
  else Some s1.

(** bot.py 302: a completed turn appends the assistant's message. *)
Definition append_assistant (full_response : string) (s : session)
    : option session :=
  append_message "assistant" full_response s.

(** What the user does between two updates of the system instructions
    without leaving the conversation. *)
Inductive chat_step :=
  | Prompt (prompt : string)
  | Reply (full_response : string).

Definition chat (st : chat_step) (s : session) : option session :=
  match st with
  | Prompt p => chat_input p s
  | Reply r => append_assistant r s
  end.

Fixpoint chats (sts : list chat_step) (s : session) : option session :=
  match sts with
  | [] => Some s
  | st :: sts' => chat st s ≫= chats sts'
  end.

(** Identities in use are below [next]; the live list exists. *)
Record wf (s : session) : Prop := {
  wf_dicts : ∀ d, is_Some (dicts s !! d) → d < next s;
  wf_lists : ∀ l, is_Some (lists s !! l) → l < next s;
  wf_elems : ∀ l ds d, lists s !! l = Some ds → d ∈ ds → is_Some (dicts s !! d);
  wf_live : is_Some (lists s !! messages s);
  wf_convs : ∀ c, c ∈ conversations s → is_Some (lists s !! conv_messages c)
}.



End Session.

(** ** Concrete runs

    The scenarios of the specification (section 8) and a few others, used
    below to exercise the statements. *)

Module Examples.

Import WorkingSet Turn Timer Session.

Definition half : Q := 1 # 2.

Definition hello : list message :=
  [ {| role := "system"; content := default_system_prompt |};
    {| role := "user"; content := "Hello" |} ].

(** The aggregator streams ["Hel"], ["lo!"]. *)
Definition hel_lo : stream :=
  StreamChunk (text_chunk "Hel") (StreamChunk (text_chunk "lo!") StreamEnd).

(** The stream fails after one fragment. *)
Definition hel_then_raise : stream :=
  StreamChunk (text_chunk "Hel") (StreamRaise (Exception "connection reset")).

(** The stream closes with a chunk whose content is [None]. *)
Definition hel_then_none : stream :=
  StreamChunk (text_chunk "Hel") (StreamChunk none_chunk StreamEnd).

Definition hi_hey (m : string) : exn + string :=
  if bool_decide (m = "M1") then inr "Hi" else inr "Hey".

(** Scenario A: M1 answers "Hi", M2 answers "Hey". *)
Definition scenario_a : client :=
  {| generate_with_references := λ m _ _ _ _, hi_hey m;
     generate_with_references_stream := λ _ _ _ _ _, inr hel_lo |}.


(** Scenario D: the aggregator's stream fails after one fragment. *)
Definition scenario_d : client :=
  {| generate_with_references := λ m _ _ _ _, hi_hey m;
     generate_with_references_stream := λ _ _ _ _ _, inr hel_then_raise |}.

Definition none_at_the_end : client :=
  {| generate_with_references := λ m _ _ _ _, hi_hey m;
     generate_with_references_stream := λ _ _ _ _ _, inr hel_then_none |}.

Definition turn_a : turn :=
  run_turn forward_order scenario_a ["M1"; "M2"] "M3" half 2048 hello.

(** A clock that advances by one polling interval per reading, and one that
    is set back between the second and the third reading. *)
Definition steady_clock (k : nat) : Z := (1000 + 100 * Z.of_nat k)%Z.

Definition clock_set_back (k : nat) : Z :=
  match k with
  | 0%nat => 10%Z
  | 1%nat => 15%Z
  | _ => 12%Z
  end.

(** The controller starts the timer; the timer publishes twice. *)
Definition two_polls : list thread :=
  Controller :: replicate 7 TimerTask.

(** A whole turn: the timer publishes once while the controller works, sees
    the signal at its next check, and is joined. *)
Definition whole_turn : list thread :=
  Controller :: replicate 4 TimerTask
    ++ replicate (length (events turn_a) - 2) Controller
    ++ [TimerTask; Controller].

(** Two threads on one cell: a writer and a reader, interleaved call by
    call. *)
Definition writer_reader : list (list SharedValue.op) :=
  [ [SharedValue.CallSet 5; SharedValue.CallSet 7];
    [SharedValue.CallGet; SharedValue.CallGet] ].

Definition call_by_call : list nat :=
  [0; 0; 0; 1; 1; 1; 0; 0; 0; 1; 1; 1]%nat.



End Examples.

(** ** bot.py 172-187: the sidebar's model widgets

<<
    model = st.selectbox("Main model (aggregator model)",
                         default_reference_models, index=0)
    ...
    for i, ref_model in enumerate(default_reference_models):
        if st.checkbox(ref_model, value=(ref_model in st.session_state.selected_models)):
            if ref_model not in st.session_state.selected_models:
                st.session_state.selected_models.append(ref_model)
        else:
            if ref_model in st.session_state.selected_models:
                st.session_state.selected_models.remove(ref_model)
>>
    [checked m] is what the checkbox labelled [m] returns in this run of the
    script: the state of the widget, which the user may have changed. *)

Module Sidebar.

Import Session.

(** [options[choice]]: the option the select box returns. *)
Definition selectbox (options : list string) (choice : nat) : option string :=
  options !! choice.

(** [xs.remove(x)]: the first occurrence goes; the loop calls it only when
    [x in xs]. *)
Fixpoint list_remove (x : string) (xs : list string) : list string :=
  match xs with
  | [] => []
  | y :: ys => if decide (y = x) then ys else y :: list_remove x ys
  end.

(** The body of the loop for one [ref_model]. *)
Definition checkbox_step (checked : string → bool) (selected_models : list string)
    (ref_model : string) : list string :=
  if checked ref_model then
    if decide (ref_model ∈ selected_models) then selected_models
    else selected_models ++ [ref_model]
  else
    if decide (ref_model ∈ selected_models) then list_remove ref_model selected_models
    else selected_models.

(** The loop, over any list of labels. *)
Definition checkbox_loop (checked : string → bool) (labels : list string)
    (selected_models : list string) : list string :=
  foldl (checkbox_step checked) selected_models labels.

Definition reference_models_sidebar (checked : string → bool)
    (selected_models : list string) : list string :=
  checkbox_loop checked default_reference_models selected_models.

(** How many times [x] occurs in a list. *)
Fixpoint occurrences (x : string) (xs : list string) : nat :=
  match xs with
  | [] => 0
  | y :: ys => (if decide (y = x) then 1 else 0) + occurrences x ys
  end.

End Sidebar.

(** ** bot.py 192-208, 229-238, 302: what the user can do to the session *)

Module Ui.

Import Turn Session.

Inductive action :=
  | Update (user_prompt : string)    (* "Update System Instructions" *)
  | StartNew                         (* "Start New Conversation" *)
  | Select (idx : nat)               (* a button of "Previous Conversations" *)
  | Ask (prompt : string)            (* the chat input *)
  | Answer (full_response : string). (* a turn completes *)

Definition act (a : action) (s : session) : option session :=
  match a with
  | Update user_prompt => update_system_instructions user_prompt s
  | StartNew => start_new_conversation s
  | Select idx => select_conversation idx s
  | Ask prompt => chat_input prompt s
  | Answer full_response => append_assistant full_response s
  end.

Fixpoint acts (script : list action) (s : session) : option session :=
  match script with
  | [] => Some s
  | a :: script' => act a s ≫= acts script'
  end.

(** The script only draws a button for a conversation that exists. *)
Definition offered (a : action) (s : session) : Prop :=
  match a with
  | Select idx => (idx < length (conversations s))%nat
  | _ => True
  end.

(** The list object [l] starts with a system message. *)
Definition starts_with_system (s : session) (l : loc) : Prop :=
  ∃ d ds m, lists s !! l = Some (d :: ds) ∧ dicts s !! d = Some m ∧
            role m = "system".

(** The store is well formed, and the live conversation and every saved one
    start with a system message. *)
Record ok (s : session) : Prop := {
  ok_wf : wf s;
  ok_live : starts_with_system s (messages s);
  ok_convs : ∀ c, c ∈ conversations s → starts_with_system s (conv_messages c)
}.

(** [s'] continues [s]: every list keeps its first element and every dict
    its role. *)
Definition continues (s s' : session) : Prop :=
  (∀ l d ds, lists s !! l = Some (d :: ds) →
             ∃ ds', lists s' !! l = Some (d :: ds')) ∧
  (∀ d m, dicts s !! d = Some m →
          ∃ m', dicts s' !! d = Some m' ∧ role m' = role m).

End Ui.

(** ** bot.py 292-310: what the page shows during a turn *)

Module Render.

Import Turn.

(** The texts passed to [message_placeholder.markdown] while the stream is
    read, the text rendered at its end, and the error notices. *)
Definition partial_texts (log : list event) : list string :=
  omap (λ e, match e with Partial text => Some text | _ => None end) log.



(** The values [full_response] takes as the fragments [fs] are added to
    [acc], one after the other. *)
Fixpoint running (acc : string) (fs : list string) : list string :=
  match fs with
  | [] => []
  | f :: fs' => (acc +:+ f) :: running (acc +:+ f) fs'
  end.

(** The fragments of the chunks the loop gets through: those before the
    first chunk without text, or all of them. *)
Fixpoint consumed (s : stream) : list string :=
  match s with
  | StreamChunk ch rest =>
      match chunk_text ch with
      | Some f => f :: consumed rest
      | None => []
      end
  | StreamEnd | StreamRaise _ => []
  end.

End Render.

(** ** Invariants of the two thread models, used further down *)

Module Invariants.

Import Turn Timer.

(** The timer has returned only if the signal was given; and what the
    controller has displayed is below what the cell holds. *)
Record signal_inv (s : state) : Prop := {
  si_done : timer s = Done → stop_event s = true
}.

Record display_inv (s : state) : Prop := {
  di_from : ∀ v, v ∈ shown s → v = 0%Z ∨ v ∈ written s
}.

Record display_order (s : state) : Prop := {
  do_cur : (0 ≤ SharedValue.value (elapsed_time s))%Z;
  do_le : ∀ v, v ∈ shown s → (0 ≤ v ≤ SharedValue.value (elapsed_time s))%Z;
  do_sorted : ∀ i j v w, (i ≤ j)%nat →
                shown s !! i = Some v → shown s !! j = Some w → (v ≤ w)%Z
}.

(** A controller that never gives the signal. *)
Record unsignalled (s : state) : Prop := {
  un_program : StopSet ∉ controller s;
  un_stop : stop_event s = false;
  un_timer : timer s ≠ Done;
  un_join : CtlDid Join ∉ history s
}.

(** The lock of the cell is held by one of the threads of the machine. *)
Definition owner_exists (m : SharedValue.machine) : Prop :=
  ∀ i, SharedValue.lock (SharedValue.cell m) = Some i →
       is_Some (SharedValue.threads m !! i).

End Invariants.

(** ** bot.py 47-77: the user's data on disk

<<
  def create_user_folder(email):
      user_folder = os.path.join("user_data", email)
      os.makedirs(user_folder, exist_ok=True)
      return user_folder
>>
    The file system is a map from the path of a file to the JSON value it
    holds; creating the folder always succeeds.  [os_path_join] is
    [os.path.join], which belongs to the platform and is left open. *)

Module Storage.

Import Turn Session.

(** What [json.dump] writes for an entry of [conversations]: the message
    dicts by value. *)
Record saved_conversation := SavedConversation {
  saved_first_question : string;
  saved_messages : list message
}.

(** The JSON object of [session_data.json].  [load_user_data] reads every
    key with [user_data.get(key, default)]: a key may be missing. *)
Record user_data := UserData {
  ud_messages : option (list message);
  ud_user_system_prompt : option string;
  ud_selected_models : option (list string);
  ud_conversations : option (list saved_conversation)
}.

Abbreviation files := (gmap string user_data).

(** [json.dump(user_data, f, default=str)]: lists and dicts are written by
    value, read through the store. *)
Definition dump_conversation (s : session) (c : conversation)
    : option saved_conversation :=
  ms ← read_list s (conv_messages c);
  Some {| saved_first_question := first_question c; saved_messages := ms |}.

Definition dump (s : session) : option user_data :=
  ms ← read_list s (messages s);
  cs ← mapM (dump_conversation s) (conversations s);
  Some {| ud_messages := Some ms;
          ud_user_system_prompt := Some (user_system_prompt s);
          ud_selected_models := Some (selected_models s);
          ud_conversations := Some cs |}.

(** [json.load] builds new objects: the dicts of a list of messages, one
    after the other from the identity [n] on. *)
Fixpoint new_dicts (ms : list message) (n : loc) (ds : gmap loc message)
    : gmap loc message :=
  match ms with
  | [] => ds
  | m :: ms' => new_dicts ms' (S n) (<[ n := m ]> ds)
  end.

(** A new list object holding new dicts with the values [ms]. *)
Definition new_list (ms : list message) (s : session) : loc * session :=
  let n := next s in
  let l := (n + length ms)%nat in
  (l, {| dicts := new_dicts ms n (dicts s);
         lists := <[ l := seq n (length ms) ]> (lists s);
         next := S l;
         messages := messages s;
         user_system_prompt := user_system_prompt s;
         selected_models := selected_models s;
         conversations := conversations s |}).

(** The list under the key ["conversations"], loaded. *)
Fixpoint new_conversations (cs : list saved_conversation) (s : session)
    : list conversation * session :=
  match cs with
  | [] => ([], s)
  | c :: cs' =>
      let '(l, s1) := new_list (saved_messages c) s in
      let '(convs, s2) := new_conversations cs' s1 in
      ({| first_question := saved_first_question c; conv_messages := l |}
         :: convs, s2)
  end.

Section Files.

Variable os_path_join : string → string → string.

Definition create_user_folder (email : string) : string :=
  os_path_join "user_data" email.

Definition session_file (email : string) : string :=
  os_path_join (create_user_folder email) "session_data.json".

(** bot.py 53-62.  [None]: a list of the session cannot be read. *)
Definition save_user_data (email : string) (s : session) (fs : files)
    : option files :=
  user_data ← dump s;
  Some (<[ session_file email := user_data ]> fs).

(** bot.py 64-77 *)
Definition load_user_data (email : string) (fs : files) (s : session)
    : session :=
  match fs !! session_file email with
  | Some user_data =>
      let '(l, s1) :=
        new_list (default [{| role := "system"; content := default_system_prompt |}]
                          (ud_messages user_data)) s in
      let '(convs, s2) :=
        new_conversations (default [] (ud_conversations user_data)) s1 in
      {| dicts := dicts s2; lists := lists s2; next := next s2;
         messages := l;
         user_system_prompt :=
           default EmptyString (ud_user_system_prompt user_data);
         selected_models :=
           default default_reference_models (ud_selected_models user_data);
         conversations := convs |}
  | None =>                                        (* FileNotFoundError *)
      let '(l, s1) :=
        new_list [{| role := "system"; content := default_system_prompt |}] s in
      {| dicts := dicts s1; lists := lists s1; next := next s1;
         messages := l;
         user_system_prompt := EmptyString;
         selected_models := default_reference_models;
         conversations := [] |}
  end.

(** The file's content as [load_user_data] reads it, key by key. *)
Definition loaded_messages (email : string) (fs : files) : list message :=
  default [{| role := "system"; content := default_system_prompt |}]
          (fs !! session_file email ≫= ud_messages).

Definition loaded_conversations (email : string) (fs : files)
    : list saved_conversation :=
  default [] (fs !! session_file email ≫= ud_conversations).

End Files.

(** The list object [l] and its dicts were made between [lo] and [hi]. *)
Definition span (lo hi : loc) (s : session) (l : loc) : Prop :=
  ∃ ds, lists s !! l = Some ds ∧ (lo ≤ l < hi)%nat ∧
        ∀ d, d ∈ ds → (lo ≤ d < hi)%nat.

(** [s'] has every object of [s], unchanged. *)
Definition extends (s s' : session) : Prop :=
  (next s ≤ next s')%nat ∧
  (∀ l, (l < next s)%nat → lists s' !! l = lists s !! l) ∧
  (∀ d, (d < next s)%nat → dicts s' !! d = dicts s !! d).

End Storage.

(** ** Further concrete sessions, turns and schedules *)

Module MoreExamples.

Import Turn Timer Session Ui.

(** Joining two path components with a slash. *)
Definition slash_join (a b : string) : string := a +:+ "/" +:+ b.

(** Only the box of one listed model is checked. *)
Definition only_qwen15 (m : string) : bool :=
  bool_decide (m = "Qwen/Qwen1.5-72B").

(** A controller that starts the timer, reads the cell and joins the timer
    without giving the signal; and a schedule for it. *)
Definition no_signal : list event := [ThreadStart; ElapsedGet; Join].

Definition impatient : list thread :=
  Controller :: replicate 5 TimerTask ++ [Controller].

(** A question and its answer, new instructions, a new conversation with a
    question of its own, and back to the first conversation. *)
Definition busy_session : list action :=
  [Ask "q1"; Answer "a1"; Update "be brief"; StartNew; Ask "q2"; Select 0].

Definition turn_d : turn :=
  run_turn forward_order Examples.scenario_d ["M1"; "M2"] "M3"
           Examples.half 2048 Examples.hello.

End MoreExamples.

(** * Properties *)

(** ** The model selection logic *)

Module WorkingSetFacts.

Import WorkingSet.

Lemma py_set_singleton (a : string) : py_set [a] = {[a]}.
Proof. unfold py_set. simpl. apply union_empty_r_L. Qed.

Lemma elem_of_list_of_set (o : set_order) (X : gset string) (x : string) :
  x ∈ o X ↔ x ∈ X.
Proof. rewrite (list_of_set_perm o X). apply elem_of_elements. Qed.

Lemma list_of_set_NoDup (o : set_order) (X : gset string) : NoDup (o X).
Proof. rewrite (list_of_set_perm o X). apply NoDup_elements. Qed.

Lemma py_set_list_of_set (o : set_order) (X : gset string) : py_set (o X) = X.
Proof.
  apply set_eq. intros x. unfold py_set.
  rewrite elem_of_list_to_set. apply elem_of_list_of_set.
Qed.

Lemma list_of_set_nil (o : set_order) (X : gset string) : o X = [] ↔ X = ∅.
Proof.
  split.
  - intros E. rewrite <- (py_set_list_of_set o X), E. reflexivity.
  - intros ->. apply Permutation_nil_r.
    rewrite (list_of_set_perm o ∅), elements_empty. reflexivity.
Qed.

(** The two branches of the selection. *)
Lemma working_models_other (o : set_order) (R : list string) (a : string) :
  py_set R ∖ {[a]} ≠ ∅ → working_models o R a = o (py_set R ∖ {[a]}).
Proof.
  intros Hne. unfold working_models. rewrite py_set_singleton.
  destruct (o (py_set R ∖ {[a]})) eqn:E; [|reflexivity].
  apply list_of_set_nil in E. contradiction.
Qed.

Lemma working_models_fallback (o : set_order) (R : list string) (a : string) :
  py_set R ∖ {[a]} = ∅ → working_models o R a = [a].
Proof.
  intros He. unfold working_models. rewrite py_set_singleton, He.
  assert (o ∅ = []) as -> by (apply list_of_set_nil; reflexivity).
  reflexivity.
Qed.

Lemma working_models_NoDup (o : set_order) (R : list string) (a : string) :
  NoDup (working_models o R a).
Proof.
  destruct (decide (py_set R ∖ {[a]} = ∅)) as [He|Hne].
  - rewrite working_models_fallback by done. apply NoDup_singleton.
  - rewrite working_models_other by done. apply list_of_set_NoDup.
Qed.

Lemma working_models_nonempty (o : set_order) (R : list string) (a : string) :
  working_models o R a ≠ [].
Proof.
  destruct (decide (py_set R ∖ {[a]} = ∅)) as [He|Hne].
  - rewrite working_models_fallback by done. discriminate.
  - rewrite working_models_other by done. intros E.
    apply list_of_set_nil in E. contradiction.
Qed.

(** The working lists of two runs hold the same models. *)
Lemma working_models_perm (o1 o2 : set_order) (R1 R2 : list string) (a : string) :
  py_set R1 = py_set R2 →
  working_models o1 R1 a ≡ₚ working_models o2 R2 a.
Proof.
  intros HR.
  destruct (decide (py_set R1 ∖ {[a]} = ∅)) as [He|Hne].
  - rewrite !working_models_fallback by (rewrite <- ?HR; done). reflexivity.
  - rewrite !working_models_other by (rewrite <- ?HR; done).
    rewrite <- HR, !list_of_set_perm. reflexivity.
Qed.




End WorkingSetFacts.

(** ** The shared cell *)

Module SharedValueFacts.

Import SharedValue.

Lemma set_unlocked (self : t) (v : Z) :
  lock self = None → set self v = Some {| value := v; lock := None |}.
Proof. intros H. unfold set. simpl. rewrite H. reflexivity. Qed.

Lemma get_unlocked (self : t) :
  lock self = None → get self = Some (value self).
Proof. intros H. unfold get. simpl. rewrite H. reflexivity. Qed.

Lemma set_all_unlocked (vs : list Z) (self : t) :
  lock self = None →
  set_all self vs = Some {| value := default (value self) (last vs); lock := None |}.
Proof.
  revert self. induction vs as [|v vs IH]; intros self H; simpl.
  - destruct self; simpl in *; subst; reflexivity.
  - rewrite set_unlocked by done. simpl. rewrite IH by reflexivity. simpl.
    destruct vs as [|w vs]; [reflexivity|].
    change (last (v :: w :: vs)) with (last (w :: vs)).
    destruct (last (w :: vs)) as [x|] eqn:E; [reflexivity|].
    apply last_None in E. discriminate.
Qed.

(** *** The trace as a register *)

Lemma last_written_app (v : Z) (t1 t2 : list access) :
  last_written v (t1 ++ t2) = last_written (last_written v t1) t2.
Proof.
  revert v. induction t1 as [|[i w o|i r o] t1 IH]; intros v; simpl; auto.
Qed.

Lemma reads_latest_app (v : Z) (t1 t2 : list access) :
  reads_latest v (t1 ++ t2) ↔
  reads_latest v t1 ∧ reads_latest (last_written v t1) t2.
Proof.
  revert v. induction t1 as [|[i w o|i r o] t1 IH]; intros v; simpl.
  - tauto.
  - apply IH.
  - rewrite IH. tauto.
Qed.

#[local] Hint Constructors shape : core.

Lemma shape_spawn (calls : list op) : shape false (code (spawn calls)).
Proof.
  unfold spawn. simpl.
  induction calls as [|[v|] calls IH]; simpl; auto.
Qed.

Lemma shape_critical (b : bool) (th : thread) :
  shape b (code th) → in_critical th = true → b = true.
Proof.
  unfold in_critical. intros Hs. inversion Hs; simpl; congruence.
Qed.

Lemma inv_boot (v0 : Z) (programs : list (list op)) : inv v0 (boot v0 programs).
Proof.
  split; simpl; auto.
  intros i th Hth. rewrite list_lookup_fmap in Hth.
  destruct (programs !! i) as [calls|]; simplify_eq/=.
  apply shape_spawn.
Qed.

Lemma inv_step (v0 : Z) (i : tid) (m m' : machine) :
  inv v0 m → step i m = Some m' → inv v0 m'.
Proof.
  intros [Hs Ho Hr Hv]. unfold step.
  destruct (threads m !! i) as [th|] eqn:Hth; [|discriminate].
  destruct (code th) as [|ins rest] eqn:Hcode; [discriminate|].
  pose proof (Hs _ _ Hth) as Hi. rewrite Hcode in Hi.
  pose proof (lookup_lt_Some _ _ _ Hth) as Hlt.
  destruct ins; simpl.
  - (* Acquire *)
    destruct (lock (cell m)) as [k|] eqn:Hl; [discriminate|].
    intros [= <-]. split; simpl; rewrite ?app_nil_r; auto.
    intros j thj Hj. destruct (decide (j = i)) as [->|Hne].
    + rewrite list_lookup_insert_eq in Hj by done. simplify_eq/=.
      rewrite bool_decide_eq_true_2 by done.
      inversion Hi; subst; auto.
    + rewrite list_lookup_insert_ne in Hj by done.
      specialize (Hs _ _ Hj). rewrite bool_decide_eq_false_2 in Hs by done.
      rewrite bool_decide_eq_false_2 by congruence. assumption.
  - (* Store *)
    intros [= <-].
    assert (lock (cell m) = Some i) as Hl.
    { inversion Hi as [| | |? ? ? Hb| |]; subst.
      symmetry in Hb. apply bool_decide_eq_true_1 in Hb. assumption. }
    split; simpl.
    + intros j thj Hj. destruct (decide (j = i)) as [->|Hne].
      * rewrite list_lookup_insert_eq in Hj by done. simplify_eq/=.
        rewrite bool_decide_eq_true_2 by done.
        inversion Hi; subst; auto.
      * rewrite list_lookup_insert_ne in Hj by done. auto.
    + apply Forall_app. split; [assumption|].
      constructor; [simpl; assumption | constructor].
    + apply reads_latest_app. split; [assumption | exact I].
    + rewrite last_written_app. reflexivity.
  - (* Load *)
    intros [= <-].
    assert (lock (cell m) = Some i) as Hl.
    { inversion Hi as [| | | |? ? Hb|]; subst.
      symmetry in Hb. apply bool_decide_eq_true_1 in Hb. assumption. }
    split; simpl.
    + intros j thj Hj. destruct (decide (j = i)) as [->|Hne].
      * rewrite list_lookup_insert_eq in Hj by done. simplify_eq/=.
        rewrite bool_decide_eq_true_2 by done.
        inversion Hi; subst; auto.
      * rewrite list_lookup_insert_ne in Hj by done. auto.
    + apply Forall_app. split; [assumption|].
      constructor; [simpl; assumption | constructor].
    + apply reads_latest_app. split; [assumption|]. simpl. auto.
    + rewrite last_written_app. simpl. assumption.
  - (* Release *)
    intros [= <-].
    assert (lock (cell m) = Some i) as Hl.
    { inversion Hi as [| | | | |? ? Hb]; subst.
      symmetry in Hb. apply bool_decide_eq_true_1 in Hb. assumption. }
    split; simpl; rewrite ?app_nil_r; auto.
    intros j thj Hj. rewrite ?bool_decide_eq_false_2 by done.
    destruct (decide (j = i)) as [->|Hne].
    + rewrite list_lookup_insert_eq in Hj by done. simplify_eq/=.
      inversion Hi; subst; auto.
    + rewrite list_lookup_insert_ne in Hj by done.
      specialize (Hs _ _ Hj).
      rewrite bool_decide_eq_false_2 in Hs by congruence. assumption.
Qed.

Lemma inv_run (v0 : Z) (schedule : list tid) (m m' : machine) :
  inv v0 m → run schedule m = Some m' → inv v0 m'.
Proof.
  revert m. induction schedule as [|i schedule IH]; intros m Hinv; simpl.
  - intros [= <-]. assumption.
  - destruct (step i m) as [m1|] eqn:Hstep; [|discriminate]. simpl.
    apply IH. eapply inv_step; eassumption.
Qed.

Lemma inv_exclusion (v0 : Z) (m : machine) (i j : tid) (thi thj : thread) :
  inv v0 m →
  threads m !! i = Some thi → threads m !! j = Some thj →
  in_critical thi = true → in_critical thj = true → i = j.
Proof.
  intros [Hs _ _ _] Hi Hj Ci Cj.
  pose proof (shape_critical _ _ (Hs _ _ Hi) Ci) as Bi.
  pose proof (shape_critical _ _ (Hs _ _ Hj) Cj) as Bj.
  apply bool_decide_eq_true_1 in Bi. apply bool_decide_eq_true_1 in Bj.
  congruence.
Qed.

(** C8.  [get] returns the value of the most recent [set], or the initial
    value when there was none; and with any number of threads calling [set]
    and [get] in any interleaving, every access to the value is made by the
    thread that holds the lock, two threads are never inside a call at the
    same time, and every read sees the latest write. *)
Theorem get_returns_latest_set_under_lock :
  (∀ v0 vs, set_all (__init__ v0) vs ≫= get = Some (default v0 (last vs))) ∧
  (∀ v0 programs schedule m,
     run schedule (boot v0 programs) = Some m →
     Forall (λ a, owner_at a = Some (actor a)) (trace m) ∧
     (∀ i j thi thj,
        threads m !! i = Some thi → threads m !! j = Some thj →
        in_critical thi = true → in_critical thj = true → i = j) ∧
     reads_latest v0 (trace m)).
Proof.
  split.
  - intros v0 vs. rewrite set_all_unlocked by reflexivity. simpl.
    apply get_unlocked. reflexivity.
  - intros v0 programs schedule m Hrun.
    pose proof (inv_run v0 schedule _ _ (inv_boot v0 programs) Hrun) as Hinv.
    split; [apply Hinv|]. split; [|apply Hinv].
    intros i j thi thj. apply (inv_exclusion v0); assumption.
Qed.

Lemma get_returns_latest_set_under_lock_witness :
  ∃ m, run Examples.call_by_call (boot 0 Examples.writer_reader) = Some m ∧
       reads_latest 0 (trace m).
Proof.
  assert (∃ m, run Examples.call_by_call (boot 0 Examples.writer_reader) = Some m)
    as [m Hm] by (vm_compute; eauto).
  exists m. split; [exact Hm|].
  apply (proj2 get_returns_latest_set_under_lock 0%Z Examples.writer_reader
           Examples.call_by_call m Hm).
Defined.

End SharedValueFacts.

(** ** The turn *)

Module TurnFacts.

Import WorkingSet WorkingSetFacts Turn.

Lemma append_cons (a : ascii) (s t : string) :
  String a s +:+ t = String a (s +:+ t).
Proof. reflexivity. Qed.

Lemma append_nil_r (s : string) : s +:+ EmptyString = s.
Proof.
  induction s as [|a s IH]; [reflexivity|]. rewrite append_cons, IH. reflexivity.
Qed.

Lemma append_assoc (s1 s2 s3 : string) : (s1 +:+ s2) +:+ s3 = s1 +:+ s2 +:+ s3.
Proof.
  induction s1 as [|a s1 IH]; [reflexivity|]. rewrite !append_cons, IH. reflexivity.
Qed.

(** Membership in the log of a turn, case by case. *)
Ltac mem H :=
  repeat first
    [ apply elem_of_nil in H; contradiction
    | apply elem_of_cons in H as [H|H]; [try discriminate H|]
    | apply elem_of_app in H as [H|H] ].

Ltac show_mem :=
  repeat (progress (rewrite ?elem_of_cons, ?elem_of_app)); intuition.

(** *** [collect] *)

Lemma collect_inr (rs : list (exn + string)) (os : list string) :
  collect rs = inr os ↔ rs = inr <$> os.
Proof.
  revert os. induction rs as [|[e|o] rs IH]; intros os; simpl.
  - destruct os; simpl; split; congruence.
  - destruct os; simpl; split; congruence.
  - destruct (collect rs) as [e|os'] eqn:E.
    + split; [discriminate|]. destruct os as [|o' os]; simpl; [discriminate|].
      intros [= -> Hrs]. apply IH in Hrs. discriminate.
    + split.
      * intros [= <-]. simpl. f_equal. apply IH. reflexivity.
      * destruct os as [|o' os]; simpl; [discriminate|].
        intros [= -> Hrs]. apply IH in Hrs. congruence.
Qed.

Lemma collect_inl (rs : list (exn + string)) :
  (∃ e, collect rs = inl e) ↔ (∃ e, inl e ∈ rs).
Proof.
  induction rs as [|[e|o] rs IH]; simpl.
  - split; intros [e H]; [discriminate | inversion H].
  - split; intros _; exists e; [left | reflexivity].
  - destruct (collect rs) as [e|os] eqn:E.
    + split; [|intros _; eauto].
      intros _. destruct (proj1 IH) as [e' He']; [eauto|].
      exists e'. right. assumption.
    + split; [intros [e H]; discriminate|].
      intros [e He]. apply elem_of_cons in He as [He|He]; [discriminate|].
      destruct (proj2 IH) as [e' He']; [eauto | discriminate].
Qed.

(** *** The dataset *)

Lemma from_dict_rows_const (messages : list message) (r : refs) (ms : list string) :
  from_dict_rows ((λ _, messages) <$> seq 0 (length ms))
                 ((λ _, r) <$> seq 0 (length ms)) ms
  = (λ m, {| row_instruction := messages; row_references := r; row_model := m |}) <$> ms.
Proof.
  generalize 0. induction ms as [|m ms IH]; intros k; simpl; [reflexivity|].
  f_equal. apply IH.
Qed.

Section Workers.

Variables (c : client) (temperature : Q) (max_tokens : Z).

Let worker (item : row) : M string := process_fn c item temperature max_tokens.

Let request (item : row) : event :=
  RefCall (row_model item) (row_instruction item) (row_references item)
    temperature max_tokens.

Let answer (item : row) : exn + string :=
  generate_with_references c (row_model item) (row_instruction item)
    (row_references item) temperature max_tokens.

Lemma process_fn_unfold (item : row) :
  worker item =
  match answer item with
  | inl e => ([request item], inl e)
  | inr o => ([request item; StWrite ("Finished querying " +:+ row_model item +:+ ".")],
              inr o)
  end.
Proof.
  unfold worker, answer, request, process_fn, bind, emit, lift, ret.
  destruct (generate_with_references _ _ _ _ _ _); reflexivity.
Qed.

Lemma dataset_map_requests (eval_set : list row) :
  List.filter is_ref_call (dataset_map worker eval_set).1 = request <$> eval_set.
Proof.
  induction eval_set as [|item eval_set IH]; simpl; [reflexivity|].
  rewrite process_fn_unfold.
  destruct (dataset_map worker eval_set) as [l2 r2]. simpl in IH.
  destruct (answer item); simpl; rewrite IH; reflexivity.
Qed.

Lemma dataset_map_worker_events (eval_set : list row) :
  Forall (λ e, worker_event e = true) (dataset_map worker eval_set).1.
Proof.
  induction eval_set as [|item eval_set IH]; simpl; [constructor|].
  rewrite process_fn_unfold.
  destruct (dataset_map worker eval_set) as [l2 r2]. simpl in IH.
  destruct (answer item); simpl; repeat constructor; assumption.
Qed.

Lemma dataset_map_outputs (eval_set : list row) :
  sum_map id (fmap output) (dataset_map worker eval_set).2
  = collect (answer <$> eval_set).
Proof.
  induction eval_set as [|item eval_set IH]; [reflexivity|].
  rewrite fmap_cons. cbn [dataset_map collect]. rewrite process_fn_unfold.
  destruct (dataset_map worker eval_set) as [l2 r2]. cbn [snd] in IH.
  rewrite <- IH.
  destruct (answer item) as [e|o]; [reflexivity|].
  destruct r2; reflexivity.
Qed.

End Workers.

(** *** The accumulation loop *)

Lemma consume_chunk (ch : chunk) (rest : stream) (acc : string) :
  consume (StreamChunk ch rest) acc =
  match chunk_content ch with
  | inl e => ([], inl e)
  | inr None => ([], str_iadd acc None)
  | inr (Some f) =>
      (Partial ((acc +:+ f) +:+ cursor) :: ElapsedGet :: (consume rest (acc +:+ f)).1,
       (consume rest (acc +:+ f)).2)
  end.
Proof.
  cbn [consume]. unfold bind, lift, emit.
  destruct (chunk_content ch) as [e|[f|]]; cbn; [reflexivity| |reflexivity].
  destruct (consume rest (acc +:+ f)) as [l r]. destruct r; reflexivity.
Qed.

Lemma fragments_chunk (ch : chunk) (rest : stream) :
  fragments (StreamChunk ch rest) =
  match chunk_text ch with
  | Some f => f :: fragments rest
  | None => fragments rest
  end.
Proof. reflexivity. Qed.

Lemma consume_render_events (s : stream) (acc : string) :
  Forall (λ e, render_event e = true) (consume s acc).1.
Proof.
  revert acc. induction s as [|ch rest IH|e]; intros acc;
    [constructor| |constructor].
  rewrite consume_chunk.
  destruct (chunk_content ch) as [e|[f|]]; cbn; repeat constructor. apply IH.
Qed.

(** When the loop ends normally, every chunk carried text, the stream did not
    raise, and the accumulator holds the texts in order. *)
Lemma consume_inr (s : stream) (acc full : string) :
  (consume s acc).2 = inr full →
  raises s = None ∧
  Forall2 (λ ch f, chunk_content ch = inr (Some f)) (chunks s) (fragments s) ∧
  full = acc +:+ join (fragments s).
Proof.
  revert acc. induction s as [|ch rest IH|e]; intros acc.
  - cbn. intros [= <-]. rewrite append_nil_r. repeat split. constructor.
  - rewrite consume_chunk, fragments_chunk. unfold chunk_text.
    destruct (chunk_content ch) as [e|[f|]] eqn:E; cbn; try discriminate.
    intros H. apply IH in H as (Hr & Hf & ->).
    split; [assumption|]. split; [constructor; assumption|].
    apply append_assoc.
  - cbn. discriminate.
Qed.

Lemma consume_complete (s : stream) (acc : string) :
  raises s = None →
  Forall (λ ch, is_Some (chunk_text ch)) (chunks s) →
  (consume s acc).2 = inr (acc +:+ join (fragments s)).
Proof.
  revert acc. induction s as [|ch rest IH|e]; intros acc Hr Hc.
  - cbn. rewrite append_nil_r. reflexivity.
  - rewrite consume_chunk, fragments_chunk. cbn in Hr, Hc.
    apply Forall_cons in Hc as [[f Hf] Hc]. rewrite Hf.
    unfold chunk_text in Hf.
    destruct (chunk_content ch) as [e|[f'|]]; simplify_eq/=.
    rewrite IH by assumption. cbn. rewrite append_assoc. reflexivity.
  - discriminate.
Qed.


Lemma consume_none (s : stream) (acc : string) :
  (∃ ch, ch ∈ chunks s ∧ chunk_content ch = inr None) →
  ∃ e, (consume s acc).2 = inl e.
Proof.
  revert acc. induction s as [|ch rest IH|e0]; intros acc (ch0 & Hin & Hc).
  - inversion Hin.
  - rewrite consume_chunk. cbn in Hin.
    destruct (chunk_content ch) as [e1|[f|]] eqn:E; cbn; eauto.
    apply elem_of_cons in Hin as [->|Hin]; [congruence|].
    apply IH. eauto.
  - inversion Hin.
Qed.

Lemma consume_none_first (cs : list chunk) (ch : chunk) (rest : stream)
    (acc : string) :
  Forall (λ c, is_Some (chunk_text c)) cs →
  chunk_content ch = inr None →
  ∃ msg, (consume (stream_of cs (StreamChunk ch rest)) acc).2 = inl (TypeError msg).
Proof.
  intros Hcs Hch. revert acc.
  induction Hcs as [|c cs [f Hf] _ IH]; intros acc; cbn [stream_of foldr].
  - rewrite consume_chunk, Hch. cbn. eauto.
  - fold (stream_of cs (StreamChunk ch rest)). rewrite consume_chunk.
    unfold chunk_text in Hf.
    destruct (chunk_content c) as [e|[f'|]]; simplify_eq/=. apply IH.
Qed.

(** *** The body of [try], flattened *)

Section Run.

Variables (o : set_order) (c : client) (R : list string) (a : string)
  (temperature : Q) (max_tokens : Z) (messages : list message).

Local Abbreviation answers := (answers o c R a temperature max_tokens messages).
Local Abbreviation reference_requests :=
  (reference_requests o R a temperature max_tokens messages).
Local Abbreviation workers_log :=
  (workers_log o R a temperature max_tokens messages).
Local Abbreviation before_stream :=
  (before_stream a temperature max_tokens messages).
Local Abbreviation run_view := (run_view o c R a temperature max_tokens messages).

Lemma try_body_unfold (d : data) (eval_set : list row) :
  try_body c a temperature max_tokens messages d eval_set =
  let w := dataset_map (λ item, process_fn c item temperature max_tokens) eval_set in
  match w.2 with
  | inl e => (Progress 0 1 :: w.1, inl e)
  | inr mapped =>
      let refs := RefsList (output <$> mapped) in
      let pre := Progress 0 1 :: w.1
                   ++ [Progress 1 1; ElapsedGet; aggregating;
                       AggCall a messages refs temperature max_tokens] in
      match generate_with_references_stream c a messages refs temperature max_tokens with
      | inl e => (pre, inl e)
      | inr s =>
          let k := consume s EmptyString in
          match k.2 with
          | inl e => (pre ++ k.1, inl e)
          | inr full =>
              (pre ++ k.1 ++ [Final full; TotalElapsed],
               inr (messages ++ [{| role := "assistant"; content := full |}]))
          end
      end
  end.
Proof.
  unfold try_body, rounds. cbn [seq for_in]. unfold round_body.
  cbn [ls_eval_set ls_data].
  generalize (dataset_map (λ item, process_fn c item temperature max_tokens)
                eval_set).
  intros [l1 [e|mapped]]; unfold bind, emit, ret, raise, lift; cbn;
    [reflexivity|].
  destruct (generate_with_references_stream _ _ _ _ _ _) as [e|s]; cbn.
  - rewrite !app_nil_r. rewrite <- !app_assoc. reflexivity.
  - destruct (consume s EmptyString) as [l2 [e|full]]; cbn.
    + rewrite !app_nil_r. rewrite <- !app_assoc. reflexivity.
    + rewrite !app_nil_r. rewrite <- !app_assoc. reflexivity.
Qed.

Lemma run_turn_view :
  run_view (run_turn o c R a temperature max_tokens messages).
Proof.
  unfold run_turn. rewrite try_body_unfold. unfold from_dict. cbn [instruction references model].
  rewrite from_dict_rows_const.
  set (rows := _ <$> working_models o R a).
  pose proof (dataset_map_requests c temperature max_tokens rows) as Hreq.
  pose proof (dataset_map_worker_events c temperature max_tokens rows) as Hev.
  pose proof (dataset_map_outputs c temperature max_tokens rows) as Hout.
  assert (workers_log (dataset_map (λ item, process_fn c item temperature max_tokens) rows).1) as Hlog.
  { split; [|assumption]. rewrite Hreq. unfold rows, reference_requests.
    rewrite <- list_fmap_compose. reflexivity. }
  assert (sum_map id (fmap output)
            (dataset_map (λ item, process_fn c item temperature max_tokens) rows).2
          = collect answers) as Hans.
  { rewrite Hout. unfold rows, answers. rewrite <- list_fmap_compose. reflexivity. }
  clear Hreq Hev Hout.
  destruct (dataset_map _ rows) as [l1 [e|mapped]]; cbn [fst snd] in *.
  - apply view_fan_out_failed; [assumption | symmetry; exact Hans].
  - cbn in Hans. symmetry in Hans. cbv zeta.
    destruct (generate_with_references_stream _ _ _ _ _ _) as [e|s] eqn:Hs.
    + eapply view_call_failed; eassumption.
    + destruct (consume s EmptyString) as [l2 [e|full]] eqn:Hc; cbn [fst snd].
      * replace l2 with (consume s EmptyString).1 by (rewrite Hc; reflexivity).
        eapply view_stream_failed; try eassumption. rewrite Hc. reflexivity.
      * replace l2 with (consume s EmptyString).1 by (rewrite Hc; reflexivity).
        eapply view_completed; try eassumption. rewrite Hc. reflexivity.
Qed.

Lemma not_in_workers (l1 : list event) (e : event) :
  workers_log l1 → worker_event e = false → e ∉ l1.
Proof.
  intros [_ Hall] He Hin. rewrite Forall_forall in Hall.
  apply Hall in Hin. congruence.
Qed.

Lemma not_in_render (s : stream) (acc : string) (e : event) :
  render_event e = false → e ∉ (consume s acc).1.
Proof.
  intros He Hin. pose proof (consume_render_events s acc) as Hall.
  rewrite Forall_forall in Hall. apply Hall in Hin. congruence.
Qed.

Lemma filter_workers (p : event → bool) (l1 : list event) :
  workers_log l1 → (∀ e, worker_event e = true → p e = is_ref_call e) →
  List.filter p l1 = reference_requests.
Proof.
  intros [<- Hall] Hp. induction Hall as [|e l He _ IH]; [reflexivity|].
  cbn [List.filter]. rewrite (Hp e He), IH. reflexivity.
Qed.

Lemma filter_none {A} (p : A → bool) (l : list A) :
  Forall (λ x, p x = false) l → List.filter p l = [].
Proof.
  induction 1 as [|x l Hx _ IH]; [reflexivity|]. cbn. rewrite Hx. exact IH.
Qed.

Lemma filter_render (p : event → bool) (s : stream) (acc : string) :
  (∀ e, render_event e = true → p e = false) →
  List.filter p (consume s acc).1 = [].
Proof.
  intros Hp. apply filter_none.
  eapply Forall_impl; [apply consume_render_events|]. exact Hp.
Qed.

Lemma filter_workers_none (p : event → bool) (l1 : list event) :
  workers_log l1 → (∀ e, worker_event e = true → p e = false) →
  List.filter p l1 = [].
Proof.
  intros [_ Hall] Hp. apply filter_none. eapply Forall_impl; eauto.
Qed.

(** The aggregator request of a turn: none when the fan-out failed, one
    carrying the collected outputs otherwise. *)
Lemma agg_calls_of_view (t : turn) :
  run_view t →
  List.filter is_agg_call (events t) =
  match collect answers with
  | inl _ => []
  | inr outs => [AggCall a messages (RefsList outs) temperature max_tokens]
  end.
Proof.
  assert (∀ e, worker_event e = true → is_agg_call e = false) as Hw
    by (intros []; cbn; congruence).
  assert (∀ e, render_event e = true → is_agg_call e = false) as Hr
    by (intros []; cbn; congruence).
  destruct 1 as [l1 e Hl Hc|l1 outs e Hl Hc Hs|l1 outs s e Hl Hc Hs Hk
                |l1 outs s full Hl Hc Hs Hk];
    rewrite Hc; unfold before_stream; cbn [try_except_finally events];
    rewrite ?app_comm_cons, ?List.filter_app; cbn [List.filter is_agg_call];
    rewrite ?(filter_workers_none _ _ Hl Hw), ?filter_render by exact Hr;
    reflexivity.
Qed.

Lemma agg_call_in_view (t : turn) (refs : refs) :
  run_view t →
  AggCall a messages refs temperature max_tokens ∈ events t →
  ∃ outs, collect answers = inr outs ∧ refs = RefsList outs.
Proof.
  intros Hv Hin.
  assert (AggCall a messages refs temperature max_tokens
            ∈ List.filter is_agg_call (events t)) as Hf.
  { apply list_elem_of_In, List.filter_In. split; [|reflexivity].
    apply list_elem_of_In. assumption. }
  rewrite (agg_calls_of_view t Hv) in Hf.
  destruct (collect answers) as [e|outs]; [inversion Hf|].
  apply list_elem_of_singleton in Hf. injection Hf as ->. eauto.
Qed.

Lemma failed_view (t : turn) :
  run_view t → result t ≠ Completed → reported_failure messages t.
Proof.
  assert (∀ text, worker_event (Final text) = false) as Hw by reflexivity.
  assert (∀ text, render_event (Final text) = false) as Hr by reflexivity.
  destruct 1 as [l1 e Hl Hc|l1 outs e Hl Hc Hs|l1 outs s e Hl Hc Hs Hk
                |l1 outs s full Hl Hc Hs Hk]; intros Hres;
    [| | |contradiction Hres; reflexivity];
    exists e; cbn [try_except_finally result events messages_after];
    (split; [reflexivity|]); (split; [|split; [reflexivity|]]).
  1,3,5: show_mem.
  all: intros text Hin; unfold before_stream in Hin; mem Hin;
    solve [ eapply not_in_workers; eauto | eapply not_in_render; eauto ].
Qed.

Lemma ref_calls_of_view (t : turn) :
  run_view t → List.filter is_ref_call (events t) = reference_requests.
Proof.
  assert (∀ e, render_event e = true → is_ref_call e = false) as Hr
    by (intros []; cbn; congruence).
  destruct 1 as [l1 e Hl Hc|l1 outs e Hl Hc Hs|l1 outs s e Hl Hc Hs Hk
                |l1 outs s full Hl Hc Hs Hk];
    unfold before_stream; cbn [try_except_finally events];
    rewrite ?app_comm_cons, ?List.filter_app; cbn [List.filter is_ref_call];
    rewrite (filter_workers is_ref_call _ Hl (λ _ _, eq_refl)),
      ?filter_render by exact Hr;
    rewrite ?app_nil_r; reflexivity.
Qed.

Lemma requests_of_view (t : turn) :
  run_view t →
  List.filter is_request (events t)
  = reference_requests ++ List.filter is_agg_call (events t).
Proof.
  intros Hv. rewrite (agg_calls_of_view t Hv).
  assert (∀ e, worker_event e = true → is_request e = is_ref_call e) as Hw
    by (intros []; cbn; congruence).
  assert (∀ e, render_event e = true → is_request e = false) as Hr
    by (intros []; cbn; congruence).
  destruct Hv as [l1 e Hl Hc|l1 outs e Hl Hc Hs|l1 outs s e Hl Hc Hs Hk
                 |l1 outs s full Hl Hc Hs Hk];
    rewrite Hc; unfold before_stream; cbn [try_except_finally events];
    rewrite ?app_comm_cons, ?List.filter_app;
    cbn [List.filter is_request is_ref_call is_agg_call orb];
    rewrite (filter_workers is_request _ Hl Hw), ?filter_render by exact Hr;
    rewrite ?app_nil_r; reflexivity.
Qed.

End Run.

(** *** Counting the requests to one model *)

Lemma filter_refines {A} (p q : A → bool) (l : list A) :
  (∀ x, p x = true → q x = true) →
  List.filter p l = List.filter p (List.filter q l).
Proof.
  intros Hpq. induction l as [|x l IH]; [reflexivity|]. cbn.
  destruct (p x) eqn:Hp.
  - rewrite (Hpq x Hp). cbn. rewrite Hp, IH. reflexivity.
  - destruct (q x); cbn; rewrite ?Hp; exact IH.
Qed.

Lemma calls_model_absent (m : string) (messages : list message)
    (temperature : Q) (max_tokens : Z) (ms : list string) :
  m ∉ ms →
  List.filter (calls_model m)
    ((λ m', RefCall m' messages (RefsList []) temperature max_tokens) <$> ms) = [].
Proof.
  induction ms as [|x ms IH]; intros Hm; [reflexivity|].
  apply not_elem_of_cons in Hm as [Hne Hm]. cbn.
  rewrite bool_decide_eq_false_2 by congruence. apply IH, Hm.
Qed.

Lemma calls_model_once (m : string) (messages : list message)
    (temperature : Q) (max_tokens : Z) (ms : list string) :
  NoDup ms → m ∈ ms →
  length (List.filter (calls_model m)
            ((λ m', RefCall m' messages (RefsList []) temperature max_tokens) <$> ms)) = 1.
Proof.
  induction 1 as [|x ms Hx Hnd IH]; intros Hm; [inversion Hm|].
  cbn. destruct (decide (x = m)) as [->|Hne].
  - rewrite bool_decide_eq_true_2 by reflexivity. cbn.
    rewrite calls_model_absent by assumption. reflexivity.
  - rewrite bool_decide_eq_false_2 by assumption.
    apply elem_of_cons in Hm as [->|Hm]; [contradiction|]. apply IH, Hm.
Qed.

(** *** Outputs collected from the same models in another order *)

Lemma collect_outs (rs : list (exn + string)) (os : list string) :
  collect rs = inr os → os = out_of <$> rs.
Proof.
  intros H. apply collect_inr in H as ->. rewrite <- list_fmap_compose.
  induction os as [|x os IH]; cbn; congruence.
Qed.

Lemma collect_perm (rs1 rs2 : list (exn + string)) :
  rs1 ≡ₚ rs2 →
  match collect rs1, collect rs2 with
  | inl _, inl _ => True
  | inr os1, inr os2 => os1 ≡ₚ os2
  | _, _ => False
  end.
Proof.
  intros Hp.
  destruct (collect rs1) as [e1|os1] eqn:E1, (collect rs2) as [e2|os2] eqn:E2.
  - exact I.
  - destruct (proj1 (collect_inl rs1)) as [e He]; [eauto|].
    rewrite Hp in He.
    destruct (proj2 (collect_inl rs2)) as [e' He']; [eauto|]. congruence.
  - destruct (proj1 (collect_inl rs2)) as [e He]; [eauto|].
    rewrite <- Hp in He.
    destruct (proj2 (collect_inl rs1)) as [e' He']; [eauto|]. congruence.
  - rewrite (collect_outs _ _ E1), (collect_outs _ _ E2), Hp. reflexivity.
Qed.

(** C2.  In every successful turn, the assistant message appended to the
    conversation is the concatenation, in arrival order, of the text
    fragments of the chunks the aggregator's stream yielded: every chunk
    contributed its fragment, and the stream ended without raising. *)
Theorem assistant_message_is_concatenation
    (o : set_order) (c : client) (R : list string) (a : string)
    (temperature : Q) (max_tokens : Z) (messages : list message) :
  let t := run_turn o c R a temperature max_tokens messages in
  result t = Completed →
  ∃ outs s,
    AggCall a messages (RefsList outs) temperature max_tokens ∈ events t ∧
    generate_with_references_stream c a messages (RefsList outs)
      temperature max_tokens = inr s ∧
    raises s = None ∧
    Forall2 (λ ch f, chunk_content ch = inr (Some f)) (chunks s) (fragments s) ∧
    messages_after t =
      messages ++ [{| role := "assistant"; content := join (fragments s) |}].
Proof.
  intros t Hres.
  pose proof (run_turn_view o c R a temperature max_tokens messages) as Hv.
  fold t in Hv.
  destruct Hv as [l1 e Hl Hc|l1 outs e Hl Hc Hs|l1 outs s e Hl Hc Hs Hk
                 |l1 outs s full Hl Hc Hs Hk]; try discriminate Hres.
  exists outs, s. apply consume_inr in Hk as (Hr & Hf & ->).
  split; [|repeat split; solve [assumption | reflexivity]].
  cbn [try_except_finally events]. unfold before_stream.
  show_mem.
Qed.

Lemma assistant_message_is_concatenation_witness :
  messages_after Examples.turn_a
  = Examples.hello ++ [{| role := "assistant"; content := "Hello!" |}].
Proof.
  destruct (assistant_message_is_concatenation forward_order Examples.scenario_a
              ["M1"; "M2"] "M3" Examples.half 2048 Examples.hello)
    as (outs & s & _ & Hs & _ & _ & Hm).
  - vm_compute. reflexivity.
  - cbn in Hs. injection Hs as <-. exact Hm.
Defined.



(** C9.  When a chunk of the aggregator's stream has [None] as its delta
    content, the turn is a reported failure and nothing is appended to the
    conversation; and when the chunks before it all carried text, so that
    the loop reaches it, the exception is the [TypeError] of the string
    concatenation. *)
Theorem none_content_fails_turn
    (o : set_order) (c : client) (R : list string) (a : string)
    (temperature : Q) (max_tokens : Z) (messages : list message)
    (refs : refs) (s : stream) :
  let t := run_turn o c R a temperature max_tokens messages in
  AggCall a messages refs temperature max_tokens ∈ events t →
  generate_with_references_stream c a messages refs temperature max_tokens
    = inr s →
  (∃ ch, ch ∈ chunks s ∧ chunk_content ch = inr None) →
  reported_failure messages t ∧
  (∀ cs ch rest,
     s = stream_of cs (StreamChunk ch rest) →
     Forall (λ c0, is_Some (chunk_text c0)) cs →
     chunk_content ch = inr None →
     ∃ msg, result t = Failed (TypeError msg)).
Proof.
  intros t Hin Hs Hnone.
  pose proof (run_turn_view o c R a temperature max_tokens messages) as Hv.
  fold t in Hv.
  destruct (agg_call_in_view _ _ _ _ _ _ _ _ _ Hv Hin) as (outs & Hc & ->).
  assert (∃ e, (consume s EmptyString).2 = inl e ∧ result t = Failed e) as (e & Hk & Hres).
  { destruct (consume_none s EmptyString Hnone) as [e He].
    destruct Hv as [l1 e1 Hl Hc1|l1 outs1 e1 Hl Hc1 Hs1|l1 outs1 s1 e1 Hl Hc1 Hs1 Hk1
                   |l1 outs1 s1 full Hl Hc1 Hs1 Hk1]; try congruence.
    assert (outs1 = outs) as -> by congruence.
    assert (s1 = s) as -> by congruence.
    exists e1. split; [assumption | reflexivity]. }
  split.
  - apply (failed_view o c R a temperature max_tokens); [assumption|].
    rewrite Hres. discriminate.
  - intros cs ch rest -> Hcs Hch.
    destruct (consume_none_first cs ch rest EmptyString Hcs Hch) as [msg Hmsg].
    exists msg. rewrite Hres. congruence.
Qed.

Lemma none_content_fails_turn_witness :
  let t := run_turn forward_order Examples.none_at_the_end ["M1"; "M2"] "M3"
             Examples.half 2048 Examples.hello in
  reported_failure Examples.hello t ∧ ∃ msg, result t = Failed (TypeError msg).
Proof.
  intros t.
  destruct (none_content_fails_turn forward_order Examples.none_at_the_end
              ["M1"; "M2"] "M3" Examples.half 2048 Examples.hello
              (RefsList ["Hi"; "Hey"]) Examples.hel_then_none) as [Hf Ht].
  - vm_compute. do 9 apply list_elem_of_further. apply list_elem_of_here.
  - reflexivity.
  - exists none_chunk. split; [|reflexivity].
    apply list_elem_of_further, list_elem_of_here.
  - split; [exact Hf|].
    apply (Ht [text_chunk "Hel"] none_chunk StreamEnd).
    + reflexivity.
    + repeat constructor. exists "Hel". reflexivity.
    + reflexivity.
Defined.

(** C5.  In every turn the reference requests are exactly one per model of
    the working list, each carrying the whole conversation and an empty list
    of references; a model of the working list is asked once and no other
    model is asked; and the aggregator's request, if it is issued, comes
    after all of them. *)
Theorem one_request_per_working_model
    (o : set_order) (c : client) (R : list string) (a : string)
    (temperature : Q) (max_tokens : Z) (messages : list message) :
  let t := run_turn o c R a temperature max_tokens messages in
  let ms := working_models o R a in
  List.filter is_ref_call (events t)
    = (λ m, RefCall m messages (RefsList []) temperature max_tokens) <$> ms ∧
  NoDup ms ∧
  (∀ m, m ∈ ms → length (List.filter (calls_model m) (events t)) = 1) ∧
  (∀ m, m ∉ ms → List.filter (calls_model m) (events t) = []) ∧
  ∃ agg,
    List.filter is_request (events t) = List.filter is_ref_call (events t) ++ agg ∧
    Forall (λ e, is_agg_call e = true) agg ∧
    (length agg ≤ 1)%nat.
Proof.
  intros t ms.
  pose proof (run_turn_view o c R a temperature max_tokens messages) as Hv.
  fold t in Hv.
  pose proof (ref_calls_of_view _ _ _ _ _ _ _ _ Hv) as Href.
  unfold reference_requests in Href. fold ms in Href.
  assert (∀ m e, calls_model m e = true → is_ref_call e = true) as Hcm
    by (intros m []; cbn; congruence).
  split; [exact Href|]. split; [apply working_models_NoDup|].
  split; [|split].
  - intros m Hm. rewrite (filter_refines _ is_ref_call _ (Hcm m)), Href.
    apply calls_model_once; [apply working_models_NoDup | exact Hm].
  - intros m Hm. rewrite (filter_refines _ is_ref_call _ (Hcm m)), Href.
    apply calls_model_absent, Hm.
  - exists (List.filter is_agg_call (events t)).
    split; [|split].
    + rewrite Href. apply (requests_of_view o c R a temperature max_tokens), Hv.
    + apply Forall_forall. intros e He.
      apply list_elem_of_In, List.filter_In in He. apply He.
    + rewrite (agg_calls_of_view _ _ _ _ _ _ _ _ Hv).
      destruct (collect _); cbn; lia.
Qed.

Lemma one_request_per_working_model_witness :
  length (List.filter (calls_model "M1") (events Examples.turn_a)) = 1%nat ∧
  List.filter (calls_model "M3") (events Examples.turn_a) = [].
Proof.
  destruct (one_request_per_working_model forward_order Examples.scenario_a
              ["M1"; "M2"] "M3" Examples.half 2048 Examples.hello)
    as (_ & _ & Hin & Hout & _).
  split; [apply Hin | apply Hout].
  - vm_compute. apply list_elem_of_here.
  - intros H. apply list_elem_of_In in H. vm_compute in H.
    destruct H as [H|[H|[]]]; discriminate H.
Defined.

(** C6, amended.  Two runs on the same conversation, with the same
    aggregator and parameters, the same set of selected models and the same
    answer from every model of the working set, present the same request to
    the aggregator whenever they enumerate the working set in the same order;
    whatever the orders, either both present none, or their requests differ
    at most in the order of the reference outputs. *)
Theorem aggregation_request_up_to_order
    (o1 o2 : set_order) (c1 c2 : client) (R1 R2 : list string) (a : string)
    (temperature : Q) (max_tokens : Z) (messages : list message) :
  py_set R1 = py_set R2 →
  (∀ m, m ∈ working_set o1 R1 a →
        reference_result c1 messages temperature max_tokens m
        = reference_result c2 messages temperature max_tokens m) →
  let t1 := run_turn o1 c1 R1 a temperature max_tokens messages in
  let t2 := run_turn o2 c2 R2 a temperature max_tokens messages in
  (working_models o1 R1 a = working_models o2 R2 a →
   List.filter is_agg_call (events t1) = List.filter is_agg_call (events t2)) ∧
  ((List.filter is_agg_call (events t1) = [] ∧
    List.filter is_agg_call (events t2) = []) ∨
   ∃ outs1 outs2,
     List.filter is_agg_call (events t1)
       = [AggCall a messages (RefsList outs1) temperature max_tokens] ∧
     List.filter is_agg_call (events t2)
       = [AggCall a messages (RefsList outs2) temperature max_tokens] ∧
     outs1 ≡ₚ outs2).
Proof.
  intros HR Hsame t1 t2.
  pose proof (run_turn_view o1 c1 R1 a temperature max_tokens messages) as Hv1.
  pose proof (run_turn_view o2 c2 R2 a temperature max_tokens messages) as Hv2.
  fold t1 in Hv1. fold t2 in Hv2.
  rewrite (agg_calls_of_view _ _ _ _ _ _ _ _ Hv1),
          (agg_calls_of_view _ _ _ _ _ _ _ _ Hv2).
  assert (reference_result c1 messages temperature max_tokens <$> working_models o1 R1 a
          = reference_result c2 messages temperature max_tokens <$> working_models o1 R1 a)
    as Hext.
  { apply list_fmap_ext. intros i m Hi. apply Hsame. unfold working_set, py_set.
    apply elem_of_list_to_set, list_elem_of_lookup. eauto. }
  unfold answers. split.
  - intros <-. rewrite Hext. reflexivity.
  - assert (reference_result c1 messages temperature max_tokens
              <$> working_models o1 R1 a
            ≡ₚ reference_result c2 messages temperature max_tokens
              <$> working_models o2 R2 a) as Hp.
    { rewrite Hext. apply fmap_Permutation, working_models_perm, HR. }
    pose proof (collect_perm _ _ Hp) as Hcp.
    destruct (collect (_ <$> working_models o1 R1 a)) as [e1|outs1],
             (collect (_ <$> working_models o2 R2 a)) as [e2|outs2];
      try contradiction.
    + left. split; reflexivity.
    + right. exists outs1, outs2. auto.
Qed.

Lemma aggregation_request_up_to_order_witness :
  ∃ outs1 outs2,
    List.filter is_agg_call
      (events (run_turn forward_order Examples.scenario_a ["M1"; "M2"] "M3"
                 Examples.half 2048 Examples.hello))
      = [AggCall "M3" Examples.hello (RefsList outs1) Examples.half 2048] ∧
    List.filter is_agg_call
      (events (run_turn reversed_order Examples.scenario_a ["M2"; "M1"] "M3"
                 Examples.half 2048 Examples.hello))
      = [AggCall "M3" Examples.hello (RefsList outs2) Examples.half 2048] ∧
    outs1 ≡ₚ outs2.
Proof.
  destruct (proj2 (aggregation_request_up_to_order forward_order reversed_order
                     Examples.scenario_a Examples.scenario_a
                     ["M1"; "M2"] ["M2"; "M1"] "M3" Examples.half 2048
                     Examples.hello
                     ltac:(vm_compute; reflexivity)
                     (λ m _, eq_refl))) as [[H _]|H].
  - vm_compute in H. discriminate H.
  - exact H.
Defined.

(** C6, as stated: the same conversation, the same selected models and the
    same answers give the same request.  It fails: with nothing changed but
    the order in which the set of models is enumerated, the reference
    outputs reach the aggregator in another order. *)
Lemma aggregation_request_depends_on_set_order :
  List.filter is_agg_call
    (events (run_turn forward_order Examples.scenario_a ["M1"; "M2"] "M3"
               Examples.half 2048 Examples.hello))
  ≠ List.filter is_agg_call
      (events (run_turn reversed_order Examples.scenario_a ["M1"; "M2"] "M3"
                 Examples.half 2048 Examples.hello)).
Proof. vm_compute. discriminate. Qed.

End TurnFacts.

(** ** The timer thread and the controller *)

Module TimerFacts.

Import Turn Timer.

#[local] Arguments published : simpl never.

Lemma after_snoc (e : event) (h : list action) (x : action) :
  after e (h ++ [x]) =
  match after e h with
  | Some h' => Some (h' ++ [x])
  | None => if is_ctl e x then Some [] else None
  end.
Proof.
  induction h as [|y h IH]; cbn; [destruct (is_ctl e x); reflexivity|].
  destruct (is_ctl e y); [reflexivity | exact IH].
Qed.

Lemma count_snoc (f : action → bool) (h : list action) (x : action) :
  count f (h ++ [x]) = (count f h + if f x then 1 else 0)%nat.
Proof.
  unfold count. rewrite List.filter_app, length_app. cbn.
  destruct (f x); reflexivity.
Qed.

Lemma published_S (clock : nat → Z) (n : nat) :
  (1 ≤ n)%nat →
  published clock (S n) = published clock n ++ [(clock n - clock 0%nat)%Z].
Proof.
  intros Hn. unfold published.
  replace (S n - 1)%nat with (S (n - 1)) by lia.
  rewrite seq_S, fmap_app. replace (1 + (n - 1))%nat with n by lia.
  reflexivity.
Qed.

Lemma published_lookup (clock : nat → Z) (n i : nat) (v : Z) :
  published clock n !! i = Some v → v = (clock (S i) - clock 0%nat)%Z.
Proof.
  unfold published. rewrite list_lookup_fmap.
  destruct (seq 1 (n - 1) !! i) as [k|] eqn:E; [|discriminate].
  apply lookup_seq in E as [-> _]. cbn. congruence.
Qed.

Section Clock.

Variable clock : nat → Z.

(** *** The cell and the timer's bookkeeping *)

Lemma cell_inv_init (program : list event) : cell_inv clock (init program).
Proof. split; cbn; auto. Qed.

Lemma cell_inv_timer_step (s s' : state) :
  cell_inv clock s → timer_step clock s = Some s' → cell_inv clock s'.
Proof.
  intros [Hl Hv Hh Hw]. unfold timer_step.
  destruct (timer s) eqn:Ht; try discriminate.
  - (* AtStart *)
    intros [= <-]. destruct Hw as [Hw Hr].
    split; cbn; auto.
    + rewrite omap_app, <- Hh. cbn. rewrite app_nil_r. reflexivity.
    + rewrite Hr. repeat split; [lia | assumption].
  - (* AtCheck *)
    intros [= <-].
    split; cbn; auto.
    + rewrite omap_app, <- Hh. cbn. rewrite app_nil_r. reflexivity.
    + destruct (stop_event s); assumption.
  - (* AtSet *)
    rewrite SharedValueFacts.set_unlocked by assumption.
    intros [= <-]. destruct Hw as (Hr & Hs & Hw).
    split; cbn; auto.
    + rewrite last_snoc. reflexivity.
    + rewrite omap_app, <- Hh. reflexivity.
    + repeat split; [lia | assumption |].
      rewrite published_S, Hw, Hs by assumption. reflexivity.
  - (* AtSleep *)
    intros [= <-].
    split; cbn; auto.
    rewrite omap_app, <- Hh. cbn. rewrite app_nil_r. reflexivity.
Qed.

Lemma controller_step_cell (s s' : state) :
  controller_step s = Some s' →
  elapsed_time s' = elapsed_time s ∧ written s' = written s ∧
  reads s' = reads s ∧ start_time s' = start_time s ∧
  (∃ e, history s' = history s ++ [CtlDid e]) ∧
  (timer s' = timer s ∨ (timer s = NotStarted ∧ timer s' = AtStart)).
Proof.
  unfold controller_step.
  destruct (controller s) as [|e rest]; [discriminate|].
  destruct e; try (intros [= <-]; cbn; eauto 10).
  - destruct (timer s) eqn:Ht; try discriminate. intros [= <-]; cbn; eauto 10.
  - destruct (SharedValue.get (elapsed_time s)); [|discriminate].
    intros [= <-]; cbn; eauto 10.
  - destruct (timer s) eqn:Ht; try discriminate. intros [= <-]; cbn; eauto 10.
Qed.

Lemma cell_inv_controller_step (s s' : state) :
  cell_inv clock s → controller_step s = Some s' → cell_inv clock s'.
Proof.
  intros [Hl Hv Hh Hw] Hstep.
  destruct (controller_step_cell _ _ Hstep)
    as (He & Hwr & Hr & Hs & [e Hhist] & Ht).
  split; rewrite ?He, ?Hwr, ?Hr, ?Hs; auto.
  - rewrite Hhist, omap_app, <- Hh. cbn. rewrite app_nil_r. reflexivity.
  - destruct Ht as [->|[Ht ->]]; [assumption|]. rewrite Ht in Hw. assumption.
Qed.

Lemma cell_inv_run (schedule : list thread) (s s' : state) :
  cell_inv clock s → run clock schedule s = Some s' → cell_inv clock s'.
Proof.
  revert s. induction schedule as [|th schedule IH]; intros s Hinv; cbn.
  - intros [= <-]. assumption.
  - destruct (step clock th s) as [s1|] eqn:Hstep; [|discriminate]. cbn.
    apply IH. destruct th; cbn in Hstep.
    + eapply cell_inv_controller_step; eassumption.
    + eapply cell_inv_timer_step; eassumption.
Qed.

(** *** What a step does *)

Lemma timer_step_effect (s s' : state) :
  timer_step clock s = Some s' →
  controller s' = controller s ∧ stop_event s' = stop_event s ∧
  ∃ x, history s' = history s ++ [x] ∧
    match timer s with
    | AtStart => timer s' = AtCheck ∧ x = TmrStart
    | AtCheck => timer s' = (if stop_event s then Done else AtSet)
                 ∧ x = TmrCheck (stop_event s)
    | AtSet => timer s' = AtSleep ∧ ∃ v, x = TmrSet v
    | AtSleep => timer s' = AtCheck ∧ x = TmrSleep
    | NotStarted | Done => False
    end.
Proof.
  unfold timer_step. destruct (timer s); try discriminate.
  - intros [= <-]; cbn; eauto 10.
  - intros [= <-]; cbn; eauto 10.
  - destruct (SharedValue.set _ _); [|discriminate].
    intros [= <-]; cbn; eauto 10.
  - intros [= <-]; cbn; eauto 10.
Qed.

Lemma controller_step_effect (s s' : state) :
  controller_step s = Some s' →
  ∃ e rest,
    controller s = e :: rest ∧ controller s' = rest ∧
    history s' = history s ++ [CtlDid e] ∧
    match e with
    | ThreadStart => timer s = NotStarted ∧ timer s' = AtStart
                     ∧ stop_event s' = stop_event s
    | StopSet => timer s' = timer s ∧ stop_event s' = true
    | Join => timer s = Done ∧ timer s' = Done ∧ stop_event s' = stop_event s
    | _ => timer s' = timer s ∧ stop_event s' = stop_event s
    end.
Proof.
  unfold controller_step.
  destruct (controller s) as [|e rest]; [discriminate|].
  intros H. exists e, rest. split; [reflexivity|].
  destruct e; try (injection H as <-; cbn; auto).
  - destruct (timer s); try discriminate. injection H as <-; cbn; auto.
  - destruct (SharedValue.get _); [|discriminate]. injection H as <-; cbn; auto.
  - destruct (timer s); try discriminate. injection H as <-; cbn; auto.
Qed.

Lemma timer_step_enabled (s : state) :
  cell_inv clock s → timer s ≠ NotStarted → timer s ≠ Done →
  is_Some (timer_step clock s).
Proof.
  intros [Hl _ _ _] Hn Hd. unfold timer_step.
  destruct (timer s); try contradiction; eauto.
  rewrite SharedValueFacts.set_unlocked by assumption. eauto.
Qed.

Lemma controller_step_enabled (s : state) (e : event) (rest : list event) :
  cell_inv clock s → controller s = e :: rest →
  (e = ThreadStart → timer s = NotStarted) →
  (e = Join → timer s = Done) →
  is_Some (controller_step s).
Proof.
  intros [Hl _ _ _] Hc Hs Hj. unfold controller_step. rewrite Hc.
  destruct e; eauto.
  - rewrite Hs by reflexivity. eauto.
  - rewrite SharedValueFacts.get_unlocked by assumption. eauto.
  - rewrite Hj by reflexivity. eauto.
Qed.

(** *** The phases of a turn *)

Lemma phase_init (program log : list event) :
  turn_program program log → phase (init program).
Proof. intros [-> Hlog]. eapply phase_idle; cbn; eauto. Qed.

Lemma is_ctl_passive (e e' : event) :
  timer_control e' = false → is_ctl e (CtlDid e') = false.
Proof. destruct e, e'; cbn; congruence. Qed.

Lemma is_ctl_timer (e : event) (x : action) :
  is_timer_action x = true → is_ctl e x = false.
Proof. destruct e, x; cbn; congruence. Qed.

Ltac phase_side Hh Ha Hj :=
  try eassumption; try congruence;
  try (rewrite Hh, after_snoc, ?Ha, ?Hj;
       rewrite ?is_ctl_passive, ?is_ctl_timer by assumption; reflexivity).

Lemma phase_controller_step (s s' : state) :
  phase s → controller_step s = Some s' → phase s'.
Proof.
  intros Hph Hstep.
  destruct (controller_step_effect _ _ Hstep) as (e & rest & Hc & Hc' & Hh & He).
  destruct Hph as [s log Hp Hlog Ht Hs Ha Hj|s log Hp Hlog Hn Hd Hs Ha Hj
                  |s h Hp Hn Hs Ha Hj B1 B2 B3|s h Hp Ht Hs Ha Hj B1 B2 B3].
  - rewrite Hp in Hc. injection Hc as <- <-. destruct He as (_ & Ht' & Hs').
    eapply phase_running; phase_side Hh Ha Hj.
  - destruct log as [|e0 log]; cbn in Hp; rewrite Hp in Hc; injection Hc as <- <-.
    + destruct He as [Ht' Hs'].
      eapply (phase_stopping _ []); phase_side Hh Ha Hj;
        rewrite Ht'; destruct (timer s); cbn; try lia; contradiction.
    + apply Forall_cons in Hlog as [He0 Hlog].
      assert (timer s' = timer s ∧ stop_event s' = stop_event s) as [Ht' Hs']
        by (destruct e0; try discriminate He0; exact He).
      eapply phase_running; phase_side Hh Ha Hj.
  - rewrite Hp in Hc. injection Hc as <- <-. destruct He as (Ht & Ht' & Hs').
    eapply (phase_returned _ (h ++ [CtlDid Join])); phase_side Hh Ha Hj;
      rewrite count_snoc; rewrite Ht in *; cbn in *; lia.
  - rewrite Hp in Hc. discriminate.
Qed.

Lemma phase_timer_step (s s' : state) :
  phase s → timer_step clock s = Some s' → phase s'.
Proof.
  intros Hph Hstep.
  destruct (timer_step_effect _ _ Hstep) as (Hc & Hs' & x & Hh & Hx).
  assert (is_timer_action x = true) as Htx.
  { destruct (timer s); try contradiction;
      [destruct Hx as [_ ->]|destruct Hx as [_ ->]
      |destruct Hx as [_ [v ->]]|destruct Hx as [_ ->]]; reflexivity. }
  destruct Hph as [s log Hp Hlog Ht Hs Ha Hj|s log Hp Hlog Hn Hd Hs Ha Hj
                  |s h Hp Hn Hs Ha Hj B1 B2 B3|s h Hp Ht Hs Ha Hj B1 B2 B3].
  - rewrite Ht in Hx. contradiction.
  - rewrite Hs in Hx. rewrite Hp in Hc.
    eapply phase_running; phase_side Hh Ha Hj;
      destruct (timer s); try contradiction; destruct Hx as [-> _]; discriminate.
  - rewrite Hs in Hx. rewrite Hp in Hc.
    eapply (phase_stopping _ (h ++ [x])); phase_side Hh Ha Hj.
    + destruct (timer s); try contradiction; destruct Hx as [-> _]; discriminate.
    + rewrite count_snoc, Htx.
      destruct (timer s); try contradiction; destruct Hx as [-> _];
        cbn in *; lia.
    + rewrite count_snoc.
      destruct (timer s); try contradiction;
        [destruct Hx as [-> ->]|destruct Hx as [-> ->]
        |destruct Hx as [-> [v ->]]|destruct Hx as [-> ->]]; cbn in *; lia.
    + rewrite count_snoc.
      destruct (timer s); try contradiction;
        [destruct Hx as [-> ->]|destruct Hx as [-> ->]
        |destruct Hx as [-> [v ->]]|destruct Hx as [-> ->]]; cbn in *; lia.
  - rewrite Ht in Hx. contradiction.
Qed.

Lemma phase_run (schedule : list thread) (s s' : state) :
  phase s → run clock schedule s = Some s' → phase s'.
Proof.
  revert s. induction schedule as [|th schedule IH]; intros s Hph; cbn.
  - intros [= <-]. assumption.
  - destruct (step clock th s) as [s1|] eqn:Hstep; [|discriminate]. cbn.
    apply IH. destruct th; cbn in Hstep.
    + eapply phase_controller_step; eassumption.
    + eapply phase_timer_step; eassumption.
Qed.

(** A turn that has not returned can always take a step. *)
Lemma phase_progress (s : state) :
  cell_inv clock s → phase s → controller s ≠ [] →
  ∃ th, is_Some (step clock th s).
Proof.
  intros Hci Hph Hne.
  destruct Hph as [s log Hp Hlog Ht Hs Ha Hj|s log Hp Hlog Hn Hd Hs Ha Hj
                  |s h Hp Hn Hs Ha Hj B1 B2 B3|s h Hp Ht Hs Ha Hj B1 B2 B3].
  - exists Controller. cbn.
    eapply controller_step_enabled; eauto; discriminate.
  - exists TimerTask. cbn. apply timer_step_enabled; assumption.
  - destruct (decide (timer s = Done)) as [Hd|Hd].
    + exists Controller. cbn.
      eapply controller_step_enabled; eauto; discriminate.
    + exists TimerTask. cbn. apply timer_step_enabled; assumption.
  - contradiction.
Qed.

End Clock.

(** *** The controller of a turn *)

Lemma worker_passive (e : event) : worker_event e = true → timer_control e = false.
Proof. destruct e; cbn; congruence. Qed.

Lemma render_passive (e : event) : render_event e = true → timer_control e = false.
Proof. destruct e; cbn; congruence. Qed.

Lemma turn_events_program
    (o : set_order) (c : client) (R : list string) (a : string)
    (temperature : Q) (max_tokens : Z) (messages : list message) :
  ∃ log, turn_program (events (run_turn o c R a temperature max_tokens messages)) log.
Proof.
  pose proof (TurnFacts.run_turn_view o c R a temperature max_tokens messages) as Hv.
  destruct Hv as [l1 e [_ Hl] Hc|l1 outs e [_ Hl] Hc Hs|l1 outs s e [_ Hl] Hc Hs Hk
                 |l1 outs s full [_ Hl] Hc Hs Hk];
    cbn [try_except_finally events]; unfold before_stream;
    eexists; (split; [rewrite ?app_assoc; reflexivity|]);
    pose proof (Forall_impl _ _ _ Hl worker_passive) as Hl';
    try pose proof (Forall_impl _ _ _ (TurnFacts.consume_render_events s EmptyString)
                      render_passive) as Hk';
    repeat first [ apply Forall_app; split | apply Forall_cons; split
                 | apply Forall_nil_2 | assumption | reflexivity ].
Qed.

(** C4.  Whatever the turn and however the two threads are scheduled: the
    controller's last two actions are the cancellation signal and the join,
    on success and on failure alike; it returns only when [run_timer] has
    returned, and from then on no thread takes a step, so nothing is written
    to the cell after the join; once the signal is given the timer starts at
    most one more sleep of one polling interval, makes at most one more
    write, and returns after at most three steps; and until the controller
    has returned some thread can always step, so the join is not waited for
    in vain. *)
Theorem timer_cancelled_and_joined_on_every_exit
    (o : set_order) (c : client) (R : list string) (a : string)
    (temperature : Q) (max_tokens : Z) (messages : list message)
    (clock : nat → Z) (schedule : list thread) (s : state) :
  let t := run_turn o c R a temperature max_tokens messages in
  run clock schedule (init (events t)) = Some s →
  (∃ log, turn_program (events t) log) ∧
  (controller s = [] →
     timer s = Done ∧ ∀ th, step clock th s = None) ∧
  (∀ h, after Join (history s) = Some h → h = []) ∧
  (∀ h, after StopSet (history s) = Some h →
     (count is_sleep h ≤ 1)%nat ∧ (count is_set_action h ≤ 1)%nat ∧
     (count is_timer_action h ≤ 3)%nat) ∧
  (controller s ≠ [] → ∃ th, is_Some (step clock th s)).
Proof.
  intros t Hrun.
  destruct (turn_events_program o c R a temperature max_tokens messages)
    as [log Hprog].
  fold t in Hprog.
  pose proof (phase_run clock _ _ _ (phase_init _ _ Hprog) Hrun) as Hph.
  pose proof (cell_inv_run clock _ _ _ (cell_inv_init clock _) Hrun) as Hci.
  split; [eauto|]. split; [|split; [|split]].
  - intros Hnil.
    destruct Hph as [s log' Hp Hlog Ht Hs Ha Hj|s log' Hp Hlog Hn Hd Hs Ha Hj
                    |s h Hp Hn Hs Ha Hj B1 B2 B3|s h Hp Ht Hs Ha Hj B1 B2 B3];
      try (rewrite Hp in Hnil; try destruct log'; discriminate).
    split; [assumption|].
    intros [|]; cbn; unfold controller_step, timer_step; rewrite ?Hp, ?Ht;
      reflexivity.
  - intros h Hh.
    destruct Hph as [s log' Hp Hlog Ht Hs Ha Hj|s log' Hp Hlog Hn Hd Hs Ha Hj
                    |s h' Hp Hn Hs Ha Hj B1 B2 B3|s h' Hp Ht Hs Ha Hj B1 B2 B3];
      congruence.
  - intros h Hh.
    destruct Hph as [s log' Hp Hlog Ht Hs Ha Hj|s log' Hp Hlog Hn Hd Hs Ha Hj
                    |s h' Hp Hn Hs Ha Hj B1 B2 B3|s h' Hp Ht Hs Ha Hj B1 B2 B3];
      try congruence;
      assert (h' = h) as -> by congruence; lia.
  - apply phase_progress; assumption.
Qed.

Lemma timer_cancelled_and_joined_on_every_exit_witness :
  ∃ s, run Examples.steady_clock Examples.whole_turn
         (init (events Examples.turn_a)) = Some s ∧
       controller s = [] ∧ timer s = Done.
Proof.
  assert (∃ s, run Examples.steady_clock Examples.whole_turn
                 (init (events Examples.turn_a)) = Some s ∧ controller s = [])
    as (s & Hs & Hc) by (vm_compute; eauto).
  exists s. split; [exact Hs|]. split; [exact Hc|].
  apply (timer_cancelled_and_joined_on_every_exit forward_order Examples.scenario_a
           ["M1"; "M2"] "M3" Examples.half 2048 Examples.hello
           Examples.steady_clock Examples.whole_turn s Hs).
  exact Hc.
Defined.

(** C7, amended.  Provided the wall clock read by the timer never steps
    back, the values the timer writes to the cell are non-decreasing; and,
    whatever the clock and whatever the controller does, the timer is the
    only writer: the values written are those of the timer's [set] actions,
    the cell holds the last of them (or its initial value), and no step of
    the controller changes the cell. *)
Theorem written_values_follow_clock
    (clock : nat → Z) (program : list event) (schedule : list thread)
    (s : state) :
  run clock schedule (init program) = Some s →
  ((∀ i j, (i ≤ j)%nat → (clock i ≤ clock j)%Z) →
   ∀ i j v w, (i ≤ j)%nat →
     written s !! i = Some v → written s !! j = Some w → (v ≤ w)%Z) ∧
  written s = omap set_value (history s) ∧
  SharedValue.value (elapsed_time s) = default 0%Z (last (written s)) ∧
  (∀ s', controller_step s = Some s' →
     elapsed_time s' = elapsed_time s ∧ written s' = written s).
Proof.
  intros Hrun.
  pose proof (cell_inv_run clock _ _ _ (cell_inv_init clock _) Hrun)
    as [Hl Hv Hh Hw].
  split; [|split; [assumption|split; [assumption|]]].
  - intros Hmono i j v w Hij Hi Hj.
    destruct (timer s); try (destruct Hw as [Hw _]; rewrite Hw in Hi; discriminate);
      destruct Hw as (_ & _ & Hw); rewrite Hw in Hi, Hj;
      apply published_lookup in Hi as ->; apply published_lookup in Hj as ->;
      (assert (clock (S i) ≤ clock (S j))%Z by (apply Hmono; lia)); lia.
  - intros s' Hstep.
    destruct (controller_step_cell _ _ Hstep) as (He & Hwr & _). auto.
Qed.

Lemma written_values_follow_clock_witness :
  ∃ s, run Examples.steady_clock Examples.two_polls
         (init (events Examples.turn_a)) = Some s ∧
       written s = [100; 200]%Z ∧
       ∀ i j v w, (i ≤ j)%nat →
         written s !! i = Some v → written s !! j = Some w → (v ≤ w)%Z.
Proof.
  assert (∃ s, run Examples.steady_clock Examples.two_polls
                 (init (events Examples.turn_a)) = Some s ∧
               written s = [100; 200]%Z)
    as (s & Hs & Hw) by (vm_compute; eauto).
  exists s. split; [exact Hs|]. split; [exact Hw|].
  apply (proj1 (written_values_follow_clock Examples.steady_clock
                  (events Examples.turn_a) Examples.two_polls s Hs)).
  intros i j Hij. unfold Examples.steady_clock. lia.
Defined.

(** C7, as stated: the values written are non-decreasing.  It fails when the
    wall clock is set back between two readings: the timer then publishes 5
    ticks and, after it, 2. *)
Lemma written_values_decrease_when_clock_set_back :
  ∃ s, run Examples.clock_set_back Examples.two_polls
         (init (events Examples.turn_a)) = Some s ∧
       written s !! 0%nat = Some 5%Z ∧ written s !! 1%nat = Some 2%Z ∧
       ¬ (5 ≤ 2)%Z.
Proof. eexists. split; [vm_compute; reflexivity|]. repeat split. lia. Qed.

End TimerFacts.

(** ** The session state *)

Module SessionFacts.

Import Turn Session.

Lemma append_message_inv (r c : string) (s s1 : session) :
  append_message r c s = Some s1 →
  ∃ ds, lists s !! messages s = Some ds ∧
    dicts s1 = <[next s := {| role := r; content := c |}]> (dicts s) ∧
    lists s1 = <[messages s := ds ++ [next s]]> (lists s) ∧
    next s1 = S (next s) ∧ messages s1 = messages s ∧
    conversations s1 = conversations s.
Proof.
  unfold append_message. intros H.
  destruct (lists s !! messages s) as [ds|]; [|discriminate].
  cbn in H. injection H as <-. exists ds. cbn. auto 10.
Qed.

Lemma chat_input_inv (prompt : string) (s s2 : session) :
  chat_input prompt s = Some s2 →
  ∃ s1 ds, append_message "user" prompt s = Some s1 ∧
    lists s1 !! messages s1 = Some ds ∧
    ((length ds = 2 ∧
      dicts s2 = dicts s1 ∧ lists s2 = <[next s1 := ds]> (lists s1) ∧
      next s2 = S (next s1) ∧ messages s2 = messages s1 ∧
      conversations s2 = conversations s1
        ++ [{| first_question := prompt; conv_messages := next s1 |}]) ∨
     (length ds ≠ 2 ∧ s2 = s1)).
Proof.
  unfold chat_input. intros H.
  destruct (append_message "user" prompt s) as [s1|]; [|discriminate].
  cbn in H. destruct (lists s1 !! messages s1) as [ds|] eqn:E; [|discriminate].
  cbn in H. exists s1, ds. split; [reflexivity|]. split; [assumption|].
  destruct (decide (length ds = 2)); injection H as <-; cbn; auto 10.
Qed.

Lemma update_system_instructions_inv (u : string) (s s1 : session) :
  update_system_instructions u s = Some s1 →
  ∃ ds d0 m0, lists s !! messages s = Some (d0 :: ds) ∧
    dicts s !! d0 = Some m0 ∧
    dicts s1 = <[d0 := {| role := role m0; content := combined_prompt u |}]> (dicts s) ∧
    lists s1 = lists s ∧ messages s1 = messages s ∧
    conversations s1 = conversations s.
Proof.
  unfold update_system_instructions. intros H.
  destruct (lists s !! messages s) as [[|d0 ds]|]; try discriminate.
  cbn in H. destruct (dicts s !! d0) as [m0|] eqn:E; [|discriminate].
  cbn in H. injection H as <-. exists ds, d0, m0. cbn. auto 10.
Qed.









Lemma wf_initial : wf initial.
Proof.
  split; cbn.
  - intros d [m H]. apply lookup_singleton_Some in H as [<- _]. lia.
  - intros l [ds H]. apply lookup_singleton_Some in H as [<- _]. lia.
  - intros l ds d H Hd. apply lookup_singleton_Some in H as [<- <-].
    apply list_elem_of_singleton in Hd as ->. rewrite lookup_singleton_eq. eauto.
  - rewrite lookup_singleton_eq. eauto.
  - intros c Hc. inversion Hc.
Qed.



End SessionFacts.

(** ** The sidebar's check boxes *)

Module SidebarFacts.

Import Session Sidebar.

Lemma occurrences_app (x : string) (xs ys : list string) :
  occurrences x (xs ++ ys) = (occurrences x xs + occurrences x ys)%nat.
Proof. induction xs as [|y xs IH]; cbn; [reflexivity|]. rewrite IH. lia. Qed.

Lemma occurrences_zero (x : string) (xs : list string) :
  occurrences x xs = 0%nat ↔ x ∉ xs.
Proof.
  induction xs as [|y xs IH]; cbn.
  - split; [intros _ H; inversion H | reflexivity].
  - rewrite not_elem_of_cons. destruct (decide (y = x)) as [->|Hne].
    + split; [discriminate | intros [H _]; contradiction].
    + cbn. rewrite IH. split; [auto | tauto].
Qed.

Lemma occurrences_pos (x : string) (xs : list string) :
  (1 ≤ occurrences x xs)%nat ↔ x ∈ xs.
Proof.
  destruct (decide (x ∈ xs)) as [Hin|Hnin].
  - split; [auto|]. intros _.
    destruct (occurrences x xs) eqn:E; [|lia].
    apply occurrences_zero in E. contradiction.
  - split; [|contradiction]. apply occurrences_zero in Hnin. lia.
Qed.

Lemma occurrences_NoDup (xs : list string) :
  NoDup xs ↔ ∀ x, (occurrences x xs ≤ 1)%nat.
Proof.
  induction xs as [|y xs IH]; cbn.
  - split; [intros _ x; lia | intros _; constructor].
  - rewrite NoDup_cons, IH. split.
    + intros [Hy Hall] x. destruct (decide (y = x)) as [->|Hne].
      * apply occurrences_zero in Hy. lia.
      * apply Hall.
    + intros Hall. split.
      * specialize (Hall y). rewrite decide_True in Hall by reflexivity.
        apply occurrences_zero. lia.
      * intros x. specialize (Hall x). destruct (decide (y = x)); lia.
Qed.

Lemma occurrences_remove (x y : string) (xs : list string) :
  occurrences x (list_remove y xs) =
  if decide (x = y) then pred (occurrences x xs) else occurrences x xs.
Proof.
  induction xs as [|z xs IH]; cbn.
  - destruct (decide (x = y)); reflexivity.
  - destruct (decide (z = y)) as [->|Hzy].
    + destruct (decide (x = y)) as [->|Hxy].
      * rewrite decide_True by reflexivity. reflexivity.
      * rewrite decide_False by congruence. reflexivity.
    + cbn. rewrite IH. destruct (decide (x = y)) as [->|Hxy].
      * rewrite decide_False by assumption. reflexivity.
      * reflexivity.
Qed.

(** One box changes the count of its own label only. *)
Lemma occurrences_step (checked : string → bool) (sel : list string) (x m : string) :
  occurrences m (checkbox_step checked sel x) =
  if decide (m = x) then
    if checked x then Nat.max 1 (occurrences m sel) else pred (occurrences m sel)
  else occurrences m sel.
Proof.
  unfold checkbox_step.
  destruct (checked x), (decide (x ∈ sel)) as [Hin|Hnin].
  - destruct (decide (m = x)) as [->|]; [|reflexivity].
    apply occurrences_pos in Hin. lia.
  - rewrite occurrences_app. cbn.
    destruct (decide (m = x)) as [->|Hne].
    + rewrite decide_True by reflexivity.
      apply occurrences_zero in Hnin. rewrite Hnin. reflexivity.
    + rewrite decide_False by congruence. lia.
  - apply occurrences_remove.
  - destruct (decide (m = x)) as [->|]; [|reflexivity].
    apply occurrences_zero in Hnin. rewrite Hnin. reflexivity.
Qed.

Lemma occurrences_loop (checked : string → bool) (labels sel : list string)
    (m : string) :
  NoDup labels →
  occurrences m (checkbox_loop checked labels sel) =
  if decide (m ∈ labels) then
    if checked m then Nat.max 1 (occurrences m sel) else pred (occurrences m sel)
  else occurrences m sel.
Proof.
  unfold checkbox_loop. intros Hnd. revert sel.
  induction Hnd as [|x labels Hx Hnd IH]; intros sel; cbn.
  - rewrite decide_False by (intros H; inversion H). reflexivity.
  - rewrite IH, occurrences_step.
    destruct (decide (m = x)) as [->|Hne].
    + rewrite decide_False by assumption.
      rewrite decide_True by apply list_elem_of_here. reflexivity.
    + destruct (decide (m ∈ labels)) as [Hin|Hnin].
      * rewrite decide_True by (apply list_elem_of_further; assumption). reflexivity.
      * rewrite decide_False; [reflexivity|].
        rewrite not_elem_of_cons. auto.
Qed.

Lemma default_reference_models_NoDup : NoDup default_reference_models.
Proof. apply NoDup_ListNoDup. repeat constructor; cbn; intuition discriminate. Qed.

Lemma occurrences_sidebar (checked : string → bool) (selected : list string)
    (m : string) :
  occurrences m (reference_models_sidebar checked selected) =
  if decide (m ∈ default_reference_models) then
    if checked m then Nat.max 1 (occurrences m selected)
    else pred (occurrences m selected)
  else occurrences m selected.
Proof. apply occurrences_loop, default_reference_models_NoDup. Qed.

Lemma elem_of_sidebar (checked : string → bool) (selected : list string)
    (m : string) :
  NoDup selected →
  (m ∈ reference_models_sidebar checked selected) ↔
  ((m ∈ default_reference_models ∧ checked m = true) ∨
   ((m ∉ default_reference_models) ∧ m ∈ selected)).
Proof.
  intros Hnd. pose proof (proj1 (occurrences_NoDup selected) Hnd m) as Hle.
  rewrite <- (occurrences_pos m (reference_models_sidebar _ _)).
  rewrite occurrences_sidebar.
  destruct (decide (m ∈ default_reference_models)) as [Hd|Hd].
  - destruct (checked m) eqn:Hc.
    + split; [intros _; left; split; [assumption|reflexivity] | intros _; lia].
    + split; [lia|]. intros [[_ H]|[H _]]; [discriminate | contradiction].
  - rewrite occurrences_pos.
    split; [intros H; right; split; assumption|].
    intros [[H _]|[_ H]]; [contradiction | assumption].
Qed.

(** X1.  After the check-box loop, a listed model occurs in the selection
    once if its box is checked and it was absent, as often as before if its
    box is checked and it was present, and once less than before if its box
    is unchecked ([remove] takes one occurrence away, so a model selected
    twice stays selected); every other entry of the selection is kept as
    often as it occurred. *)
Theorem sidebar_counts (checked : string → bool) (selected : list string)
    (m : string) :
  occurrences m (reference_models_sidebar checked selected) =
  if decide (m ∈ default_reference_models) then
    if checked m then Nat.max 1 (occurrences m selected)
    else pred (occurrences m selected)
  else occurrences m selected.
Proof. apply occurrences_loop, default_reference_models_NoDup. Qed.

(** X2.  When the selection holds no model twice, the loop leaves it without
    duplicates, and a model is selected afterwards exactly when it is a
    listed model whose box is checked, or an unlisted entry that was already
    there. *)
Theorem sidebar_selection (checked : string → bool) (selected : list string) :
  NoDup selected →
  NoDup (reference_models_sidebar checked selected) ∧
  ∀ m, (m ∈ reference_models_sidebar checked selected) ↔
       ((m ∈ default_reference_models ∧ checked m = true) ∨
        ((m ∉ default_reference_models) ∧ m ∈ selected)).
Proof.
  intros Hnd. split.
  - pose proof (proj1 (occurrences_NoDup selected) Hnd) as Hle.
    apply occurrences_NoDup. intros m. rewrite occurrences_sidebar.
    specialize (Hle m).
    destruct (decide (m ∈ default_reference_models)), (checked m); lia.
  - intros m. apply elem_of_sidebar, Hnd.
Qed.

(** X3.  A run of the script in which every box still shows what the
    selection says (the value each box is created with) leaves the
    selection as it is, entry for entry. *)
Theorem sidebar_untouched (selected : list string) :
  reference_models_sidebar (λ m, bool_decide (m ∈ selected)) selected = selected.
Proof.
  unfold reference_models_sidebar, checkbox_loop.
  induction default_reference_models as [|x labels IH]; cbn; [reflexivity|].
  assert (checkbox_step (λ m, bool_decide (m ∈ selected)) selected x = selected)
    as ->; [|exact IH].
  unfold checkbox_step. destruct (decide (x ∈ selected)) as [Hin|Hnin].
  - rewrite bool_decide_eq_true_2 by assumption. reflexivity.
  - rewrite bool_decide_eq_false_2 by assumption. reflexivity.
Qed.

Lemma sidebar_selection_witness :
  NoDup ["my/model"] ∧
  NoDup (reference_models_sidebar MoreExamples.only_qwen15 ["my/model"]).
Proof.
  assert (NoDup ["my/model"]) as H by apply NoDup_singleton.
  split; [exact H|].
  apply (sidebar_selection MoreExamples.only_qwen15 ["my/model"] H).
Defined.

End SidebarFacts.

(** ** The session under the user's actions *)

Module UiFacts.

Import Turn Session SessionFacts Ui.

Lemma start_new_conversation_inv (s s1 : session) :
  start_new_conversation s = Some s1 →
  ∃ c, system_content s (messages s) = Some c ∧
    dicts s1 = <[next s := {| role := "system"; content := c |}]> (dicts s) ∧
    lists s1 = <[S (next s) := [next s]]> (lists s) ∧
    next s1 = S (S (next s)) ∧ messages s1 = S (next s) ∧
    conversations s1 = conversations s.
Proof.
  unfold start_new_conversation.
  destruct (system_content s (messages s)) as [c|]; [|discriminate].
  cbn. intros [= <-]. exists c. cbn. auto 10.
Qed.

Lemma select_conversation_inv (idx : nat) (s s1 : session) :
  select_conversation idx s = Some s1 →
  ∃ c, conversations s !! idx = Some c ∧
    dicts s1 = dicts s ∧ lists s1 = lists s ∧ next s1 = next s ∧
    messages s1 = conv_messages c ∧ conversations s1 = conversations s.
Proof.
  unfold select_conversation.
  destruct (conversations s !! idx) as [c|]; [|discriminate].
  cbn. intros [= <-]. exists c. cbn. auto 10.
Qed.

(** *** The store stays well formed *)

Lemma wf_append (r c : string) (s s1 : session) :
  wf s → append_message r c s = Some s1 → wf s1.
Proof.
  intros [Wd Wl We Wlive Wc] H.
  apply append_message_inv in H
    as (ds & Hds & Hdicts & Hlists & Hnext & Hmsg & Hconv).
  assert (messages s < next s)%nat as Blm by (apply Wl; eauto).
  split.
  - intros d. rewrite Hdicts, Hnext, lookup_insert_is_Some.
    intros [<-|[_ H]]; [lia|]. apply Wd in H. lia.
  - intros l. rewrite Hlists, Hnext, lookup_insert_is_Some.
    intros [<-|[_ H]]; [lia|]. apply Wl in H. lia.
  - intros l xs d. rewrite Hlists, Hdicts, lookup_insert_is_Some.
    destruct (decide (messages s = l)) as [<-|Hne].
    + rewrite lookup_insert_eq. intros [= <-] Hd.
      apply elem_of_app in Hd as [Hd|Hd].
      * right. split; [|eapply We; eauto].
        intros <-. assert (next s < next s)%nat; [|lia].
        apply Wd. eapply We; eauto.
      * apply list_elem_of_singleton in Hd. auto.
    + rewrite lookup_insert_ne by assumption. intros Hl Hd.
      right. split; [|eapply We; eauto].
      intros <-. assert (next s < next s)%nat; [|lia].
      apply Wd. eapply We; eauto.
  - rewrite Hmsg, Hlists, lookup_insert_eq. eauto.
  - intros c0. rewrite Hconv, Hlists. intros Hc.
    apply lookup_insert_is_Some. destruct (decide (messages s = conv_messages c0));
      [left; assumption | right; split; [assumption | apply Wc, Hc]].
Qed.

Lemma wf_chat_input (p : string) (s s2 : session) :
  wf s → chat_input p s = Some s2 → wf s2.
Proof.
  intros W H. apply chat_input_inv in H as (s1 & ds & Happ & Hds & Hcase).
  pose proof (wf_append _ _ _ _ W Happ) as [Wd Wl We Wlive Wc].
  destruct Hcase as [(_ & Hdicts & Hlists & Hnext & Hmsg & Hconv)|[_ ->]];
    [|split; assumption].
  split.
  - intros d. rewrite Hdicts, Hnext. intros H. apply Wd in H. lia.
  - intros l. rewrite Hlists, Hnext, lookup_insert_is_Some.
    intros [<-|[_ H]]; [lia|]. apply Wl in H. lia.
  - intros l xs d. rewrite Hlists, Hdicts.
    destruct (decide (next s1 = l)) as [<-|Hne].
    + rewrite lookup_insert_eq. intros [= <-] Hd. eapply We; eauto.
    + rewrite lookup_insert_ne by assumption. apply We.
  - rewrite Hmsg, Hlists. apply lookup_insert_is_Some.
    destruct (decide (next s1 = messages s1)); auto.
  - intros c0. rewrite Hconv, Hlists. intros Hc.
    apply lookup_insert_is_Some.
    apply elem_of_app in Hc as [Hc|Hc].
    + destruct (decide (next s1 = conv_messages c0)); auto.
    + apply list_elem_of_singleton in Hc as ->. left. reflexivity.
Qed.

Lemma wf_start_new (s s1 : session) :
  wf s → start_new_conversation s = Some s1 → wf s1.
Proof.
  intros [Wd Wl We Wlive Wc] H.
  apply start_new_conversation_inv in H
    as (c & Hc & Hdicts & Hlists & Hnext & Hmsg & Hconv).
  split.
  - intros d. rewrite Hdicts, Hnext, lookup_insert_is_Some.
    intros [<-|[_ H]]; [lia|]. apply Wd in H. lia.
  - intros l. rewrite Hlists, Hnext, lookup_insert_is_Some.
    intros [<-|[_ H]]; [lia|]. apply Wl in H. lia.
  - intros l xs d. rewrite Hlists, Hdicts.
    destruct (decide (S (next s) = l)) as [<-|Hne].
    + rewrite lookup_insert_eq. intros [= <-] Hd.
      apply list_elem_of_singleton in Hd as ->. rewrite lookup_insert_eq. eauto.
    + rewrite lookup_insert_ne by assumption. intros Hl Hd.
      apply lookup_insert_is_Some.
      destruct (decide (next s = d)); [auto|]. right. split; [assumption|].
      eapply We; eauto.
  - rewrite Hmsg, Hlists, lookup_insert_eq. eauto.
  - intros c0. rewrite Hconv, Hlists. intros H0.
    apply lookup_insert_is_Some.
    destruct (decide (S (next s) = conv_messages c0)); auto.
Qed.

Lemma wf_select (idx : nat) (s s1 : session) :
  wf s → select_conversation idx s = Some s1 → wf s1.
Proof.
  intros [Wd Wl We Wlive Wc] H.
  apply select_conversation_inv in H
    as (c & Hc & Hdicts & Hlists & Hnext & Hmsg & Hconv).
  split; rewrite ?Hdicts, ?Hlists, ?Hnext, ?Hmsg, ?Hconv; auto.
  apply Wc. apply list_elem_of_lookup. eauto.
Qed.

Lemma update_system_instructions_next (u : string) (s s1 : session) :
  update_system_instructions u s = Some s1 →
  next s1 = next s ∧ user_system_prompt s1 = u ∧
  selected_models s1 = selected_models s.
Proof.
  unfold update_system_instructions.
  destruct (lists s !! messages s) as [[|d0 ds]|]; try discriminate.
  cbn. destruct (dicts s !! d0); [|discriminate].
  cbn. intros [= <-]. cbn. auto.
Qed.

Lemma wf_update (u : string) (s s1 : session) :
  wf s → update_system_instructions u s = Some s1 → wf s1.
Proof.
  intros [Wd Wl We Wlive Wc] H.
  destruct (update_system_instructions_next _ _ _ H) as (Hnext & _ & _).
  apply update_system_instructions_inv in H
    as (ds & d0 & m0 & Hl & Hd & Hdicts & Hlists & Hmsg & Hconv).
  split; rewrite ?Hlists, ?Hmsg, ?Hconv, ?Hnext; auto.
  - intros d. rewrite Hdicts, lookup_insert_is_Some.
    intros [<-|[_ H]]; apply Wd; eauto.
  - intros l xs d Hxs Hin. rewrite Hdicts. apply lookup_insert_is_Some.
    destruct (decide (d0 = d)); [auto|]. right. split; [assumption|].
    eapply We; eauto.
Qed.

(** *** Every conversation keeps its system message in front *)

Lemma starts_with_system_continues (s s' : session) (l : loc) :
  continues s s' → starts_with_system s l → starts_with_system s' l.
Proof.
  intros [Hl Hd] (d & ds & m & Hls & Hdm & Hr).
  destruct (Hl _ _ _ Hls) as [ds' Hls'].
  destruct (Hd _ _ Hdm) as (m' & Hdm' & Hr').
  exists d, ds', m'. repeat split; congruence.
Qed.

Lemma continues_append (r c : string) (s s1 : session) :
  wf s → append_message r c s = Some s1 → continues s s1.
Proof.
  intros [Wd Wl We Wlive Wc] H.
  apply append_message_inv in H
    as (ds & Hds & Hdicts & Hlists & Hnext & Hmsg & Hconv).
  split.
  - intros l d xs Hl. rewrite Hlists.
    destruct (decide (messages s = l)) as [<-|Hne].
    + rewrite lookup_insert_eq. rewrite Hds in Hl. injection Hl as ->.
      cbn. eauto.
    + rewrite lookup_insert_ne by assumption. eauto.
  - intros d m Hd. rewrite Hdicts, lookup_insert_ne; [eauto|].
    intros <-. assert (next s < next s)%nat; [apply Wd; eauto | lia].
Qed.

Lemma continues_chat_input (p : string) (s s2 : session) :
  wf s → chat_input p s = Some s2 → continues s s2.
Proof.
  intros W H. apply chat_input_inv in H as (s1 & ds & Happ & Hds & Hcase).
  pose proof (continues_append _ _ _ _ W Happ) as [Cl Cd].
  pose proof (wf_append _ _ _ _ W Happ) as [Wd Wl We Wlive Wc].
  destruct Hcase as [(_ & Hdicts & Hlists & Hnext & Hmsg & Hconv)|[_ ->]];
    [|split; assumption].
  split.
  - intros l d xs Hl. destruct (Cl _ _ _ Hl) as [xs' Hl'].
    exists xs'. rewrite Hlists, lookup_insert_ne; [assumption|].
    intros <-. assert (next s1 < next s1)%nat; [apply Wl; eauto | lia].
  - intros d m Hd. rewrite Hdicts. eauto.
Qed.

Lemma continues_start_new (s s1 : session) :
  wf s → start_new_conversation s = Some s1 → continues s s1.
Proof.
  intros [Wd Wl We Wlive Wc] H.
  apply start_new_conversation_inv in H
    as (c & Hc & Hdicts & Hlists & Hnext & Hmsg & Hconv).
  split.
  - intros l d xs Hl. exists xs. rewrite Hlists, lookup_insert_ne; [assumption|].
    intros <-. assert (S (next s) < next s)%nat; [apply Wl; eauto | lia].
  - intros d m Hd. rewrite Hdicts, lookup_insert_ne; [eauto|].
    intros <-. assert (next s < next s)%nat; [apply Wd; eauto | lia].
Qed.

Lemma continues_update (u : string) (s s1 : session) :
  update_system_instructions u s = Some s1 → continues s s1.
Proof.
  intros H. apply update_system_instructions_inv in H
    as (ds & d0 & m0 & Hl & Hd & Hdicts & Hlists & Hmsg & Hconv).
  split.
  - intros l d xs Hxs. rewrite Hlists. eauto.
  - intros d m Hdm. rewrite Hdicts.
    destruct (decide (d0 = d)) as [<-|Hne].
    + rewrite lookup_insert_eq. eexists. split; [reflexivity|]. cbn. congruence.
    + rewrite lookup_insert_ne by assumption. eauto.
Qed.

Lemma ok_initial : ok initial.
Proof.
  split; [apply wf_initial| |intros c Hc; inversion Hc].
  exists 0%nat, [], {| role := "system"; content := default_system_prompt |}.
  repeat split.
Qed.

Lemma ok_continues (s s1 : session) :
  ok s → wf s1 → continues s s1 →
  messages s1 = messages s → conversations s1 = conversations s → ok s1.
Proof.
  intros [W Hl Hc] W1 Hcont Hm Hcv. split; [assumption| |].
  - rewrite Hm. eapply starts_with_system_continues; eauto.
  - intros c. rewrite Hcv. intros Hin.
    eapply starts_with_system_continues; eauto.
Qed.

Lemma ok_act (a : action) (s s1 : session) :
  ok s → act a s = Some s1 → ok s1.
Proof.
  intros Hok H. pose proof Hok as [W Hl Hc].
  destruct a as [u| |idx|p|r]; cbn in H.
  - pose proof (wf_update _ _ _ W H) as W1.
    pose proof (continues_update _ _ _ H) as Hcont.
    apply update_system_instructions_inv in H
      as (ds & d0 & m0 & _ & _ & _ & _ & Hmsg & Hconv).
    eapply ok_continues; eauto.
  - pose proof (wf_start_new _ _ W H) as W1.
    pose proof (continues_start_new _ _ W H) as Hcont.
    apply start_new_conversation_inv in H
      as (c & Hsc & Hdicts & Hlists & Hnext & Hmsg & Hconv).
    split; [assumption| |].
    + exists (next s), [], {| role := "system"; content := c |}.
      rewrite Hmsg, Hlists, Hdicts, !lookup_insert_eq. repeat split.
    + intros c0. rewrite Hconv. intros Hin.
      eapply starts_with_system_continues; eauto.
  - pose proof (wf_select _ _ _ W H) as W1.
    apply select_conversation_inv in H
      as (c & Hci & Hdicts & Hlists & Hnext & Hmsg & Hconv).
    assert (c ∈ conversations s) as Hin by (apply list_elem_of_lookup; eauto).
    assert (∀ l, starts_with_system s l → starts_with_system s1 l) as Hsame.
    { intros l (d & ds & m & H1 & H2 & H3). exists d, ds, m.
      rewrite Hlists, Hdicts. auto. }
    split; [assumption| |].
    + rewrite Hmsg. auto.
    + intros c0. rewrite Hconv. auto.
  - pose proof (wf_chat_input _ _ _ W H) as W1.
    pose proof (continues_chat_input _ _ _ W H) as Hcont.
    apply chat_input_inv in H as (sa & ds & Happ & Hds & Hcase).
    pose proof (continues_append _ _ _ _ W Happ) as Hcont0.
    apply append_message_inv in Happ as (_ & _ & _ & _ & _ & Hmsg0 & Hconv0).
    destruct Hcase as [(_ & Hdicts & Hlists & Hnext & Hmsg & Hconv)|[_ ->]].
    + split; [assumption| |].
      * rewrite Hmsg, Hmsg0. eapply starts_with_system_continues; eauto.
      * intros c0. rewrite Hconv, Hconv0. intros Hin.
        apply elem_of_app in Hin as [Hin|Hin].
        -- eapply starts_with_system_continues; eauto.
        -- apply list_elem_of_singleton in Hin as ->. cbn.
           assert (starts_with_system sa (messages sa)) as (d & xs & m & H1 & H2 & H3).
           { rewrite Hmsg0. eapply starts_with_system_continues; eauto. }
           rewrite Hds in H1. injection H1 as ->.
           exists d, xs, m. rewrite Hlists, lookup_insert_eq, Hdicts. auto.
    + eapply ok_continues; eauto.
  - unfold append_assistant in H.
    pose proof (wf_append _ _ _ _ W H) as W1.
    pose proof (continues_append _ _ _ _ W H) as Hcont.
    apply append_message_inv in H as (_ & _ & _ & _ & _ & Hmsg & Hconv).
    eapply ok_continues; eauto.
Qed.

Lemma ok_offered (a : action) (s : session) :
  ok s → offered a s → is_Some (act a s).
Proof.
  intros [W (d & ds & m & Hl & Hd & Hr) Hc] Hoff.
  destruct a as [u| |idx|p|r]; cbn in *.
  - unfold update_system_instructions. rewrite Hl. cbn. rewrite Hd. cbn. eauto.
  - unfold start_new_conversation, system_content. rewrite Hl. cbn.
    rewrite Hd. cbn. eauto.
  - unfold select_conversation.
    destruct (lookup_lt_is_Some_2 _ _ Hoff) as [c ->]. cbn. eauto.
  - unfold chat_input, append_message. rewrite Hl. cbn.
    rewrite lookup_insert_eq. cbn. destruct (decide _); eauto.
  - unfold append_assistant, append_message. rewrite Hl. cbn. eauto.
Qed.

(** X4.  In every state the session reaches from its initial state by the
    user's actions, the store has no dangling reference, the live
    conversation and every saved one start with a message of role
    ["system"], and every action the page offers succeeds: [messages[0]]
    never raises. *)
Theorem session_keeps_system_message (script : list action) (s : session) :
  acts script initial = Some s →
  ok s ∧ ∀ a, offered a s → is_Some (act a s).
Proof.
  intros H. assert (ok s) as Hok.
  { revert H. generalize ok_initial. generalize initial as s0.
    induction script as [|a script IH]; intros s0 H0; cbn.
    - intros [= <-]. assumption.
    - destruct (act a s0) as [s1|] eqn:E; [|discriminate]. cbn.
      apply IH. eapply ok_act; eauto. }
  split; [assumption|]. intros a. apply ok_offered, Hok.
Qed.

(** *** What talking changes *)

Lemma read_list_Some (s : session) (l : loc) (ms : list message) :
  read_list s l = Some ms ↔
  ∃ ds, lists s !! l = Some ds ∧ Forall2 (λ d m, dicts s !! d = Some m) ds ms.
Proof.
  unfold read_list. destruct (lists s !! l) as [ds|]; cbn.
  - rewrite mapM_Some. split; [eauto|]. intros (ds' & [= <-] & H). exact H.
  - split; [discriminate | intros (ds & H & _); discriminate].
Qed.

Lemma append_message_stable (r c : string) (s s1 : session) :
  wf s → append_message r c s = Some s1 →
  (∀ d m, dicts s !! d = Some m → dicts s1 !! d = Some m) ∧
  (∀ l xs, l ≠ messages s → lists s !! l = Some xs → lists s1 !! l = Some xs) ∧
  (∀ xs, lists s !! messages s = Some xs →
         lists s1 !! messages s = Some (xs ++ [next s])) ∧
  dicts s1 !! next s = Some {| role := r; content := c |} ∧
  messages s1 = messages s.
Proof.
  intros [Wd Wl We Wlive Wc] H.
  apply append_message_inv in H
    as (ds & Hds & Hdicts & Hlists & Hnext & Hmsg & Hconv).
  repeat split.
  - intros d m Hd. rewrite Hdicts, lookup_insert_ne; [assumption|].
    intros <-. assert (next s < next s)%nat; [apply Wd; eauto | lia].
  - intros l xs Hne Hl. rewrite Hlists, lookup_insert_ne by congruence.
    assumption.
  - intros xs Hxs. rewrite Hlists, lookup_insert_eq. congruence.
  - rewrite Hdicts, lookup_insert_eq. reflexivity.
  - assumption.
Qed.

Lemma chat_stable (st : chat_step) (s s1 : session) :
  wf s → chat st s = Some s1 →
  wf s1 ∧
  (∀ d m, dicts s !! d = Some m → dicts s1 !! d = Some m) ∧
  (∀ l xs, l ≠ messages s → lists s !! l = Some xs → lists s1 !! l = Some xs) ∧
  (∀ xs, lists s !! messages s = Some xs →
         ∃ d, lists s1 !! messages s = Some (xs ++ [d])) ∧
  messages s1 = messages s.
Proof.
  intros W. destruct st as [p|r]; cbn.
  - intros H. pose proof (wf_chat_input _ _ _ W H) as W1.
    apply chat_input_inv in H as (sa & ds & Happ & Hds & Hcase).
    pose proof (wf_append _ _ _ _ W Happ) as [Wd Wl We Wlive Wc].
    destruct (append_message_stable _ _ _ _ W Happ) as (Sd & Sl & Slive & _ & Sm).
    destruct Hcase as [(_ & Hdicts & Hlists & Hnext & Hmsg & Hconv)|[_ ->]].
    + assert (∀ l xs, lists sa !! l = Some xs → lists s1 !! l = Some xs) as Hfresh.
      { intros l xs Hl. rewrite Hlists, lookup_insert_ne; [assumption|].
        intros <-. assert (next sa < next sa)%nat; [apply Wl; eauto | lia]. }
      split; [assumption|]. split; [|split; [|split]].
      * intros d m Hd. rewrite Hdicts. auto.
      * intros l xs Hne Hl. eauto.
      * intros xs Hxs. eauto.
      * congruence.
    + split; [assumption|]. split; [|split; [|split]]; eauto.
  - unfold append_assistant. intros H.
    pose proof (wf_append _ _ _ _ W H) as W1.
    destruct (append_message_stable _ _ _ _ W H) as (Sd & Sl & Slive & _ & Sm).
    split; [assumption|]. split; [|split; [|split]]; eauto.
Qed.

Lemma chats_stable (sts : list chat_step) (s s1 : session) :
  wf s → chats sts s = Some s1 →
  wf s1 ∧
  (∀ d m, dicts s !! d = Some m → dicts s1 !! d = Some m) ∧
  (∀ l xs, l ≠ messages s → lists s !! l = Some xs → lists s1 !! l = Some xs) ∧
  (∀ xs, lists s !! messages s = Some xs →
         ∃ ys, lists s1 !! messages s = Some (xs ++ ys) ∧ length ys = length sts) ∧
  messages s1 = messages s.
Proof.
  revert s. induction sts as [|st sts IH]; intros s W; cbn.
  - intros [= <-]. split; [assumption|]. split; [auto|]. split; [auto|].
    split; [|reflexivity]. intros xs Hxs. exists []. rewrite app_nil_r. auto.
  - destruct (chat st s) as [sa|] eqn:E; [|discriminate]. cbn. intros H.
    destruct (chat_stable _ _ _ W E) as (Wa & Sd & Sl & Slive & Sm).
    destruct (IH _ Wa H) as (W1 & Sd1 & Sl1 & Slive1 & Sm1).
    split; [assumption|]. split; [|split; [|split]].
    + auto.
    + intros l xs Hne Hl. apply Sl1; [congruence | auto].
    + intros xs Hxs. destruct (Slive _ Hxs) as [d Hd].
      rewrite <- Sm in Hd. destruct (Slive1 _ Hd) as (ys & Hys & Hlen).
      exists (d :: ys). rewrite Sm in Hys. rewrite Hys, <- app_assoc. cbn.
      split; [reflexivity | lia].
    + congruence.
Qed.

(** X5.  The conversation saved at the first question never receives what
    follows: however long the exchange goes on, the saved copy still reads
    as the system message and the first question, while the live
    conversation has grown by one message per question and answer. *)
Theorem saved_conversation_holds_first_question_only
    (s s1 s2 : session) (p : string) (sts : list chat_step) (d0 : loc)
    (m0 : message) :
  wf s →
  lists s !! messages s = Some [d0] →
  dicts s !! d0 = Some m0 →
  chat_input p s = Some s1 →
  chats sts s1 = Some s2 →
  ∃ snap,
    snap ∈ conversations s2 ∧ first_question snap = p ∧
    read_list s2 (conv_messages snap)
      = Some [m0; {| role := "user"; content := p |}] ∧
    (length <$> lists s2 !! messages s2) = Some (2 + length sts)%nat.
Proof.
  intros W Hlive Hd0 Hin Hchats.
  pose proof (wf_chat_input _ _ _ W Hin) as W1.
  pose proof W as [Wd Wl We Wlive Wc].
  apply chat_input_inv in Hin as (sa & ds & Happ & Hds & Hcase).
  pose proof (wf_append _ _ _ _ W Happ) as [Wda Wla Wea Wlivea Wca].
  destruct (append_message_stable _ _ _ _ W Happ) as (Sd & Sl & Slive & Snew & Sm).
  specialize (Slive _ Hlive). rewrite Sm, Slive in Hds. injection Hds as <-.
  destruct Hcase as [(_ & Hdicts1 & Hlists1 & Hnext1 & Hmsg1 & Hconv1)|[Hlen _]];
    [|contradiction Hlen; reflexivity].
  assert (next sa ≠ messages s) as Hne.
  { intros Heq. assert (next sa < next sa)%nat; [|lia].
    apply Wla. rewrite Heq, <- Sm. assumption. }
  destruct (chats_stable _ _ _ W1 Hchats) as (W2 & Sd2 & Sl2 & Slive2 & Sm2).
  exists {| first_question := p; conv_messages := next sa |}.
  split; [|split; [reflexivity|split]].
  - assert (∀ c, c ∈ conversations s1 → c ∈ conversations s2) as Hmono.
    { clear -Hchats. revert s1 Hchats.
      induction sts as [|st sts IH]; intros s1 Hchats c Hc; cbn in Hchats.
      - injection Hchats as <-. assumption.
      - destruct (chat st s1) as [sb|] eqn:E; [|discriminate]. cbn in Hchats.
        apply (IH sb); [assumption|].
        destruct st as [q|r]; cbn in E.
        + apply chat_input_inv in E as (sc & xs & Happ & _ & Hcase).
          apply append_message_inv in Happ as (_ & _ & _ & _ & _ & _ & Hcb).
          destruct Hcase as [(_ & _ & _ & _ & _ & Hca)|[_ ->]].
          * rewrite Hca, Hcb. apply elem_of_app. auto.
          * rewrite Hcb. assumption.
        + apply append_message_inv in E as (_ & _ & _ & _ & _ & _ & Hca).
          rewrite Hca. assumption. }
    apply Hmono. rewrite Hconv1. apply elem_of_app. right. apply list_elem_of_here.
  - apply read_list_Some. exists [d0; next s]. cbn. split.
    + apply Sl2; [rewrite Hmsg1, Sm; assumption|].
      rewrite Hlists1, lookup_insert_eq. reflexivity.
    + repeat constructor; apply Sd2; rewrite Hdicts1; auto.
  - destruct (Slive2 [d0; next s]) as (ys & Hys & Hlen).
    { rewrite Hmsg1, Sm, Hlists1, lookup_insert_ne by assumption. assumption. }
    rewrite Sm2, Hys. cbn. rewrite Hlen. reflexivity.
Qed.

(** X6.  After a saved conversation is selected, the live conversation is
    that very list: a message appended to the live conversation is appended
    to the saved one. *)
Theorem selected_conversation_grows
    (s s1 s2 : session) (idx : nat) (c : conversation) (old : list message)
    (r text : string) :
  wf s →
  conversations s !! idx = Some c →
  read_list s (conv_messages c) = Some old →
  select_conversation idx s = Some s1 →
  append_message r text s1 = Some s2 →
  messages s2 = conv_messages c ∧
  conversations s2 !! idx = Some c ∧
  read_list s2 (conv_messages c)
    = Some (old ++ [{| role := r; content := text |}]).
Proof.
  intros W Hc Hold Hsel Happ.
  pose proof (wf_select _ _ _ W Hsel) as W1.
  apply select_conversation_inv in Hsel
    as (c' & Hc' & Hdicts & Hlists & Hnext & Hmsg & Hconv).
  assert (c' = c) as -> by congruence.
  destruct (append_message_stable _ _ _ _ W1 Happ) as (Sd & Sl & Slive & Snew & Sm).
  apply append_message_inv in Happ as (_ & _ & _ & _ & _ & _ & Hconv2).
  apply read_list_Some in Hold as (ds & Hds & Hall).
  split; [congruence|]. split; [congruence|].
  apply read_list_Some. exists (ds ++ [next s1]). split.
  - rewrite <- Hmsg. apply Slive. rewrite Hmsg, Hlists. assumption.
  - apply Forall2_app; [|repeat constructor; assumption].
    eapply Forall2_impl; [exact Hall|]. cbn. intros d m Hd.
    apply Sd. rewrite Hdicts. assumption.
Qed.

(** X7.  Custom instructions outlive the conversation they were given in:
    after "Update System Instructions", a conversation started with "Start
    New Conversation" opens with the combined prompt as its only message,
    and keeps it as its system message however long it goes on. *)
Theorem instructions_survive_new_conversation
    (s s1 s2 s3 : session) (u : string) (sts : list chat_step) :
  wf s →
  update_system_instructions u s = Some s1 →
  start_new_conversation s1 = Some s2 →
  chats sts s2 = Some s3 →
  read_list s2 (messages s2)
    = Some [{| role := "system"; content := combined_prompt u |}] ∧
  system_content s3 (messages s3) = Some (combined_prompt u).
Proof.
  intros W Hupd Hnew Hchats.
  pose proof (wf_update _ _ _ W Hupd) as W1.
  pose proof (wf_start_new _ _ W1 Hnew) as W2.
  apply update_system_instructions_inv in Hupd
    as (ds & d0 & m0 & Hl & Hd & Hdicts & Hlists & Hmsg & Hconv).
  apply start_new_conversation_inv in Hnew
    as (c & Hc & Hdicts2 & Hlists2 & Hnext2 & Hmsg2 & Hconv2).
  assert (c = combined_prompt u) as ->.
  { unfold system_content in Hc. rewrite Hmsg, Hlists, Hl in Hc. cbn in Hc.
    rewrite Hdicts, lookup_insert_eq in Hc. cbn in Hc. congruence. }
  assert (lists s2 !! messages s2 = Some [next s1]) as Hlive2
    by (rewrite Hmsg2, Hlists2, lookup_insert_eq; reflexivity).
  assert (dicts s2 !! next s1
          = Some {| role := "system"; content := combined_prompt u |}) as Hd2
    by (rewrite Hdicts2, lookup_insert_eq; reflexivity).
  split.
  - apply read_list_Some. exists [next s1]. split; [assumption|].
    repeat constructor. assumption.
  - destruct (chats_stable _ _ _ W2 Hchats) as (W3 & Sd & Sl & Slive & Sm).
    destruct (Slive _ Hlive2) as (ys & Hys & _).
    unfold system_content. rewrite Sm, Hys. cbn.
    rewrite (Sd _ _ Hd2). reflexivity.
Qed.

Lemma session_keeps_system_message_witness :
  ∃ s, acts MoreExamples.busy_session initial = Some s ∧
       is_Some (act StartNew s).
Proof.
  assert (∃ s, acts MoreExamples.busy_session initial = Some s) as [s Hs]
    by (vm_compute; eauto).
  exists s. split; [exact Hs|].
  apply (session_keeps_system_message MoreExamples.busy_session s Hs).
  exact I.
Defined.

Lemma saved_conversation_holds_first_question_only_witness :
  ∃ s1 s2 snap,
    chat_input "q1" initial = Some s1 ∧
    chats [Reply "a1"; Prompt "q2"] s1 = Some s2 ∧
    snap ∈ conversations s2 ∧
    read_list s2 (conv_messages snap)
      = Some [ {| role := "system"; content := default_system_prompt |};
               {| role := "user"; content := "q1" |} ].
Proof.
  assert (∃ s1 s2, chat_input "q1" initial = Some s1 ∧
                   chats [Reply "a1"; Prompt "q2"] s1 = Some s2)
    as (s1 & s2 & H1 & H2).
  { do 2 eexists. split; vm_compute; reflexivity. }
  destruct (saved_conversation_holds_first_question_only initial s1 s2 "q1"
              [Reply "a1"; Prompt "q2"] 0%nat
              {| role := "system"; content := default_system_prompt |}
              wf_initial eq_refl eq_refl H1 H2)
    as (snap & Hin & _ & Hr & _).
  exists s1, s2, snap. auto.
Defined.

Lemma selected_conversation_grows_witness :
  ∃ s c s1 s2,
    chat_input "q1" initial = Some s ∧
    conversations s !! 0%nat = Some c ∧
    select_conversation 0 s = Some s1 ∧
    append_message "user" "q2" s1 = Some s2 ∧
    read_list s2 (conv_messages c)
      = Some ([ {| role := "system"; content := default_system_prompt |};
                {| role := "user"; content := "q1" |} ]
              ++ [ {| role := "user"; content := "q2" |} ]).
Proof.
  assert (∃ s c s1 s2,
            chat_input "q1" initial = Some s ∧
            conversations s !! 0%nat = Some c ∧
            read_list s (conv_messages c)
              = Some [ {| role := "system"; content := default_system_prompt |};
                       {| role := "user"; content := "q1" |} ] ∧
            select_conversation 0 s = Some s1 ∧
            append_message "user" "q2" s1 = Some s2)
    as (s & c & s1 & s2 & H0 & Hc & Hr & H1 & H2).
  { do 4 eexists. split; [vm_compute; reflexivity|].
    split; [vm_compute; reflexivity|]. split; [vm_compute; reflexivity|].
    split; vm_compute; reflexivity. }
  exists s, c, s1, s2. split; [exact H0|]. split; [exact Hc|].
  split; [exact H1|]. split; [exact H2|].
  apply (selected_conversation_grows s s1 s2 0 c _ "user" "q2"
           (wf_chat_input _ _ _ wf_initial H0) Hc Hr H1 H2).
Defined.

Lemma instructions_survive_new_conversation_witness :
  ∃ s1 s2 s3,
    update_system_instructions "be brief" initial = Some s1 ∧
    start_new_conversation s1 = Some s2 ∧
    chats [Prompt "q"; Reply "a"] s2 = Some s3 ∧
    system_content s3 (messages s3) = Some (combined_prompt "be brief").
Proof.
  assert (∃ s1 s2 s3,
            update_system_instructions "be brief" initial = Some s1 ∧
            start_new_conversation s1 = Some s2 ∧
            chats [Prompt "q"; Reply "a"] s2 = Some s3)
    as (s1 & s2 & s3 & H1 & H2 & H3).
  { do 3 eexists. split; [vm_compute; reflexivity|].
    split; vm_compute; reflexivity. }
  exists s1, s2, s3. split; [exact H1|]. split; [exact H2|]. split; [exact H3|].
  apply (instructions_survive_new_conversation initial s1 s2 s3 "be brief"
           [Prompt "q"; Reply "a"] wf_initial H1 H2 H3).
Defined.

End UiFacts.

(** ** More about the turn *)

Module TurnMore.

Import WorkingSet WorkingSetFacts Turn TurnFacts Render.

Section Run.

Variables (o : set_order) (c : client) (R : list string) (a : string)
  (temperature : Q) (max_tokens : Z) (messages : list message).

Local Abbreviation t := (run_turn o c R a temperature max_tokens messages).
Local Abbreviation ms := (working_models o R a).
Local Abbreviation answer := (reference_result c messages temperature max_tokens).
Local Abbreviation stream_call :=
  (λ outs, generate_with_references_stream c a messages (RefsList outs)
             temperature max_tokens).

Lemma answers_collected (outs : list string) :
  collect (answers o c R a temperature max_tokens messages) = inr outs ↔
  Forall2 (λ m out, answer m = inr out) ms outs.
Proof.
  rewrite collect_inr. unfold answers. generalize ms as l. intros l. revert outs.
  induction l as [|m l IH]; intros [|out outs]; cbn; split; intros H.
  - constructor.
  - reflexivity.
  - discriminate.
  - inversion H.
  - discriminate.
  - inversion H.
  - injection H as H1 H2. constructor; [assumption | apply IH; assumption].
  - inversion H as [|? ? ? ? H1 H2]; subst.
    f_equal; [assumption | apply IH; assumption].
Qed.

Lemma omap_none {A B} (g : A → option B) (l : list A) :
  Forall (λ x, g x = None) l → omap g l = [].
Proof. induction 1 as [|x l Hx _ IH]; cbn; [reflexivity|]. rewrite Hx. exact IH. Qed.

Lemma omap_workers {B} (g : event → option B) (l1 : list event) :
  workers_log o R a temperature max_tokens messages l1 →
  (∀ e, worker_event e = true → g e = None) → omap g l1 = [].
Proof. intros [_ H] Hg. apply omap_none. eapply Forall_impl; eauto. Qed.


Lemma consume_partials (s : stream) (acc : string) :
  partial_texts (consume s acc).1
  = (λ x, x +:+ cursor) <$> running acc (consumed s).
Proof.
  revert acc. induction s as [|ch rest IH|e]; intros acc; [reflexivity| |reflexivity].
  rewrite consume_chunk. cbn [consumed]. unfold chunk_text.
  destruct (chunk_content ch) as [e|[f|]]; [reflexivity| |reflexivity].
  cbn [fst running fmap list_fmap]. unfold partial_texts in *. cbn.
  rewrite IH. reflexivity.
Qed.

(** *** Success, characterised *)

(** X8.  A turn completes exactly when every model of the working list
    answers, the aggregator's streaming call returns a stream, the stream
    ends without raising, and each of its chunks carries a text. *)
Theorem turn_completes_iff :
  result t = Completed ↔
  ∃ outs s,
    Forall2 (λ m out, answer m = inr out) ms outs ∧
    stream_call outs = inr s ∧
    raises s = None ∧
    Forall (λ ch, is_Some (chunk_text ch)) (chunks s).
Proof.
  pose proof (run_turn_view o c R a temperature max_tokens messages) as Hv.
  split.
  - intros Hres.
    destruct Hv as [l1 e Hl Hc|l1 outs e Hl Hc Hs|l1 outs s e Hl Hc Hs Hk
                   |l1 outs s full Hl Hc Hs Hk]; try discriminate Hres.
    exists outs, s. apply answers_collected in Hc.
    apply consume_inr in Hk as (Hr & Hf & _).
    repeat split; try assumption.
    clear -Hf. induction Hf as [|ch f chs fs Hch _ IH]; constructor; [|exact IH].
    exists f. unfold chunk_text. rewrite Hch. reflexivity.
  - intros (outs & s & Hans & Hs & Hr & Hch).
    apply answers_collected in Hans.
    pose proof (consume_complete s EmptyString Hr Hch) as Hk.
    destruct Hv as [l1 e Hl Hc|l1 outs' e Hl Hc Hs'|l1 outs' s' e Hl Hc Hs' Hk'
                   |l1 outs' s' full Hl Hc Hs' Hk']; try congruence.
    reflexivity.
Qed.

(** X9.  The references handed to the aggregator are the answers of the
    models of the working list, one per model and in the order of that list;
    and when a reference model fails the aggregator is not called at all. *)
Theorem aggregator_receives_all_answers :
  (∀ refs, AggCall a messages refs temperature max_tokens ∈ events t →
     ∃ outs, refs = RefsList outs ∧
             Forall2 (λ m out, answer m = inr out) ms outs) ∧
  ((∃ m e, m ∈ ms ∧ answer m = inl e) →
   List.filter is_agg_call (events t) = []).
Proof.
  pose proof (run_turn_view o c R a temperature max_tokens messages) as Hv.
  split.
  - intros refs Hin.
    destruct (agg_call_in_view _ _ _ _ _ _ _ _ _ Hv Hin) as (outs & Hc & ->).
    exists outs. split; [reflexivity|]. apply answers_collected, Hc.
  - intros (m & e & Hm & He).
    rewrite (agg_calls_of_view _ _ _ _ _ _ _ _ Hv).
    destruct (collect _) as [e'|outs] eqn:Hc; [reflexivity|].
    apply answers_collected in Hc.
    apply list_elem_of_lookup in Hm as [i Hi].
    destruct (Forall2_lookup_l _ _ _ _ _ Hc Hi) as (out & _ & Hout). congruence.
Qed.

(** X10.  While the aggregator's stream is read the page shows, after each
    chunk, everything received so far followed by the cursor; this is so in
    a turn that later fails as well: the fragments received before the
    failure have been shown, though none of them is kept. *)
Theorem partial_answers_are_shown (outs : list string) (s : stream) :
  AggCall a messages (RefsList outs) temperature max_tokens ∈ events t →
  stream_call outs = inr s →
  partial_texts (events t)
  = (λ x, x +:+ cursor) <$> running EmptyString (consumed s).
Proof.
  intros Hin Hs.
  pose proof (run_turn_view o c R a temperature max_tokens messages) as Hv.
  destruct (agg_call_in_view _ _ _ _ _ _ _ _ _ Hv Hin) as (outs' & Hc & Heq).
  injection Heq as <-.
  assert (∀ e, worker_event e = true
               → match e with Partial text => Some text | _ => None end = None)
    as Hw by (intros []; cbn; congruence).
  destruct Hv as [l1 e Hl Hc1|l1 outs1 e Hl Hc1 Hs1|l1 outs1 s1 e Hl Hc1 Hs1 Hk
                 |l1 outs1 s1 full Hl Hc1 Hs1 Hk]; try congruence;
    assert (outs1 = outs) as -> by congruence;
    assert (s1 = s) as -> by congruence;
    unfold before_stream; cbn [try_except_finally events];
    unfold partial_texts; rewrite ?app_comm_cons, ?omap_app; cbn [omap list_omap];
    rewrite (omap_workers _ _ Hl Hw);
    fold (partial_texts (consume s EmptyString).1);
    rewrite consume_partials; cbn; rewrite ?app_nil_r; reflexivity.
Qed.


End Run.

Lemma partial_answers_are_shown_witness :
  partial_texts (events MoreExamples.turn_d)
  = (λ x, x +:+ cursor) <$> running EmptyString (consumed Examples.hel_then_raise).
Proof.
  apply (partial_answers_are_shown forward_order Examples.scenario_d
           ["M1"; "M2"] "M3" Examples.half 2048 Examples.hello ["Hi"; "Hey"]).
  - vm_compute. repeat constructor.
  - reflexivity.
Defined.

End TurnMore.

(** ** More about the model selection *)

Module WorkingMore.

Import WorkingSet WorkingSetFacts Session Sidebar SidebarFacts.

Lemma difference_empty (R : list string) (a : string) :
  py_set R ∖ {[a]} = ∅ ↔ ∀ m, m ∈ R → m = a.
Proof.
  unfold py_set. split.
  - intros H m Hm. destruct (decide (m = a)) as [|Hne]; [assumption|].
    assert (m ∈ (list_to_set R ∖ {[a]} : gset string)) as Hin.
    { apply elem_of_difference. split; [apply elem_of_list_to_set, Hm|].
      rewrite elem_of_singleton. assumption. }
    rewrite H in Hin. apply not_elem_of_empty in Hin. contradiction.
  - intros H. apply set_eq. intros m.
    rewrite elem_of_difference, elem_of_list_to_set, elem_of_singleton.
    split; [intros [Hm Hne]; apply H in Hm; contradiction|].
    intros Hm. apply not_elem_of_empty in Hm. contradiction.
Qed.

Lemma elem_of_working_other (o : set_order) (R : list string) (a m : string) :
  py_set R ∖ {[a]} ≠ ∅ →
  m ∈ working_models o R a ↔ m ∈ R ∧ m ≠ a.
Proof.
  intros Hne. rewrite working_models_other by assumption.
  rewrite elem_of_list_of_set. unfold py_set.
  rewrite elem_of_difference, elem_of_list_to_set, elem_of_singleton. reflexivity.
Qed.

(** X12.  Whatever is selected, also nothing at all or the same model several
    times, the list of models queried is not empty and holds no model twice;
    it holds only selected models, or the aggregator; and it holds the
    aggregator exactly when no other model is selected. *)
Theorem working_list_shape (o : set_order) (R : list string) (a : string) :
  working_models o R a ≠ [] ∧
  NoDup (working_models o R a) ∧
  (∀ m, m ∈ working_models o R a → m ∈ R ∨ m = a) ∧
  (a ∈ working_models o R a ↔ ∀ m, m ∈ R → m = a).
Proof.
  split; [apply working_models_nonempty|]. split; [apply working_models_NoDup|].
  destruct (decide (py_set R ∖ {[a]} = ∅)) as [He|Hne].
  - rewrite working_models_fallback by assumption. split.
    + intros m Hm. apply list_elem_of_singleton in Hm. auto.
    + split; [intros _; apply difference_empty, He|].
      intros _. apply list_elem_of_here.
  - split.
    + intros m Hm. apply elem_of_working_other in Hm as [Hm _]; auto.
    + rewrite elem_of_working_other by assumption.
      split; [intros [_ H]; contradiction|].
      intros H. pose proof (proj2 (difference_empty _ _) H). contradiction.
Qed.

(** X13.  With a duplicate-free selection, the models queried in a turn are
    the ones picked in the sidebar (the listed models whose box is checked
    and the unlisted entries of the selection) other than the aggregator;
    when none is picked, or only the aggregator, the aggregator alone is
    queried. *)
Theorem fan_out_follows_check_boxes (o : set_order) (checked : string → bool)
    (selected : list string) (a : string) :
  NoDup selected →
  let picked m := (m ∈ default_reference_models ∧ checked m = true) ∨
                  ((m ∉ default_reference_models) ∧ m ∈ selected) in
  let queried := working_models o (reference_models_sidebar checked selected) a in
  ((∃ m, picked m ∧ m ≠ a) → ∀ m, (m ∈ queried) ↔ (picked m ∧ m ≠ a)) ∧
  ((∀ m, picked m → m = a) → queried = [a]).
Proof.
  intros Hnd picked queried.
  pose proof (λ m, elem_of_sidebar checked selected m Hnd) as Hsel.
  split.
  - intros (m0 & Hp0 & Hne0) m. subst queried.
    rewrite elem_of_working_other, Hsel; [reflexivity|].
    intros He. pose proof (proj1 (difference_empty _ _) He) as He'.
    apply Hne0, He', Hsel, Hp0.
  - intros Hall. apply working_models_fallback, difference_empty.
    intros m Hm. apply Hall, Hsel, Hm.
Qed.

Lemma fan_out_follows_check_boxes_witness :
  NoDup (@nil string) ∧
  ("Qwen/Qwen1.5-72B"
     ∈ working_models forward_order
         (reference_models_sidebar MoreExamples.only_qwen15 [])
         "Qwen/Qwen2-72B-Instruct").
Proof.
  assert (NoDup (@nil string)) as H by constructor.
  split; [exact H|].
  destruct (fan_out_follows_check_boxes forward_order MoreExamples.only_qwen15
              [] "Qwen/Qwen2-72B-Instruct" H) as [Hsome _].
  assert ("Qwen/Qwen1.5-72B" ∈ default_reference_models) as Hin
    by (vm_compute; repeat constructor).
  apply Hsome.
  - exists "Qwen/Qwen1.5-72B". split; [left; split; [exact Hin|reflexivity]|].
    discriminate.
  - split; [left; split; [exact Hin|reflexivity]|]. discriminate.
Defined.

End WorkingMore.

(** ** More about the two thread models *)

Module ThreadsMore.

Import Turn Timer TimerFacts Invariants.

Section Clock.

Variable clock : nat → Z.

Lemma signal_inv_step (th : thread) (s s' : state) :
  signal_inv s → step clock th s = Some s' → signal_inv s'.
Proof.
  intros [Hd] Hstep. split. destruct th; cbn in Hstep.
  - destruct (controller_step_effect _ _ Hstep) as (e & rest & _ & _ & _ & He).
    destruct e; try (destruct He as [-> ->]; assumption).
    + destruct He as (_ & -> & _). discriminate.
    + destruct He as [_ ->]. reflexivity.
    + destruct He as (Ht & _ & ->). intros _. auto.
  - destruct (timer_step_effect _ _ _ Hstep) as (_ & -> & x & _ & Hx).
    destruct (timer s); try contradiction; destruct Hx as [-> _];
      try discriminate.
    destruct (stop_event s); [reflexivity | discriminate].
Qed.

Lemma unsignalled_step (th : thread) (s s' : state) :
  unsignalled s → step clock th s = Some s' → unsignalled s'.
Proof.
  intros [Hp Hs Ht Hj] Hstep. destruct th; cbn in Hstep.
  - destruct (controller_step_effect _ _ Hstep)
      as (e & rest & Hc & Hc' & Hh & He).
    rewrite Hc in Hp. apply not_elem_of_cons in Hp as [Hne Hp].
    assert (timer s' = timer s ∧ stop_event s' = stop_event s ∧ e ≠ Join
            ∨ timer s' = AtStart ∧ stop_event s' = stop_event s ∧ e ≠ Join)
      as Hcase.
    { destruct e; try contradiction;
        try (left; destruct He as [-> ->]; repeat split; discriminate).
      - right. destruct He as (_ & -> & ->). repeat split; discriminate.
      - destruct He as (Hd & _ & _). contradiction. }
    split.
    + congruence.
    + destruct Hcase as [(_ & -> & _)|(_ & -> & _)]; assumption.
    + destruct Hcase as [(-> & _ & _)|(-> & _ & _)]; [assumption|discriminate].
    + rewrite Hh, elem_of_app, list_elem_of_singleton.
      intros [H|H]; [contradiction|]. injection H as <-.
      destruct Hcase as [(_ & _ & H)|(_ & _ & H)]; contradiction.
  - destruct (timer_step_effect _ _ _ Hstep) as (Hc & Hs' & x & Hh & Hx).
    split.
    + congruence.
    + congruence.
    + rewrite Hs in Hx.
      destruct (timer s); try contradiction; destruct Hx as [-> _]; discriminate.
    + rewrite Hh, elem_of_app, list_elem_of_singleton.
      intros [H|H]; [contradiction|]. subst x.
      destruct (timer s); try contradiction;
        [destruct Hx as [_ Hx]|destruct Hx as [_ Hx]
        |destruct Hx as [_ [v Hx]]|destruct Hx as [_ Hx]]; discriminate.
Qed.

(** X14.  [run_timer] returns only after the signal has been given; so a
    controller that joins the timer without ever giving the signal waits for
    ever: the timer never returns and the join is never passed. *)
Theorem timer_returns_only_after_signal
    (program : list event) (schedule : list thread) (s : state) :
  run clock schedule (init program) = Some s →
  (timer s = Done → stop_event s = true) ∧
  (StopSet ∉ program →
     timer s ≠ Done ∧ (CtlDid Join ∉ history s) ∧
     ∀ rest, controller s = Join :: rest → controller_step s = None).
Proof.
  intros Hrun. split.
  - assert (signal_inv s) as [H]; [|exact H].
    revert Hrun. assert (signal_inv (init program)) as H0 by (split; discriminate).
    revert H0. generalize (init program) as s0.
    induction schedule as [|th schedule IH]; intros s0 H0; cbn.
    + intros [= <-]. assumption.
    + destruct (step clock th s0) as [s1|] eqn:E; [|discriminate]. cbn.
      apply IH. eapply signal_inv_step; eauto.
  - intros Hp. assert (unsignalled s) as [_ _ Ht Hj].
    { revert Hrun. assert (unsignalled (init program)) as H0.
      { split; cbn; [assumption|reflexivity|discriminate|intros H; inversion H]. }
      revert H0. generalize (init program) as s0.
      induction schedule as [|th schedule IH]; intros s0 H0; cbn.
      + intros [= <-]. assumption.
      + destruct (step clock th s0) as [s1|] eqn:E; [|discriminate]. cbn.
        apply IH. eapply unsignalled_step; eauto. }
    split; [assumption|]. split; [assumption|].
    intros rest Hc. unfold controller_step. rewrite Hc.
    destruct (timer s); try reflexivity. contradiction.
Qed.

(** *** What the controller displays *)

Lemma controller_step_shown (s s' : state) :
  controller_step s = Some s' →
  shown s' = shown s ∨
  (SharedValue.lock (elapsed_time s) = None →
   shown s' = shown s ++ [SharedValue.value (elapsed_time s)]).
Proof.
  unfold controller_step.
  destruct (controller s) as [|e rest]; [discriminate|].
  destruct e; try (intros [= <-]; left; reflexivity).
  - destruct (timer s); try discriminate. intros [= <-]. left. reflexivity.
  - destruct (SharedValue.get (elapsed_time s)) as [v|] eqn:E; [|discriminate].
    intros [= <-]. right. intros Hl.
    rewrite SharedValueFacts.get_unlocked in E by assumption.
    injection E as <-. reflexivity.
  - destruct (timer s); try discriminate. intros [= <-]. left. reflexivity.
Qed.

Lemma timer_step_shown (s s' : state) :
  timer_step clock s = Some s' → shown s' = shown s.
Proof.
  unfold timer_step. destruct (timer s); try discriminate;
    try (intros [= <-]; reflexivity).
  destruct (SharedValue.set _ _); [|discriminate]. intros [= <-]. reflexivity.
Qed.

Lemma timer_step_written (s s' : state) :
  timer_step clock s = Some s' →
  written s' = written s ∧ elapsed_time s' = elapsed_time s ∨
  ∃ v, timer s = AtSet ∧ v = (clock (reads s) - start_time s)%Z ∧
       written s' = written s ++ [v] ∧
       (SharedValue.lock (elapsed_time s) = None →
        SharedValue.value (elapsed_time s') = v).
Proof.
  unfold timer_step. destruct (timer s); try discriminate;
    try (intros [= <-]; left; split; reflexivity).
  destruct (SharedValue.set _ _) as [cell|] eqn:E; [|discriminate].
  intros [= <-]. right. eexists. repeat split. cbn. intros Hl.
  rewrite SharedValueFacts.set_unlocked in E by assumption.
  injection E as <-. reflexivity.
Qed.

Lemma display_inv_step (th : thread) (s s' : state) :
  cell_inv clock s → display_inv s → step clock th s = Some s' → display_inv s'.
Proof.
  intros [Hl Hv Hh Hw] [Hfrom] Hstep. split. destruct th; cbn in Hstep.
  - destruct (controller_step_cell _ _ Hstep) as (_ & Hwr & _).
    rewrite Hwr.
    destruct (controller_step_shown _ _ Hstep) as [->|Hs]; [assumption|].
    rewrite (Hs Hl). intros v Hin.
    apply elem_of_app in Hin as [Hin|Hin]; [auto|].
    apply list_elem_of_singleton in Hin as ->. rewrite Hv.
    destruct (last (written s)) as [x|] eqn:E; cbn; [|auto].
    right. apply last_Some in E as [l' ->].
    apply elem_of_app. right. apply list_elem_of_here.
  - rewrite (timer_step_shown _ _ Hstep).
    destruct (timer_step_written _ _ Hstep) as [[-> _]|(v & _ & _ & -> & _)];
      [assumption|].
    intros x Hx. destruct (Hfrom x Hx); [auto|].
    right. apply elem_of_app. auto.
Qed.

Lemma published_nonneg (n : nat) :
  (∀ i j, (i ≤ j)%nat → (clock i ≤ clock j)%Z) →
  (0 ≤ default 0 (last (published clock n)) ≤ clock (n - 1) - clock 0%nat)%Z.
Proof.
  intros Hmono.
  destruct (last (published clock n)) as [x|] eqn:E; cbn.
  - rewrite last_lookup in E.
    pose proof (lookup_lt_Some _ _ _ E) as Hlt.
    apply published_lookup in E as ->.
    unfold published in *. rewrite length_fmap, length_seq in *.
    replace (S (pred (n - 1))) with (n - 1)%nat by lia.
    assert (clock 0%nat ≤ clock (n - 1)%nat)%Z by (apply Hmono; lia). lia.
  - assert (clock 0%nat ≤ clock (n - 1)%nat)%Z by (apply Hmono; lia). lia.
Qed.

Lemma display_order_step (th : thread) (s s' : state) :
  (∀ i j, (i ≤ j)%nat → (clock i ≤ clock j)%Z) →
  cell_inv clock s → display_order s → step clock th s = Some s' →
  display_order s'.
Proof.
  intros Hmono [Hl Hv Hh Hw] [Hcur Hle Hsorted] Hstep. destruct th; cbn in Hstep.
  - destruct (controller_step_cell _ _ Hstep) as (He & _).
    split; rewrite ?He; [assumption| |].
    + destruct (controller_step_shown _ _ Hstep) as [->|Hs]; [assumption|].
      rewrite (Hs Hl). intros v Hin.
      apply elem_of_app in Hin as [Hin|Hin]; [auto|].
      apply list_elem_of_singleton in Hin as ->. lia.
    + destruct (controller_step_shown _ _ Hstep) as [->|Hs]; [assumption|].
      rewrite (Hs Hl). intros i j v w Hij Hi Hj.
      destruct (decide (j < length (shown s))%nat) as [Hlt|Hge].
      * rewrite lookup_app_l in Hi, Hj by lia. eauto.
      * rewrite lookup_app_r in Hj by lia.
        destruct (j - length (shown s))%nat; [|discriminate].
        injection Hj as <-.
        destruct (decide (i < length (shown s))%nat) as [Hlt|Hge'].
        -- rewrite lookup_app_l in Hi by lia.
           apply Hle. apply list_elem_of_lookup. eauto.
        -- rewrite lookup_app_r in Hi by lia.
           destruct (i - length (shown s))%nat; [|discriminate].
           injection Hi as <-. lia.
  - pose proof (timer_step_shown _ _ Hstep) as Hsh.
    destruct (timer_step_written _ _ Hstep)
      as [[_ He]|(v & Ht & Hveq & _ & Hval)];
      [split; rewrite ?He, ?Hsh; assumption|].
    specialize (Hval Hl). rewrite Ht in Hw. destruct Hw as (Hr & Hs0 & Hw).
    assert (SharedValue.value (elapsed_time s) ≤ v)%Z as Hgrow.
    { rewrite Hv, Hw, Hveq, Hs0.
      pose proof (published_nonneg (reads s) Hmono) as [_ Hup].
      assert (clock (reads s - 1)%nat ≤ clock (reads s))%Z by (apply Hmono; lia).
      lia. }
    split; rewrite ?Hval, ?Hsh.
    + lia.
    + intros x Hx. specialize (Hle x Hx). lia.
    + assumption.
Qed.

(** X15.  Every elapsed time the controller displays is a value the timer
    wrote, or the 0 the cell starts with; and provided the wall clock never
    steps back, the displayed values are never negative and never decrease
    from one display to the next. *)
Theorem displayed_values_come_from_timer
    (program : list event) (schedule : list thread) (s : state) :
  run clock schedule (init program) = Some s →
  (∀ v, v ∈ shown s → v = 0%Z ∨ v ∈ written s) ∧
  ((∀ i j, (i ≤ j)%nat → (clock i ≤ clock j)%Z) →
   (∀ v, v ∈ shown s → (0 ≤ v)%Z) ∧
   ∀ i j v w, (i ≤ j)%nat →
     shown s !! i = Some v → shown s !! j = Some w → (v ≤ w)%Z).
Proof.
  intros Hrun. split.
  - assert (cell_inv clock s ∧ display_inv s) as [_ [H]]; [|exact H].
    revert Hrun.
    assert (cell_inv clock (init program) ∧ display_inv (init program)) as H0.
    { split; [apply cell_inv_init|]. split. intros v Hv. inversion Hv. }
    revert H0. generalize (init program) as s0.
    induction schedule as [|th schedule IH]; intros s0 [Hc Hd]; cbn.
    + intros [= <-]. auto.
    + destruct (step clock th s0) as [s1|] eqn:E; [|discriminate]. cbn.
      apply IH. split; [|eapply display_inv_step; eauto].
      destruct th; cbn in E;
        [eapply cell_inv_controller_step | eapply cell_inv_timer_step]; eauto.
  - intros Hmono.
    assert (cell_inv clock s ∧ display_order s) as [_ [_ Hle Hs]].
    { revert Hrun.
      assert (cell_inv clock (init program) ∧ display_order (init program)) as H0.
      { split; [apply cell_inv_init|]. split; cbn.
        - lia.
        - intros v Hv. inversion Hv.
        - intros i j v w _ Hi. rewrite lookup_nil in Hi. discriminate. }
      revert H0. generalize (init program) as s0.
      induction schedule as [|th schedule IH]; intros s0 [Hc Hd]; cbn.
      + intros [= <-]. auto.
      + destruct (step clock th s0) as [s1|] eqn:E; [|discriminate]. cbn.
        apply IH. split; [|eapply display_order_step; eauto].
        destruct th; cbn in E;
          [eapply cell_inv_controller_step | eapply cell_inv_timer_step]; eauto. }
    split; [|exact Hs]. intros v Hv. apply Hle in Hv. lia.
Qed.

End Clock.

(** *** The cell never blocks for good *)

Import SharedValue SharedValueFacts.

Lemma owner_exists_step (i : tid) (m m' : machine) :
  owner_exists m → SharedValue.step i m = Some m' → owner_exists m'.
Proof.
  unfold owner_exists, SharedValue.step. intros Ho.
  destruct (threads m !! i) as [th|] eqn:Hth; [|discriminate].
  destruct (code th) as [|ins rest]; [discriminate|].
  destruct (exec_instr i ins (cell m)) as [[self' r]|] eqn:E; [|discriminate].
  intros [= <-]. cbn. intros j Hj.
  apply lookup_lt_is_Some. rewrite length_insert. apply lookup_lt_is_Some.
  destruct ins; cbn in E.
  - destruct (lock (cell m)); [discriminate|]. injection E as <- _.
    cbn in Hj. injection Hj as <-. eauto.
  - injection E as <- _. cbn in Hj. auto.
  - injection E as <- _. auto.
  - injection E as <- _. cbn in Hj. discriminate.
Qed.

(** X16.  Threads that call [set] and [get] on one cell never block each
    other for good: in any state they reach, a thread that has not finished
    its calls means that some thread can take a step; and once all have
    finished, the lock is free. *)
Theorem shared_value_never_deadlocks
    (v0 : Z) (programs : list (list op)) (schedule : list tid) (m : machine) :
  SharedValue.run schedule (boot v0 programs) = Some m →
  ((∃ i th, threads m !! i = Some th ∧ code th ≠ []) →
   ∃ j, is_Some (SharedValue.step j m)) ∧
  ((∀ i th, threads m !! i = Some th → code th = []) →
   lock (cell m) = None).
Proof.
  intros Hrun.
  pose proof (inv_run v0 schedule _ _ (inv_boot v0 programs) Hrun) as [Hs _ _ _].
  assert (owner_exists m) as Ho.
  { revert Hrun. assert (owner_exists (boot v0 programs)) as H0
      by (intros i H; discriminate H).
    revert H0. generalize (boot v0 programs) as m0.
    induction schedule as [|i schedule IH]; intros m0 H0; cbn.
    - intros [= <-]. assumption.
    - destruct (SharedValue.step i m0) as [m1|] eqn:E; [|discriminate]. cbn.
      apply IH. eapply owner_exists_step; eauto. }
  assert (∀ i th, threads m !! i = Some th → code th ≠ [] →
                  (lock (cell m) = Some i ∨ lock (cell m) = None) →
                  is_Some (SharedValue.step i m)) as Hcan.
  { intros i th Hth Hcode Hlock. specialize (Hs _ _ Hth).
    unfold SharedValue.step. rewrite Hth.
    destruct (code th) as [|ins rest]; [contradiction|].
    destruct ins; cbn; eauto.
    destruct Hlock as [Hl|Hl]; [|rewrite Hl; eauto].
    rewrite Hl, bool_decide_eq_true_2 in Hs by reflexivity. inversion Hs. }
  split.
  - intros (i & th & Hth & Hcode).
    destruct (lock (cell m)) as [k|] eqn:Hl.
    + destruct (Ho k Hl) as [thk Hk]. exists k.
      apply (Hcan k thk Hk); [|auto].
      specialize (Hs _ _ Hk). rewrite bool_decide_eq_true_2 in Hs by reflexivity.
      intros Hc. rewrite Hc in Hs. inversion Hs.
    + exists i. apply (Hcan i th Hth Hcode). auto.
  - intros Hall. destruct (lock (cell m)) as [k|] eqn:Hl; [|reflexivity].
    destruct (Ho k Hl) as [thk Hk].
    specialize (Hs _ _ Hk). rewrite bool_decide_eq_true_2 in Hs by reflexivity.
    rewrite (Hall _ _ Hk) in Hs. inversion Hs.
Qed.

Lemma timer_returns_only_after_signal_witness :
  ∃ s, Timer.run Examples.steady_clock MoreExamples.impatient
         (init MoreExamples.no_signal) = Some s ∧
       controller s = [Join] ∧ controller_step s = None.
Proof.
  assert (∃ s, Timer.run Examples.steady_clock MoreExamples.impatient
                 (init MoreExamples.no_signal) = Some s ∧ controller s = [Join])
    as (s & Hs & Hc) by (vm_compute; eauto).
  exists s. split; [exact Hs|]. split; [exact Hc|].
  destruct (timer_returns_only_after_signal Examples.steady_clock
              MoreExamples.no_signal MoreExamples.impatient s Hs) as [_ H].
  destruct H as (_ & _ & Hj).
  - intros Hin. vm_compute in Hin. apply list_elem_of_In in Hin.
    destruct Hin as [Hin|[Hin|[Hin|[]]]]; discriminate Hin.
  - exact (Hj [] Hc).
Defined.

Lemma displayed_values_come_from_timer_witness :
  ∃ s, Timer.run Examples.steady_clock MoreExamples.impatient
         (init MoreExamples.no_signal) = Some s ∧
       shown s = [100%Z] ∧ ∀ v, v ∈ shown s → (0 ≤ v)%Z.
Proof.
  assert (∃ s, Timer.run Examples.steady_clock MoreExamples.impatient
                 (init MoreExamples.no_signal) = Some s ∧ shown s = [100%Z])
    as (s & Hs & Hc) by (vm_compute; eauto).
  exists s. split; [exact Hs|]. split; [exact Hc|].
  destruct (displayed_values_come_from_timer Examples.steady_clock
              MoreExamples.no_signal MoreExamples.impatient s Hs) as [_ H].
  apply H. intros i j Hij. unfold Examples.steady_clock. lia.
Defined.

Lemma shared_value_never_deadlocks_witness :
  ∃ m, SharedValue.run Examples.call_by_call (boot 0 Examples.writer_reader)
         = Some m ∧
       lock (cell m) = None.
Proof.
  assert (∃ m, SharedValue.run Examples.call_by_call
                 (boot 0 Examples.writer_reader) = Some m ∧
               Forall (λ th, code th = []) (threads m))
    as (m & Hm & Hall).
  { vm_compute. eexists. split; [reflexivity|]. repeat constructor. }
  exists m. split; [exact Hm|].
  apply (shared_value_never_deadlocks 0%Z Examples.writer_reader
           Examples.call_by_call m Hm).
  intros i th Hth. apply (proj1 (Forall_lookup _ _) Hall i th Hth).
Defined.

End ThreadsMore.

(** ** Saving and loading the user's data *)

Module StorageFacts.

Import Turn Session Storage Ui SessionFacts UiFacts.

Lemma new_dicts_lookup (ms : list message) (n : loc) (D : gmap loc message)
    (k : loc) :
  new_dicts ms n D !! k =
  if decide (n ≤ k < n + length ms)%nat then ms !! (k - n)%nat else D !! k.
Proof.
  revert n D. induction ms as [|m ms IH]; intros n D; cbn [new_dicts length].
  - destruct (decide _); [lia | reflexivity].
  - rewrite IH. destruct (decide (S n ≤ k < S n + length ms)%nat) as [H|H].
    + rewrite decide_True by lia.
      replace (k - n)%nat with (S (k - S n)) by lia. reflexivity.
    + destruct (decide (k = n)) as [->|Hne].
      * rewrite decide_True by lia. rewrite lookup_insert_eq.
        replace (n - n)%nat with 0%nat by lia. reflexivity.
      * rewrite decide_False by lia. apply lookup_insert_ne. congruence.
Qed.

Lemma mapM_agree {A B} (f g : A → option B) (xs : list A) :
  (∀ x, x ∈ xs → f x = g x) → mapM f xs = mapM g xs.
Proof.
  induction xs as [|x xs IH]; intros H; cbn; [reflexivity|].
  rewrite (H x) by apply list_elem_of_here.
  rewrite IH by (intros y Hy; apply H, list_elem_of_further, Hy).
  reflexivity.
Qed.

Lemma Forall2_compose {A B C} (P : A → B → Prop) (Q : B → C → Prop)
    (R : A → C → Prop) (xs : list A) (ys : list B) (zs : list C) :
  (∀ x y z, P x y → Q y z → R x z) →
  Forall2 P xs ys → Forall2 Q ys zs → Forall2 R xs zs.
Proof.
  intros H HP. revert zs. induction HP as [|x y xs ys Hxy _ IH]; intros zs HQ.
  - inversion HQ. constructor.
  - inversion HQ as [|? z ? zs' Hyz HQ']; subst.
    constructor; [eapply H; eassumption | apply IH, HQ'].
Qed.

Lemma read_list_eq (s s'
 : session) (l : loc) (ds : list loc) :
  lists s !! l = Some ds → lists s' !! l = Some ds →
  (∀ d, d ∈ ds → dicts s' !! d = dicts s !! d) →
  read_list s' l = read_list s l.
Proof.
  intros H H' Hd. unfold read_list. rewrite H, H'. cbn.
  apply mapM_agree, Hd.
Qed.

Lemma span_mono (lo hi hi' : loc) (s : session) (l : loc) :
  (hi ≤ hi')%nat → span lo hi s l → span lo hi' s l.
Proof.
  intros Hle (ds & Hl & Hb & Hd). exists ds. repeat split; try lia.
  - assumption.
  - apply Hd. assumption.
  - specialize (Hd d H). lia.
Qed.

Lemma extends_refl (s : session) : extends s s.
Proof. repeat split; auto. Qed.

Lemma extends_trans (s1 s2 s3 : session) :
  extends s1 s2 → extends s2 s3 → extends s1 s3.
Proof.
  intros (Hn & Hl & Hd) (Hn' & Hl' & Hd'). repeat split.
  - lia.
  - intros l H. rewrite Hl' by lia. apply Hl, H.
  - intros d H. rewrite Hd' by lia. apply Hd, H.
Qed.

Lemma extends_span (lo hi : loc) (s s' : session) (l : loc) :
  extends s s' → (hi ≤ next s)%nat → span lo hi s l →
  span lo hi s' l ∧ read_list s' l = read_list s l.
Proof.
  intros (Hn & Hl & Hd) Hhi (ds & Hds & Hb & Hin). split.
  - exists ds. rewrite Hl by lia. auto.
  - apply (read_list_eq _ _ _ ds); [assumption|rewrite Hl by lia; assumption|].
    intros d Hdin. apply Hd. specialize (Hin d Hdin). lia.
Qed.

Lemma new_list_next (ms : list message) (s : session) :
  next (new_list ms s).2 = S (next s + length ms).
Proof. reflexivity. Qed.

Lemma new_list_extends (ms : list message) (s : session) :
  extends s (new_list ms s).2.
Proof.
  repeat split; cbn.
  - lia.
  - intros l H. apply lookup_insert_ne. lia.
  - intros d H. rewrite new_dicts_lookup. apply decide_False. lia.
Qed.

Lemma new_list_span (ms : list message) (s : session) :
  span (next s) (next (new_list ms s).2) (new_list ms s).2 (new_list ms s).1.
Proof.
  exists (seq (next s) (length ms)). cbn. rewrite lookup_insert_eq.
  repeat split; try lia; apply elem_of_seq in H; lia.
Qed.

Lemma new_list_read (ms : list message) (s : session) :
  read_list (new_list ms s).2 (new_list ms s).1 = Some ms.
Proof.
  unfold read_list. cbn. rewrite lookup_insert_eq. cbn.
  apply mapM_Some. apply Forall2_same_length_lookup_2.
  - apply length_seq.
  - intros i d m Hd Hm. apply lookup_seq in Hd as [-> Hi].
    rewrite new_dicts_lookup, decide_True by lia.
    replace (next s + i - next s)%nat with i by lia. assumption.
Qed.

Lemma new_list_head (m : message) (ms : list message) (s : session) :
  lists (new_list (m :: ms) s).2 !! (new_list (m :: ms) s).1
    = Some (next s :: seq (S (next s)) (length ms)) ∧
  dicts (new_list (m :: ms) s).2 !! next s = Some m.
Proof.
  cbn -[new_dicts]. rewrite lookup_insert_eq. split; [reflexivity|].
  rewrite new_dicts_lookup, decide_True by (cbn; lia).
  replace (next s - next s)%nat with 0%nat by lia. reflexivity.
Qed.

Lemma new_list_fields (ms : list message) (s : session) :
  wf s → wf (new_list ms s).2.
Proof.
  intros [Wd Wl We Wlive Wc]. split; cbn.
  - intros d. rewrite new_dicts_lookup. destruct (decide _); [lia|].
    intros H. specialize (Wd d H). lia.
  - intros l H. apply lookup_insert_is_Some in H as [<-|[_ H]]; [lia|].
    specialize (Wl l H). lia.
  - intros l ds d H Hd. rewrite new_dicts_lookup.
    destruct (decide (next s + length ms = l)) as [<-|Hne].
    + rewrite lookup_insert_eq in H. injection H as <-.
      pose proof Hd as Hd'. apply elem_of_seq in Hd'.
      rewrite decide_True by lia. apply lookup_lt_is_Some. lia.
    + rewrite lookup_insert_ne in H by assumption.
      pose proof (We l ds d H Hd) as Hs. specialize (Wd d Hs).
      rewrite decide_False by lia. assumption.
  - rewrite lookup_insert_ne; [assumption|]. specialize (Wl _ Wlive). lia.
  - intros c Hc. specialize (Wc c Hc).
    rewrite lookup_insert_ne; [assumption|]. specialize (Wl _ Wc). lia.
Qed.

Lemma new_conversations_cons (c : saved_conversation)
    (cs : list saved_conversation) (s : session) :
  new_conversations (c :: cs) s =
  ({| first_question := saved_first_question c;
      conv_messages := (new_list (saved_messages c) s).1 |}
     :: (new_conversations cs (new_list (saved_messages c) s).2).1,
   (new_conversations cs (new_list (saved_messages c) s).2).2).
Proof.
  cbn [new_conversations].
  destruct (new_list (saved_messages c) s) as [l s1]. cbn [fst snd].
  destruct (new_conversations cs s1) as [convs s2]. reflexivity.
Qed.

Lemma new_conversations_fields (cs : list saved_conversation) (s : session) :
  messages (new_conversations cs s).2 = messages s ∧
  conversations (new_conversations cs s).2 = conversations s.
Proof.
  revert s. induction cs as [|c cs IH]; intros s; [split; reflexivity|].
  rewrite new_conversations_cons. cbn [snd].
  destruct (IH (new_list (saved_messages c) s).2) as [-> ->].
  split; reflexivity.
Qed.

Lemma new_conversations_spec (cs : list saved_conversation) (s : session) :
  extends s (new_conversations cs s).2 ∧
  (wf s → wf (new_conversations cs s).2) ∧
  Forall2 (λ c' c,
             first_question c' = saved_first_question c ∧
             read_list (new_conversations cs s).2 (conv_messages c')
               = Some (saved_messages c) ∧
             span (next s) (next (new_conversations cs s).2)
                  (new_conversations cs s).2 (conv_messages c'))
          (new_conversations cs s).1 cs.
Proof.
  revert s. induction cs as [|c cs IH]; intros s.
  - cbn. split; [apply extends_refl|]. split; [auto|constructor].
  - rewrite new_conversations_cons. cbn [fst snd].
    set (s1 := (new_list (saved_messages c) s).2).
    destruct (IH s1) as (He & Hw & Hf).
    pose proof (new_list_extends (saved_messages c) s) as He1. fold s1 in He1.
    split; [eapply extends_trans; eassumption|].
    split; [intros W; apply Hw, new_list_fields, W|].
    constructor.
    + cbn [first_question conv_messages].
      pose proof (new_list_span (saved_messages c) s) as Hsp. fold s1 in Hsp.
      destruct (extends_span _ _ _ _ _ He (Nat.le_refl _) Hsp) as [Hsp' Hr].
      split; [reflexivity|]. split.
      * rewrite Hr. apply new_list_read.
      * eapply span_mono; [|exact Hsp']. apply He.
    + eapply Forall2_impl; [exact Hf|].
      intros c' c0 (Hq & Hr & (ds & Hl & Hb & Hd)). split; [assumption|].
      split; [assumption|]. exists ds. split; [assumption|].
      destruct He1 as (Hn & _). split; [lia|].
      intros d Hin. specialize (Hd d Hin). lia.
Qed.

Section Files.

Variable os_path_join : string → string → string.

Local Abbreviation save_user_data := (save_user_data os_path_join).
Local Abbreviation load_user_data := (load_user_data os_path_join).
Local Abbreviation session_file := (session_file os_path_join).
Local Abbreviation loaded_messages := (loaded_messages os_path_join).
Local Abbreviation loaded_conversations := (loaded_conversations os_path_join).

Lemma load_user_data_unfold (email : string) (fs : files) (s : session) :
  let s1 := (new_list (loaded_messages email fs) s).2 in
  let r := new_conversations (loaded_conversations email fs) s1 in
  load_user_data email fs s =
  {| dicts := dicts r.2; lists := lists r.2; next := next r.2;
     messages := (new_list (loaded_messages email fs) s).1;
     user_system_prompt :=
       default EmptyString (fs !! session_file email ≫= ud_user_system_prompt);
     selected_models :=
       default default_reference_models
               (fs !! session_file email ≫= ud_selected_models);
     conversations := r.1 |}.
Proof.
  unfold Storage.load_user_data, Storage.loaded_messages,
    Storage.loaded_conversations.
  destruct (fs !! session_file email) as [ud|]; cbn [mbind option_bind default].
  - destruct (new_list _ s) as [l s1]. cbn [fst snd].
    destruct (new_conversations _ s1) as [convs s2]. reflexivity.
  - reflexivity.
Qed.

Lemma load_user_data_fields (email : string) (fs : files) (s : session) :
  user_system_prompt (load_user_data email fs s)
    = default EmptyString (fs !! session_file email ≫= ud_user_system_prompt) ∧
  selected_models (load_user_data email fs s)
    = default default_reference_models
              (fs !! session_file email ≫= ud_selected_models).
Proof. rewrite load_user_data_unfold. split; reflexivity. Qed.

Lemma load_user_data_spec (email : string) (fs : files) (s0 : session) :
  let s' := load_user_data email fs s0 in
  let ms := loaded_messages email fs in
  extends s0 s' ∧ (wf s0 → wf s') ∧
  read_list s' (messages s') = Some ms ∧
  span (next s0) (S (next s0 + length ms)) s' (messages s') ∧
  Forall2 (λ c' c,
             first_question c' = saved_first_question c ∧
             read_list s' (conv_messages c') = Some (saved_messages c) ∧
             span (S (next s0 + length ms)) (next s') s' (conv_messages c'))
          (conversations s') (loaded_conversations email fs).
Proof.
  intros s' ms. subst s'. rewrite load_user_data_unfold. fold ms.
  set (s1 := (new_list ms s0).2).
  set (r := new_conversations (loaded_conversations email fs) s1).
  destruct (new_conversations_spec (loaded_conversations email fs) s1)
    as (He & Hw & Hf). fold r in He, Hw, Hf.
  pose proof (new_list_extends ms s0) as He1. fold s1 in He1.
  pose proof (new_list_span ms s0) as Hsp. fold s1 in Hsp.
  destruct (extends_span _ _ _ _ _ He (Nat.le_refl _) Hsp) as [Hsp' Hr].
  pose proof (extends_trans _ _ _ He1 He) as He2.
  split; [exact He2|]. split; [|split; [|split]].
  - intros W. pose proof (Hw (new_list_fields ms s0 W)) as [Wd Wl We _ _].
    split; cbn [dicts lists next messages conversations]; auto.
    + destruct Hsp' as (ds & Hl & _). rewrite Hl. eauto.
    + intros c Hc. apply list_elem_of_lookup in Hc as [i Hi].
      destruct (Forall2_lookup_l _ _ _ _ _ Hf Hi) as (c0 & _ & _ & _ & (ds & Hl & _)).
      rewrite Hl. eauto.
  - cbn [messages]. unfold read_list in *. cbn in *. rewrite Hr.
    apply (new_list_read ms s0).
  - destruct Hsp' as (ds & Hl & Hb & Hd). exists ds. cbn in *. auto.
  - cbn [conversations next]. eapply Forall2_impl; [exact Hf|].
    intros c' c0 (Hq & Hrd & (ds & Hl & Hb & Hd)). split; [assumption|].
    split; [exact Hrd|]. exists ds. auto.
Qed.

Lemma save_user_data_Some (email : string) (s : session) (fs fs' : files) :
  save_user_data email s fs = Some fs' →
  ∃ ms cs, read_list s (messages s) = Some ms ∧
           mapM (dump_conversation s) (conversations s) = Some cs ∧
           loaded_messages email fs' = ms ∧
           loaded_conversations email fs' = cs ∧
           fs' !! session_file email ≫= ud_user_system_prompt
             = Some (user_system_prompt s) ∧
           fs' !! session_file email ≫= ud_selected_models
             = Some (selected_models s).
Proof.
  unfold Storage.save_user_data, dump, Storage.loaded_messages,
    Storage.loaded_conversations.
  destruct (read_list s (messages s)) as [ms|]; [|discriminate]. cbn.
  destruct (mapM _ _) as [cs|]; [|discriminate]. cbn.
  intros [= <-]. exists ms, cs. rewrite lookup_insert_eq. cbn. auto 10.
Qed.

Lemma wf_read_list (s : session) (l : loc) :
  wf s → is_Some (lists s !! l) → is_Some (read_list s l).
Proof.
  intros [_ _ We _ _] [ds Hl]. unfold read_list. rewrite Hl. cbn.
  apply mapM_is_Some, Forall_forall. intros d Hd. apply (We l ds d Hl Hd).
Qed.

Lemma wf_save (email : string) (s : session) (fs : files) :
  wf s → is_Some (save_user_data email s fs).
Proof.
  intros W. unfold Storage.save_user_data, dump.
  destruct (wf_read_list s (messages s) W (wf_live _ W)) as [ms ->]. cbn.
  assert (is_Some (mapM (dump_conversation s) (conversations s))) as [cs ->].
  { apply mapM_is_Some, Forall_forall. intros c Hc. unfold compose, dump_conversation.
    destruct (wf_read_list s (conv_messages c) W (wf_convs _ W c Hc)) as [x ->].
    cbn. eauto. }
  cbn. eauto.
Qed.


Lemma starts_with_system_read (s s' : session) (l l' : loc)
    (ms : list message) :
  starts_with_system s l → read_list s l = Some ms →
  read_list s' l' = Some ms → starts_with_system s' l'.
Proof.
  intros (d & ds & m & Hl & Hd & Hrole) Hr Hr'.
  apply read_list_Some in Hr as (ds0 & Hl0 & HF).
  rewrite Hl in Hl0. injection Hl0 as <-.
  inversion HF as [|? m0 ? ms0 Hd0 HF0]; subst.
  rewrite Hd in Hd0. injection Hd0 as <-.
  apply read_list_Some in Hr' as (ds' & Hl' & HF').
  inversion HF' as [|d' ? ds0' ? Hd' _]; subst.
  exists d', ds0', m. auto.
Qed.

(** X18.  After [load_user_data] no saved conversation shares a message
    with the live one: "Update System Instructions" then changes the live
    system message and leaves every saved conversation as loaded. *)
Theorem loaded_conversations_are_independent
    (email : string) (fs : files) (s0 : session) (user_prompt : string) :
  loaded_messages email fs ≠ [] →
  ∃ s1, update_system_instructions user_prompt (load_user_data email fs s0)
          = Some s1 ∧
        system_content s1 (messages s1) = Some (combined_prompt user_prompt) ∧
        conversations s1 = conversations (load_user_data email fs s0) ∧
        ∀ c, c ∈ conversations s1 →
             read_list s1 (conv_messages c)
             = read_list (load_user_data email fs s0) (conv_messages c).
Proof.
  intros Hne.
  destruct (load_user_data_spec email fs s0) as (_ & _ & Hr & Hsp & Hf).
  set (s' := load_user_data email fs s0) in *.
  destruct (loaded_messages email fs) as [|m ms] eqn:Hms; [contradiction|].
  apply read_list_Some in Hr as (ds & Hl & HF).
  inversion HF as [|d0 ? ds0 ? Hd0 _]; subst.
  destruct Hsp as (ds' & Hl' & _ & Hin). rewrite Hl in Hl'. injection Hl' as <-.
  specialize (Hin d0 (list_elem_of_here _ _)).
  unfold update_system_instructions. rewrite Hl. cbn. rewrite Hd0. cbn.
  eexists. split; [reflexivity|]. split; [|split; [reflexivity|]].
  - unfold system_content. cbn. rewrite Hl. cbn. rewrite lookup_insert_eq.
    reflexivity.
  - cbn [conversations]. intros c Hc.
    apply list_elem_of_lookup in Hc as [i Hi].
    destruct (Forall2_lookup_l _ _ _ _ _ Hf Hi)
      as (sc & _ & _ & _ & (dc & Hlc & _ & Hdc)).
    apply (read_list_eq _ _ _ dc); [assumption|assumption|].
    intros d Hd. cbn. apply lookup_insert_ne.
    specialize (Hdc d Hd). cbn in *. lia.
Qed.

(** X19.  A session in which every button works is, once saved and loaded
    again, a session in which every button works: the store is well formed,
    the live conversation and every saved one start with a system message,
    and every action the page offers goes through. *)
Theorem restored_session_keeps_working
    (email : string) (s s0 : session) (fs fs' : files) :
  ok s → wf s0 → save_user_data email s fs = Some fs' →
  ok (load_user_data email fs' s0) ∧
  ∀ a, offered a (load_user_data email fs' s0) →
       is_Some (act a (load_user_data email fs' s0)).
Proof.
  intros [W Hlive Hconvs] W0 Hsave.
  destruct (save_user_data_Some _ _ _ _ Hsave)
    as (ms & cs & Hms & Hcs & Hlm & Hlc & _ & _).
  destruct (load_user_data_spec email fs' s0) as (_ & Hw & Hr & _ & Hf).
  rewrite Hlm in Hr. rewrite Hlc in Hf.
  assert (ok (load_user_data email fs' s0)) as Hok.
  { split; [auto| |].
    - eapply starts_with_system_read; eassumption.
    - intros c' Hc'. apply list_elem_of_lookup in Hc' as [i Hi].
      destruct (Forall2_lookup_l _ _ _ _ _ Hf Hi) as (sc & Hsc & _ & Hrd & _).
      apply mapM_Some in Hcs.
      destruct (Forall2_lookup_r _ _ _ _ _ Hcs Hsc) as (c & Hc & Hdump).
      unfold dump_conversation in Hdump.
      destruct (read_list s (conv_messages c)) as [x|] eqn:Hx; [|discriminate].
      cbn in Hdump. injection Hdump as <-. cbn in Hrd.
      eapply starts_with_system_read; [|exact Hx|exact Hrd].
      apply Hconvs. apply list_elem_of_lookup. eauto. }
  split; [exact Hok|]. intros a. apply ok_offered, Hok.
Qed.

(** X20.  What [load_user_data] puts in the session depends on the file
    alone: the messages, the instructions, the selected models and the saved
    conversations read the same whatever the session held before, so
    nothing of an earlier user's session is left in them. *)
Theorem loaded_session_ignores_previous
    (email : string) (fs : files) (s0 s0' : session) :
  read_list (load_user_data email fs s0) (messages (load_user_data email fs s0))
  = read_list (load_user_data email fs s0')
              (messages (load_user_data email fs s0')) ∧
  user_system_prompt (load_user_data email fs s0)
  = user_system_prompt (load_user_data email fs s0') ∧
  selected_models (load_user_data email fs s0)
  = selected_models (load_user_data email fs s0') ∧
  Forall2 (λ c c', first_question c = first_question c' ∧
                   read_list (load_user_data email fs s0) (conv_messages c)
                   = read_list (load_user_data email fs s0') (conv_messages c'))
          (conversations (load_user_data email fs s0))
          (conversations (load_user_data email fs s0')).
Proof.
  destruct (load_user_data_spec email fs s0) as (_ & _ & Hr & _ & Hf).
  destruct (load_user_data_spec email fs s0') as (_ & _ & Hr' & _ & Hf').
  destruct (load_user_data_fields email fs s0) as [Hu Hm].
  destruct (load_user_data_fields email fs s0') as [Hu' Hm'].
  split; [congruence|]. split; [congruence|]. split; [congruence|].
  apply Forall2_flip in Hf'.
  eapply Forall2_compose; [|exact Hf|exact Hf'].
  intros c sc c' (Hq & Hrd & _) (Hq' & Hrd' & _). split; congruence.
Qed.

End Files.


Lemma loaded_conversations_are_independent_witness :
  ∃ s1, update_system_instructions "be brief"
          (load_user_data MoreExamples.slash_join "a@b.c" ∅ initial) = Some s1 ∧
        system_content s1 (messages s1) = Some (combined_prompt "be brief").
Proof.
  destruct (loaded_conversations_are_independent MoreExamples.slash_join
              "a@b.c" ∅ initial "be brief") as (s1 & H1 & H2 & _).
  - unfold loaded_messages. rewrite lookup_empty. discriminate.
  - exists s1. split; [exact H1 | exact H2].
Defined.

Lemma restored_session_keeps_working_witness :
  ∃ fs', save_user_data MoreExamples.slash_join "a@b.c" initial ∅ = Some fs' ∧
         is_Some (act StartNew
                    (load_user_data MoreExamples.slash_join "a@b.c" fs' initial)).
Proof.
  destruct (wf_save MoreExamples.slash_join "a@b.c" initial ∅ wf_initial)
    as [fs' Hs].
  exists fs'. split; [exact Hs|].
  apply (restored_session_keeps_working MoreExamples.slash_join "a@b.c"
           initial initial ∅ fs' ok_initial wf_initial Hs).
  exact I.
Defined.

End StorageFacts.
